(** * PatchCore anomaly detection (code_scratch.ipynb): a shallow embedding

    The notebook runs a frozen ResNet-50, taps two of its stages, turns the
    two activation maps into a grid of patch vectors, pools and subsamples
    the patch vectors of the good images into a memory bank, scores an image
    by nearest-neighbour distances to the bank, and picks a decision
    threshold.

    Conventions of the embedding.
    - A tensor holds real numbers: floating-point rounding, NaN and
      infinities of float32 are not modelled.  Scores seen by the F1 sweep
      are compared only, so they are rationals there (every finite float is
      one).
    - A batch always has one image (the notebook calls [unsqueeze(0)]), so a
      4-D tensor (1, C, H, W) is a list of C channels, a channel a list of H
      rows, a row a list of W numbers.  A 2-D tensor is a list of rows.
    - A Python exception is an [Err] result.
    - torch, numpy and scikit-learn calls are written out as those libraries
      document them; the ResNet-50 stages are fields of a record. *)

From Stdlib Require Import List Arith Bool Lia ZArith QArith Qround Reals Lra.
From Stdlib Require Import Permutation Sorted.
From Stdlib Require String.
Import String.StringSyntax.
Import ListNotations.
Delimit Scope string_scope with string.

Set Implicit Arguments.
Open Scope nat_scope.

(* ------------------------------------------------------------------ *)
(** ** Exceptions as results *)

Inductive error : Type :=
| RuntimeError   (* torch: invalid shape for view, pooling output too small, cat of nothing *)
| IndexError     (* torch: reduction over a dimension of size zero; index out of range *)
| ValueError.    (* scikit-learn / numpy: empty or inconsistent input *)

Inductive result (A : Type) : Type :=
| Ok (a : A)
| Err (e : error).

Arguments Ok {A} a.
Arguments Err {A} e.

Definition bind {A B : Type} (r : result A) (k : A -> result B) : result B :=
  match r with
  | Ok a => k a
  | Err e => Err e
  end.

Notation "x <- c ;; k" := (bind c (fun x => k))
  (at level 61, c at next level, right associativity).

Fixpoint mapM {A B : Type} (f : A -> result B) (l : list A) : result (list B) :=
  match l with
  | [] => Ok []
  | a :: l' => b <- f a ;; bs <- mapM f l' ;; Ok (b :: bs)
  end.

(* ------------------------------------------------------------------ *)
(** ** Tensors *)

Definition channel := list (list R).
Definition fmap := list channel.
Definition matrix := list (list R).

(** [t.shape[-2]] and [t.shape[-1]] of a (1, C, H, W) tensor. *)
Definition shape_H (f : fmap) : nat := length (hd [] f).
Definition shape_W (f : fmap) : nat := length (hd [] (hd [] f)).

Definition channel_shape (H W : nat) (ch : channel) : Prop :=
  length ch = H /\ Forall (fun row => length row = W) ch.

Definition has_shape (C H W : nat) (f : fmap) : Prop :=
  length f = C /\ Forall (channel_shape H W) f.

Definition zeros (C H W : nat) : fmap := repeat (repeat (repeat 0%R W) H) C.

Definition Rsum (l : list R) : R := fold_right Rplus 0%R l.

Definition get2 (ch : channel) (r c : nat) : R := nth c (nth r ch []) 0%R.

(** The entries of rows [r0, r1) and columns [c0, c1), row by row. *)
Definition window (ch : channel) (r0 r1 c0 c1 : nat) : list R :=
  flat_map (fun r => map (fun c => get2 ch r c) (seq c0 (c1 - c0))) (seq r0 (r1 - r0)).

Definition window_mean (ch : channel) (r0 r1 c0 c1 : nat) : R :=
  (Rsum (window ch r0 r1 c0 c1) / INR ((r1 - r0) * (c1 - c0)))%R.

(** Output length of a pooling window of size [k] and stride [s] without
    padding: floor((n - k) / s) + 1. *)
Definition pool_out (n k s : nat) : nat := (n - k) / s + 1.

(** [torch.nn.AvgPool2d(k, stride=s)]: no padding; torch refuses an input
    smaller than the window. *)
Definition AvgPool2d (k s : nat) (f : fmap) : result fmap :=
  let H := shape_H f in
  let W := shape_W f in
  if (H <? k) || (W <? k) then Err RuntimeError
  else Ok (map (fun ch =>
         map (fun i =>
           map (fun j => window_mean ch (i * s) (i * s + k) (j * s) (j * s + k))
               (seq 0 (pool_out W k s)))
           (seq 0 (pool_out H k s))) f).

(** Window of output cell [i] of an adaptive pooling from [inp] to [out]
    cells: from floor(i*inp/out) to ceil((i+1)*inp/out). *)
Definition start_index (i out inp : nat) : nat := (i * inp) / out.
Definition end_index (i out inp : nat) : nat := ((i + 1) * inp + out - 1) / out.

(** [torch.nn.AdaptiveAvgPool2d(S)] with an integer: the output is S x S. *)
Definition AdaptiveAvgPool2d (S : nat) (f : fmap) : fmap :=
  let H := shape_H f in
  let W := shape_W f in
  map (fun ch =>
    map (fun i =>
      map (fun j => window_mean ch (start_index i S H) (end_index i S H)
                                   (start_index j S W) (end_index j S W))
          (seq 0 S))
      (seq 0 S)) f.

(** [torch.cat(maps, 1)]: the channel lists one after the other. *)
Definition cat_channels (maps : list fmap) : fmap := concat maps.

(** [patch.reshape(patch.shape[1], -1).T]: each channel flattened row by row
    gives a C x (H*W) matrix; its transpose has one row per grid cell. *)
Definition reshape_T (patch : fmap) : matrix :=
  map (fun p => map (fun ch => nth p (concat ch) 0%R) patch)
      (seq 0 (shape_H patch * shape_W patch)).

(* ------------------------------------------------------------------ *)
(** ** The feature extractor *)

Module Extractor.

(** The stages of torchvision's ResNet-50 that run up to the last tap.  The
    weights are frozen, so each stage is a function. *)
Record resnet50 : Type := {
  stem   : fmap -> fmap;   (* conv1, bn1, relu, maxpool *)
  layer1 : fmap -> fmap;
  layer2 : fmap -> fmap;
  layer3 : fmap -> fmap;
  layer4 : fmap -> fmap    (* its output feeds avgpool and fc, unused here *)
}.

(** [hook]: append the module's output to [self.features]. *)
Definition hook (features : list fmap) (output : fmap) : list fmap :=
  features ++ [output].

(** [self.model(input)] with the two forward hooks, threading
    [self.features].  The hooks sit on [layer2[-1]] and [layer3[-1]], whose
    outputs are the outputs of [layer2] and [layer3]; a hook fires when its
    module has run. *)
Definition model_forward (net : resnet50) (input : fmap) (features : list fmap)
  : fmap * list fmap :=
  let x := stem net input in
  let x := layer1 net x in
  let x := layer2 net x in
  let features := hook features x in
  let x := layer3 net x in
  let features := hook features x in
  let x := layer4 net x in
  (x, features).

Definition avg : fmap -> result fmap := AvgPool2d 3 1.

Definition forward (net : resnet50) (input : fmap) : result matrix :=
  let features := snd (model_forward net input []) in
  let fmap_size := shape_H (nth 0 features []) in
  let resize := AdaptiveAvgPool2d fmap_size in
  resized_maps <- mapM (fun fm => a <- avg fm ;; Ok (resize a)) features ;;
  let patch := cat_channels resized_maps in
  Ok (reshape_T patch).

(** [self.features] after a forward pass. *)
Definition features_of (net : resnet50) (input : fmap) : list fmap :=
  snd (model_forward net input []).

(** What torchvision's ResNet-50 computes on a 3 x 224 x 224 image: 512
    channels of 28 x 28 after layer2, 1024 channels of 14 x 14 after
    layer3. *)
Definition resnet50_shapes (net : resnet50) : Prop :=
  forall x, has_shape 3 224 224 x ->
    has_shape 512 28 28 (layer2 net (layer1 net (stem net x))) /\
    has_shape 1024 14 14 (layer3 net (layer2 net (layer1 net (stem net x)))).

(** A network with constant stages of the right shapes. *)
Definition const_net : resnet50 := {|
  stem   := fun _ => zeros 64 56 56;
  layer1 := fun _ => zeros 256 56 56;
  layer2 := fun _ => zeros 512 28 28;
  layer3 := fun _ => zeros 1024 14 14;
  layer4 := fun _ => zeros 2048 7 7
|}.

End Extractor.

(* ------------------------------------------------------------------ *)
(** ** The memory bank *)

Module Bank.

(** [torch.cat(memory_bank, dim=0)].  With no image in the folder the cell
    stops one line earlier, at [memory_bank[0]]. *)
Definition torch_cat0 (memory_bank : list matrix) : result matrix :=
  match memory_bank with
  | [] => Err IndexError
  | _ => Ok (concat memory_bank)
  end.

(** The loop over the folder of good images, then the concatenation. *)
Definition pool (net : Extractor.resnet50) (images : list fmap) : result matrix :=
  memory_bank <- mapM (Extractor.forward net) images ;;
  torch_cat0 memory_bank.

(** [np.random.choice(n, size=size, replace=False)]: numpy shuffles
    [0 .. n-1] and keeps the first [size] entries.  The shuffled sequence
    [perm] stands for the generator's draw. *)
Definition np_random_choice (perm : list nat) (n size : nat) : result (list nat) :=
  if n <? size then Err ValueError else Ok (firstn size perm).

(** [memory_bank[selected_indices]]. *)
Definition index_rows {A : Type} (memory_bank : list A) (selected_indices : list nat)
  : result (list A) :=
  mapM (fun i => match nth_error memory_bank i with
                 | Some v => Ok v
                 | None => Err IndexError
                 end) selected_indices.

Definition subsample {A : Type} (perm : list nat) (memory_bank : list A) : result (list A) :=
  selected_indices <-
    np_random_choice perm (length memory_bank) (length memory_bank / 10) ;;
  index_rows memory_bank selected_indices.

Definition build (net : Extractor.resnet50) (images : list fmap) (perm : list nat)
  : result matrix :=
  memory_bank <- pool net images ;;
  subsample perm memory_bank.

(** The bank size in the words of the specification:
    round(sample_fraction * pooled_count), with Python's [round] (ties go
    to the even integer). *)
Definition py_round (q : Q) : Z :=
  let fl := Qfloor q in
  let frac := (q - inject_Z fl)%Q in
  match (frac ?= 1 # 2)%Q with
  | Lt => fl
  | Gt => (fl + 1)%Z
  | Eq => if Z.even fl then fl else (fl + 1)%Z
  end.

Definition spec_bank_size (sample_fraction : Q) (pooled_count : nat) : Z :=
  py_round (sample_fraction * inject_Z (Z.of_nat pooled_count))%Q.

(** The remaining definitions of this module are no code of the notebook:
    they serve to say that the draw is without replacement and uniform.

    A selection of [size] distinct positions below [n]: what a draw without
    replacement can return. *)
Definition selection (n size : nat) (sel : list nat) : Prop :=
  NoDup sel /\ length sel = size /\ Forall (fun i => i < n) sel.

(** The position of the first occurrence of [x] in [l]. *)
Fixpoint index_of (x : nat) (l : list nat) : nat :=
  match l with
  | [] => 0
  | y :: l' => if x =? y then 0 else S (index_of x l')
  end.

(** A shuffle of [0 .. n-1] that starts with the selection [sel]: the
    positions left out follow in increasing order. *)
Definition shuffle_from (n : nat) (sel : list nat) : list nat :=
  sel ++ filter (fun i => negb (existsb (Nat.eqb i) sel)) (seq 0 n).

(** The relabelling of positions that carries the shuffle [p1] to the
    shuffle [p2], entry by entry. *)
Definition relabel (p1 p2 : list nat) (i : nat) : nat :=
  nth (index_of i p1) p2 0.

End Bank.

(* ------------------------------------------------------------------ *)
(** ** The anomaly scorer *)

Module Scorer.

(** Euclidean distance of two rows. *)
Definition l2 (a b : list R) : R :=
  sqrt (Rsum (map (fun p => ((fst p - snd p) * (fst p - snd p))%R) (combine a b))).

(** [torch.cdist(x1, x2, p=2.0)]: the rows of [x2] must be as long as the
    rows of [x1]; a bank without rows gives rows without entries. *)
Definition cdist (x1 x2 : matrix) : result matrix :=
  let d := length (hd [] x1) in
  if forallb (fun v => length v =? d) x2
  then Ok (map (fun a => map (fun b => l2 a b) x2) x1)
  else Err RuntimeError.

(** [torch.min(distances, dim=1)], values only: the indices are not used
    by the notebook.  torch refuses a reduction over no entries. *)
Definition min_row (row : list R) : result R :=
  match row with
  | [] => Err IndexError
  | v :: vs => Ok (fold_left Rmin vs v)
  end.

Definition torch_min_dim1 (distances : matrix) : result (list R) :=
  mapM min_row distances.

(** [torch.max(dist_score)]. *)
Definition torch_max (dist_score : list R) : result R :=
  match dist_score with
  | [] => Err RuntimeError
  | v :: vs => Ok (fold_left Rmax vs v)
  end.

(** [dist_score.view(1, 1, 28, 28)]: entry (r, c) is entry r*28 + c. *)
Definition view_1_1_28_28 (dist_score : list R) : result channel :=
  if length dist_score =? 28 * 28
  then Ok (map (fun r => map (fun c => nth (r * 28 + c) dist_score 0%R) (seq 0 28))
               (seq 0 28))
  else Err RuntimeError.

(** Source position of output cell [dst] for [mode='bilinear'] with the
    default [align_corners=False]:
    src = max(0, (inp/out) * (dst + 1/2) - 1/2)
        = max(0, inp * (2*dst + 1) - out) / (2*out).
    The pair is floor(src) and src - floor(src). *)
Definition source_index (inp out dst : nat) : nat * R :=
  let num := inp * (2 * dst + 1) - out in
  (num / (2 * out), (INR (num mod (2 * out)) / INR (2 * out))%R).

Definition next_index (inp i0 : nat) : nat :=
  if i0 <? inp - 1 then i0 + 1 else i0.

(** [torch.nn.functional.interpolate(x, size=(oh, ow), mode='bilinear')]
    on one channel. *)
Definition interpolate_bilinear (oh ow : nat) (x : channel) : channel :=
  let ih := length x in
  let iw := length (hd [] x) in
  map (fun oy =>
    let h0 := fst (source_index ih oh oy) in
    let lh := snd (source_index ih oh oy) in
    let h1 := next_index ih h0 in
    map (fun ox =>
      let w0 := fst (source_index iw ow ox) in
      let lw := snd (source_index iw ow ox) in
      let w1 := next_index iw w0 in
      ((1 - lh) * ((1 - lw) * get2 x h0 w0 + lw * get2 x h0 w1)
       + lh * ((1 - lw) * get2 x h1 w0 + lw * get2 x h1 w1))%R)
      (seq 0 ow))
    (seq 0 oh).

(** The scoring lines shared by all scoring cells: distances, nearest
    distance per patch, worst patch, 28 x 28 map. *)
Definition score_grid (features memory_bank : matrix) : result (R * channel) :=
  distances <- cdist features memory_bank ;;
  dist_score <- torch_min_dim1 distances ;;
  s_star <- torch_max dist_score ;;
  segm_map <- view_1_1_28_28 dist_score ;;
  Ok (s_star, segm_map).

(** The visualisation cell: features, scoring lines, upsampling. *)
Definition score (net : Extractor.resnet50) (test_image : fmap) (memory_bank : matrix)
  : result (R * channel) :=
  features <- Extractor.forward net test_image ;;
  r <- score_grid features memory_bank ;;
  Ok (fst r, interpolate_bilinear 224 224 (snd r)).

(** The largest entry of a map, when it has one. *)
Definition channel_max (m : channel) : result R := torch_max (concat m).

(** Least and greatest element of a sequence. *)
Definition is_minimum (v : R) (l : list R) : Prop :=
  In v l /\ forall x, In x l -> (v <= x)%R.

Definition is_maximum (v : R) (l : list R) : Prop :=
  In v l /\ forall x, In x l -> (x <= v)%R.

(** A sequence of S*S entries folded row by row into an S x S grid: cell
    (r, c) holds entry r*S + c. *)
Definition row_major (S : nat) (l : list R) : channel :=
  map (fun r => map (fun c => nth (r * S + c) l 0%R) (seq 0 S)) (seq 0 S).

End Scorer.

(* ------------------------------------------------------------------ *)
(** ** The statistical threshold *)

Module Statistical.

Definition np_mean (l : list R) : R := (Rsum l / INR (length l))%R.

(** [np.std]: square root of the mean of the squared absolute deviations
    (population standard deviation, ddof = 0). *)
Definition np_std (l : list R) : R :=
  sqrt (np_mean (map (fun x => (Rabs (x - np_mean l) * Rabs (x - np_mean l))%R) l)).

(** [np.mean(y_score_good) + k * np.std(y_score_good)]. *)
Definition calibrate_statistical (y_score_good : list R) (k : R) : R :=
  (np_mean y_score_good + k * np_std y_score_good)%R.

(** The notebook's line, where the constant is 3. *)
Definition best_threshold (y_score_good : list R) : R :=
  calibrate_statistical y_score_good 3.

(** Mean and population standard deviation in the words of the
    specification. *)
Definition spec_mean (l : list R) : R := (Rsum l / INR (length l))%R.

Definition spec_population_variance (l : list R) : R :=
  (Rsum (map (fun x => (x - spec_mean l) ^ 2) l) / INR (length l))%R.

End Statistical.

(* ------------------------------------------------------------------ *)
(** ** The F1 sweep over the ROC thresholds *)

Module MetricSweep.

(** A threshold returned by [roc_curve]: [np.inf] or a score. *)
Inductive threshold : Type :=
| PInf
| Fin (q : Q).

(** [score >= threshold]. *)
Definition ge_threshold (score : Q) (t : threshold) : bool :=
  match t with
  | PInf => false
  | Fin q => Qle_bool q score
  end.

(** A stable sort by ascending score: scikit-learn sorts with
    [np.argsort(y_score, kind="mergesort")], and every stable sort gives the
    same order. *)
Fixpoint insert (x : Q * bool) (l : list (Q * bool)) : list (Q * bool) :=
  match l with
  | [] => [x]
  | y :: l' => if Qle_bool (fst x) (fst y) then x :: l else y :: insert x l'
  end.

Fixpoint stable_sort (l : list (Q * bool)) : list (Q * bool) :=
  match l with
  | [] => []
  | x :: l' => insert x (stable_sort l')
  end.

(** Scores and labels by decreasing score: the ascending order, reversed. *)
Definition sort_desc (y_true : list bool) (y_score : list Q) : list (Q * bool) :=
  rev (stable_sort (combine y_score y_true)).

(** One point of the curve: false positives, true positives and the
    threshold at which they are counted. *)
Record point : Type := mk_point { fps : nat; tps : nat; thr : Q }.

(** [_binary_clf_curve]: walking down the sorted scores, one point at the
    last position of every run of equal scores, with the labels counted so
    far ([tps] is the cumulative sum of the labels, [fps] the rest). *)
Fixpoint clf_curve (l : list (Q * bool)) (tp fp : nat) : list point :=
  match l with
  | [] => []
  | sy :: rest =>
      let tp' := if snd sy then S tp else tp in
      let fp' := if snd sy then fp else S fp in
      match rest with
      | [] => [mk_point fp' tp' (fst sy)]
      | sy' :: _ =>
          if Qeq_bool (fst sy) (fst sy')
          then clf_curve rest tp' fp'
          else mk_point fp' tp' (fst sy) :: clf_curve rest tp' fp'
      end
  end.

(** A point is a corner when the second difference of [fps] or of [tps] is
    not zero there. *)
Definition corner (prev cur next : point) : bool :=
  negb (fps prev + fps next =? 2 * fps cur) || negb (tps prev + tps next =? 2 * tps cur).

(** [drop_intermediate=True] (the default): the first and the last point
    stay, a point between them stays when it is a corner with respect to its
    two neighbours in the full curve. *)
Fixpoint drop_mid (prev : point) (l : list point) : list point :=
  match l with
  | [] => []
  | cur :: rest =>
      match rest with
      | [] => [cur]
      | next :: _ =>
          if corner prev cur next then cur :: drop_mid cur rest else drop_mid cur rest
      end
  end.

Definition drop_intermediate (l : list point) : list point :=
  match l with
  | [] => []
  | p :: rest => p :: drop_mid p rest
  end.

(** The third component of scikit-learn's [roc_curve(y_true, y_score)]:
    the thresholds of [_binary_clf_curve], thinned by [drop_intermediate],
    with [np.inf] put in front.  The two rates are only printed and plotted.
    Empty input and labels and scores of different lengths are refused; one
    class only among the labels gives a warning, not an error. *)
Definition roc_curve (y_true : list bool) (y_score : list Q) : result (list threshold) :=
  if negb (length y_true =? length y_score) then Err ValueError
  else if length y_true =? 0 then Err ValueError
  else Ok (PInf :: map (fun p => Fin (thr p))
                       (drop_intermediate (clf_curve (sort_desc y_true y_score) 0 0))).

Definition count2 (f : bool -> bool -> bool) (y_true y_pred : list bool) : nat :=
  length (filter (fun yp => f (fst yp) (snd yp)) (combine y_true y_pred)).

(** scikit-learn's [f1_score(y_true, y_pred)] for the positive label 1:
    2*tp / (2*tp + fp + fn), and 0 (with a warning) when nothing is positive
    on either side. *)
Definition f1_score (y_true y_pred : list bool) : Q :=
  let tp := count2 (fun y p => y && p) y_true y_pred in
  let fp := count2 (fun y p => negb y && p) y_true y_pred in
  let fn := count2 (fun y p => y && negb p) y_true y_pred in
  if 2 * tp + fp + fn =? 0 then 0%Q
  else (Z.of_nat (2 * tp) # Pos.of_nat (2 * tp + fp + fn))%Q.

(** [f1_score(y_true, y_score >= threshold)]. *)
Definition f1_at (y_true : list bool) (y_score : list Q) (t : threshold) : Q :=
  f1_score y_true (map (fun s => ge_threshold s t) y_score).

(** [np.argmax]: the first position of the largest entry. *)
Fixpoint argmax_from (l : list Q) (i best_i : nat) (best : Q) : nat :=
  match l with
  | [] => best_i
  | x :: l' =>
      if Qle_bool x best then argmax_from l' (S i) best_i best
      else argmax_from l' (S i) i x
  end.

Definition np_argmax (l : list Q) : result nat :=
  match l with
  | [] => Err ValueError
  | x :: l' => Ok (argmax_from l' 1 0 x)
  end.

(** The threshold selection of the evaluation cell. *)
Definition best_threshold (y_true : list bool) (y_score : list Q) : result threshold :=
  thresholds <- roc_curve y_true y_score ;;
  let f1_scores := map (f1_at y_true y_score) thresholds in
  i <- np_argmax f1_scores ;;
  match nth_error thresholds i with
  | Some t => Ok t
  | None => Err IndexError
  end.

(** The sweep in the words of the specification: the candidates are the
    observed scores, unique and ascending, and the first candidate of
    maximal F1 is returned. *)
Fixpoint insert_unique (x : Q) (l : list Q) : list Q :=
  match l with
  | [] => [x]
  | y :: l' =>
      if Qeq_bool x y then l
      else if Qle_bool x y then x :: l
      else y :: insert_unique x l'
  end.

Definition spec_candidates (y_score : list Q) : list Q :=
  fold_right insert_unique [] y_score.

Definition spec_calibrate_by_metric (y_true : list bool) (y_score : list Q) : option Q :=
  let candidates := spec_candidates y_score in
  let f1_scores := map (fun c => f1_at y_true y_score (Fin c)) candidates in
  match np_argmax f1_scores with
  | Ok i => nth_error candidates i
  | Err _ => None
  end.

Definition single_class (y_true : list bool) : bool :=
  forallb (fun y => y) y_true || forallb negb y_true.

(** Orders on scored labels, on curve points and on scores. *)
Definition asc_by_score (a b : Q * bool) : Prop := (fst a <= fst b)%Q.
Definition desc_by_score (a b : Q * bool) : Prop := (fst b <= fst a)%Q.
Definition thr_decreasing (p q : point) : Prop := (thr q < thr p)%Q.
Definition decreasing (a b : Q) : Prop := (b < a)%Q.

(** The labels [pos] among the scores not below [theta]. *)
Definition count_ge (pos : bool) (theta : Q) (l : list (Q * bool)) : nat :=
  length (filter (fun z => Bool.eqb (snd z) pos && Qle_bool theta (fst z)) l).

Definition positives (y_true : list bool) : nat := length (filter (fun y => y) y_true).

(** The F1 of a curve point when [P] labels are positive:
    2*tps / (tps + fps + P). *)
Definition point_f1 (P : nat) (p : point) : Q :=
  (Z.of_nat (2 * tps p) # Pos.of_nat (tps p + fps p + P))%Q.

End MetricSweep.

(* ------------------------------------------------------------------ *)
(** ** The loops and cells of the notebook around the scoring lines *)

Module Notebook.

(** The feature vector at grid position (r, c) of a (1, C, H, W) tensor. *)
Definition grid_cell (patch : fmap) (r c : nat) : list R :=
  map (fun ch => get2 ch r c) patch.

(** All entries between two bounds. *)
Definition within (lo hi : R) (l : list R) : Prop :=
  Forall (fun v => (lo <= v <= hi)%R) l.

Definition channel_within (lo hi : R) (ch : channel) : Prop :=
  Forall (within lo hi) ch.

Definition fmap_within (lo hi : R) (f : fmap) : Prop :=
  Forall (channel_within lo hi) f.

(** One scoring pass of the loops: features, then the scoring lines; the
    loops keep [s_star] only. *)
Definition s_star_of (net : Extractor.resnet50) (memory_bank : matrix) (data : fmap)
  : result R :=
  features <- Extractor.forward net data ;;
  r <- Scorer.score_grid features memory_bank ;;
  Ok (fst r).

(** The loop over the good images: [y_score_good.append(s_star)]. *)
Fixpoint good_loop (net : Extractor.resnet50) (memory_bank : matrix)
         (images : list fmap) (y_score_good : list R) : result (list R) :=
  match images with
  | [] => Ok y_score_good
  | data :: rest =>
      s_star <- s_star_of net memory_bank data ;;
      good_loop net memory_bank rest (y_score_good ++ [s_star])
  end.

Definition y_score_good (net : Extractor.resnet50) (memory_bank : matrix)
           (images : list fmap) : result (list R) :=
  good_loop net memory_bank images [].

(** The folders of the test loop, in the order of the notebook. *)
Definition classes : list String.string :=
  ["crack"; "cut"; "good"; "hole"; "print"]%string.

(** [0 if class_label=='good' else 1]. *)
Definition label_of (class_label : String.string) : bool :=
  negb (String.eqb class_label "good").

(** The inner loop over one folder: both lists grow by one entry per
    image. *)
Fixpoint folder_loop (net : Extractor.resnet50) (memory_bank : matrix)
         (class_label : String.string) (images : list fmap)
         (y_score : list R) (y_true : list bool) : result (list R * list bool) :=
  match images with
  | [] => Ok (y_score, y_true)
  | test_image :: rest =>
      s_star <- s_star_of net memory_bank test_image ;;
      folder_loop net memory_bank class_label rest
                  (y_score ++ [s_star]) (y_true ++ [label_of class_label])
  end.

(** The outer loop over the class folders; [folder] lists the images of a
    folder. *)
Fixpoint class_loop (net : Extractor.resnet50) (memory_bank : matrix)
         (folder : String.string -> list fmap) (cs : list String.string)
         (y_score : list R) (y_true : list bool) : result (list R * list bool) :=
  match cs with
  | [] => Ok (y_score, y_true)
  | c :: rest =>
      st <- folder_loop net memory_bank c (folder c) y_score y_true ;;
      class_loop net memory_bank folder rest (fst st) (snd st)
  end.

Definition test_scores (net : Extractor.resnet50) (memory_bank : matrix)
           (folder : String.string -> list fmap) : result (list R * list bool) :=
  class_loop net memory_bank folder classes [] [].

(** [[score for score, true in zip(y_score, y_true) if true == 1]]. *)
Definition y_score_bad (y_score : list R) (y_true : list bool) : list R :=
  map fst (filter (fun st => snd st) (combine y_score y_true)).

(** [1*(y_score_image >= best_threshold)]: true stands for BAD. *)
Definition y_pred_image (y_score_image best_threshold : R) : bool :=
  if Rle_dec best_threshold y_score_image then true else false.

(** [heat_map > best_threshold], pixel by pixel. *)
Definition segmentation (heat_map : channel) (best_threshold : R) : list (list bool) :=
  map (map (fun v => if Rlt_dec best_threshold v then true else false)) heat_map.

End Notebook.

(* ------------------------------------------------------------------ *)
(** ** Results and lists *)

Section ResultFacts.
Context {A B : Type}.

Lemma mapM_total (f : A -> result B) (g : A -> B) (l : list A) :
  (forall a, In a l -> f a = Ok (g a)) -> mapM f l = Ok (map g l).
Proof.
  induction l as [|a l IH]; intros Hf; simpl; [reflexivity|].
  rewrite (Hf a (or_introl eq_refl)). simpl.
  rewrite IH by (intros; apply Hf; now right). reflexivity.
Qed.

Lemma bind_ok (a : A) (k : A -> result B) : bind (Ok a) k = k a.
Proof. reflexivity. Qed.

End ResultFacts.

Lemma map_nth_seq {A : Type} (d : A) (l : list A) :
  map (fun i => nth i l d) (seq 0 (length l)) = l.
Proof.
  induction l as [|a l IH]; simpl; [reflexivity|].
  f_equal. rewrite <- seq_shift, map_map. exact IH.
Qed.

Lemma seq_from (a w : nat) : seq a w = map (fun c => a + c) (seq 0 w).
Proof.
  induction w as [|w IH]; [reflexivity|].
  rewrite !seq_S, map_app, IH. simpl. reflexivity.
Qed.

(** Rows of width [w] laid one after the other are the row-major
    sequence. *)
Lemma concat_rows {A : Type} (f : nat -> A) (w n : nat) :
  concat (map (fun r => map (fun c => f (r * w + c)) (seq 0 w)) (seq 0 n))
  = map f (seq 0 (n * w)).
Proof.
  induction n as [|n IH]; [reflexivity|].
  rewrite seq_S, map_app, concat_app, IH. simpl.
  rewrite app_nil_r.
  replace (w + n * w) with (n * w + w) by lia.
  rewrite seq_app, map_app. f_equal.
  simpl. rewrite (seq_from (n * w) w), map_map. reflexivity.
Qed.

(* ------------------------------------------------------------------ *)
(** ** Small runs of the definitions *)

Example pool_out_28 : pool_out 28 3 1 = 26 /\ pool_out 14 3 1 = 12.
Proof. split; reflexivity. Qed.

Example adaptive_windows_26_to_28 :
  (start_index 0 28 26, end_index 0 28 26) = (0, 1) /\
  (start_index 13 28 26, end_index 13 28 26) = (12, 13) /\
  (start_index 14 28 26, end_index 14 28 26) = (13, 14) /\
  (start_index 27 28 26, end_index 27 28 26) = (25, 26).
Proof. repeat split; reflexivity. Qed.

Example adaptive_windows_12_to_28 :
  (start_index 0 28 12, end_index 0 28 12) = (0, 1) /\
  (start_index 5 28 12, end_index 5 28 12) = (2, 3) /\
  (start_index 27 28 12, end_index 27 28 12) = (11, 12).
Proof. repeat split; reflexivity. Qed.

Example AvgPool2d_3x3 :
  AvgPool2d 3 1 [[[1; 2; 3]; [4; 5; 6]; [7; 8; 9]]]%R = Ok [[[5%R]]].
Proof.
  unfold AvgPool2d. simpl. do 4 f_equal.
  unfold window_mean, window, get2, Rsum. simpl. lra.
Qed.

Example AvgPool2d_too_small :
  AvgPool2d 3 1 [[[1; 2]; [3; 4]]]%R = Err RuntimeError.
Proof. reflexivity. Qed.

Example reshape_T_2x2 :
  reshape_T [[[1; 2]; [3; 4]]; [[5; 6]; [7; 8]]]%R
  = [[1; 5]; [2; 6]; [3; 7]; [4; 8]]%R.
Proof. reflexivity. Qed.

Example l2_3_4 : Scorer.l2 [0; 0]%R [3; 4]%R = 5%R.
Proof.
  unfold Scorer.l2, Rsum. simpl.
  replace ((0 - 3) * (0 - 3) + ((0 - 4) * (0 - 4) + 0))%R with (5 * 5)%R by lra.
  apply sqrt_square. lra.
Qed.

Example source_index_28_to_224 :
  fst (Scorer.source_index 28 224 0) = 0 /\
  fst (Scorer.source_index 28 224 3) = 0 /\
  fst (Scorer.source_index 28 224 4) = 0 /\
  fst (Scorer.source_index 28 224 12) = 1 /\
  fst (Scorer.source_index 28 224 223) = 27 /\
  Scorer.next_index 28 27 = 27 /\ Scorer.next_index 28 0 = 1.
Proof. repeat split; reflexivity. Qed.

Example source_weight_28_to_224 :
  snd (Scorer.source_index 28 224 0) = 0%R /\
  snd (Scorer.source_index 28 224 4) = (1 / 16)%R /\
  snd (Scorer.source_index 28 224 223) = (7 / 16)%R.
Proof.
  unfold Scorer.source_index.
  repeat split.
  - replace ((28 * (2 * 0 + 1) - 224) mod (2 * 224)) with 0 by reflexivity.
    cbn [snd]. unfold Rdiv. apply Rmult_0_l.
  - replace ((28 * (2 * 4 + 1) - 224) mod (2 * 224)) with 28 by reflexivity.
    cbn [snd]. rewrite !INR_IZR_INZ. simpl. lra.
  - replace ((28 * (2 * 223 + 1) - 224) mod (2 * 224)) with 196 by reflexivity.
    cbn [snd]. rewrite !INR_IZR_INZ. simpl. lra.
Qed.

Example py_round_ties :
  Bank.py_round (5 # 2) = 2%Z /\ Bank.py_round (7 # 2) = 4%Z /\
  Bank.py_round (1568 # 10) = 157%Z /\ Bank.py_round (3920 # 10) = 392%Z.
Proof. repeat split; reflexivity. Qed.

Example subsample_ten :
  Bank.subsample [3; 1; 4; 0; 9; 2; 6; 5; 8; 7; 10; 11]
                 [0; 10; 20; 30; 40; 50; 60; 70; 80; 90; 100; 110]
  = Ok [30].
Proof. reflexivity. Qed.

Example roc_curve_drops_collinear :
  MetricSweep.roc_curve [true; false; true; true; false] [1; 2; 2; 3; 1]%Q
  = Ok [MetricSweep.PInf; MetricSweep.Fin 3; MetricSweep.Fin 1].
Proof. vm_compute. reflexivity. Qed.

Example f1_scores_of_sweep :
  map (MetricSweep.f1_at [true; false; false; true] [4; 3; 2; 1]%Q)
      [MetricSweep.PInf; MetricSweep.Fin 4; MetricSweep.Fin 2; MetricSweep.Fin 1]
  = [0 # 2; 2 # 3; 2 # 5; 4 # 6]%Q.
Proof. vm_compute. reflexivity. Qed.

(* ------------------------------------------------------------------ *)
(** ** Shapes through the extractor *)

Lemma zeros_shape (C H W : nat) : has_shape C H W (zeros C H W).
Proof.
  unfold zeros, has_shape, channel_shape. split; [apply repeat_length|].
  apply Forall_forall. intros ch Hch. apply repeat_spec in Hch. subst ch.
  split; [apply repeat_length|].
  apply Forall_forall. intros row Hrow. apply repeat_spec in Hrow. subst row.
  apply repeat_length.
Qed.

Lemma shape_H_of (C H W : nat) (f : fmap) :
  has_shape C H W f -> 1 <= C -> shape_H f = H.
Proof.
  intros [Hlen Hall] HC. destruct f as [|ch f]; simpl in *; [lia|].
  inversion Hall as [|? ? [Hh _] _]; subst. reflexivity.
Qed.

Lemma shape_W_of (C H W : nat) (f : fmap) :
  has_shape C H W f -> 1 <= C -> 1 <= H -> shape_W f = W.
Proof.
  intros [Hlen Hall] HC HH. destruct f as [|ch f]; simpl in *; [lia|].
  inversion Hall as [|? ? [Hh Hrows] _]; subst.
  unfold shape_W. simpl. destruct ch as [|row ch]; simpl in *; [lia|].
  inversion Hrows; subst. reflexivity.
Qed.

Lemma has_shape_app (C1 C2 H W : nat) (a b : fmap) :
  has_shape C1 H W a -> has_shape C2 H W b -> has_shape (C1 + C2) H W (a ++ b).
Proof.
  intros [Ha Fa] [Hb Fb]. split.
  - rewrite length_app. lia.
  - apply Forall_app. split; assumption.
Qed.

Lemma grid_shape {A : Type} (g : A -> nat -> nat -> R) (n m : nat) (f : list A) :
  has_shape (length f) n m
    (map (fun ch => map (fun i => map (fun j => g ch i j) (seq 0 m)) (seq 0 n)) f).
Proof.
  split; [apply length_map|].
  apply Forall_forall. intros ch Hch. apply in_map_iff in Hch.
  destruct Hch as [ch0 [<- _]]. split.
  - rewrite length_map, length_seq. reflexivity.
  - apply Forall_forall. intros row Hrow. apply in_map_iff in Hrow.
    destruct Hrow as [i [<- _]]. rewrite length_map, length_seq. reflexivity.
Qed.

(** The smoothing takes two cells off the height and off the width. *)
Lemma AvgPool2d_3_1_shape (C H W : nat) (f : fmap) :
  has_shape C H W f -> 1 <= C -> 3 <= H -> 3 <= W ->
  exists a, AvgPool2d 3 1 f = Ok a /\ has_shape C (H - 2) (W - 2) a.
Proof.
  intros Hs HC HH HW. unfold AvgPool2d.
  rewrite (shape_H_of Hs HC), (shape_W_of Hs HC) by lia.
  destruct (Nat.ltb_spec H 3) as [?|_]; [lia|].
  destruct (Nat.ltb_spec W 3) as [?|_]; [lia|].
  simpl orb. cbv iota. eexists. split; [reflexivity|].
  unfold pool_out. rewrite !Nat.div_1_r.
  replace (H - 3 + 1) with (H - 2) by lia.
  replace (W - 3 + 1) with (W - 2) by lia.
  destruct Hs as [<- _]. apply grid_shape.
Qed.

(** The resampling gives S x S whatever the input. *)
Lemma AdaptiveAvgPool2d_shape (S : nat) (f : fmap) :
  has_shape (length f) S S (AdaptiveAvgPool2d S f).
Proof. unfold AdaptiveAvgPool2d. apply grid_shape. Qed.

Lemma reshape_T_shape (C S : nat) (patch : fmap) :
  has_shape C S S patch -> 1 <= C ->
  length (reshape_T patch) = S * S /\
  Forall (fun v => length v = C) (reshape_T patch).
Proof.
  intros Hs HC. unfold reshape_T. split.
  - rewrite length_map, length_seq, (shape_H_of Hs HC).
    destruct S as [|S']; [reflexivity|].
    rewrite (shape_W_of Hs HC) by lia. reflexivity.
  - apply Forall_forall. intros v Hv. apply in_map_iff in Hv.
    destruct Hv as [p [<- _]]. rewrite length_map. apply Hs.
Qed.

Lemma features_of_forward (net : Extractor.resnet50) (input : fmap) :
  snd (Extractor.model_forward net input [])
  = [ Extractor.layer2 net (Extractor.layer1 net (Extractor.stem net input));
      Extractor.layer3 net
        (Extractor.layer2 net (Extractor.layer1 net (Extractor.stem net input))) ].
Proof. reflexivity. Qed.

(** The extractor on tapped maps of known shapes: both smoothed maps are
    resampled to the height of the first tapped map. *)
Lemma forward_ok (net : Extractor.resnet50) (input f2 f3 : fmap)
      (C2 H2 W2 C3 H3 W3 : nat) :
  f2 = Extractor.layer2 net (Extractor.layer1 net (Extractor.stem net input)) ->
  f3 = Extractor.layer3 net f2 ->
  has_shape C2 H2 W2 f2 -> has_shape C3 H3 W3 f3 ->
  1 <= C2 -> 1 <= C3 -> 3 <= H2 -> 3 <= W2 -> 3 <= H3 -> 3 <= W3 ->
  exists a2 a3,
    Extractor.avg f2 = Ok a2 /\ Extractor.avg f3 = Ok a3 /\
    has_shape C2 (H2 - 2) (W2 - 2) a2 /\ has_shape C3 (H3 - 2) (W3 - 2) a3 /\
    Extractor.forward net input
    = Ok (reshape_T (AdaptiveAvgPool2d H2 a2 ++ AdaptiveAvgPool2d H2 a3)).
Proof.
  intros E2 E3 S2 S3 HC2 HC3 HH2 HW2 HH3 HW3.
  destruct (AvgPool2d_3_1_shape S2 HC2 HH2 HW2) as [a2 [Ea2 Sa2]].
  destruct (AvgPool2d_3_1_shape S3 HC3 HH3 HW3) as [a3 [Ea3 Sa3]].
  exists a2, a3.
  split; [exact Ea2|]. split; [exact Ea3|]. split; [exact Sa2|]. split; [exact Sa3|].
  unfold Extractor.forward. rewrite features_of_forward.
  rewrite <- E2. rewrite <- E3.
  change (nth 0 [f2; f3] []) with f2.
  rewrite (shape_H_of S2 HC2).
  unfold mapM, Extractor.avg. rewrite Ea2, Ea3. simpl bind.
  unfold cat_channels. simpl concat. rewrite app_nil_r. reflexivity.
Qed.

Lemma forward_grid (net : Extractor.resnet50) (input f2 f3 : fmap)
      (C2 H2 W2 C3 H3 W3 : nat) :
  f2 = Extractor.layer2 net (Extractor.layer1 net (Extractor.stem net input)) ->
  f3 = Extractor.layer3 net f2 ->
  has_shape C2 H2 W2 f2 -> has_shape C3 H3 W3 f3 ->
  1 <= C2 -> 1 <= C3 -> 3 <= H2 -> 3 <= W2 -> 3 <= H3 -> 3 <= W3 ->
  exists patch,
    Extractor.forward net input = Ok patch /\
    length patch = H2 * H2 /\
    Forall (fun v => length v = C2 + C3) patch.
Proof.
  intros E2 E3 S2 S3 HC2 HC3 HH2 HW2 HH3 HW3.
  destruct (forward_ok net input E2 E3 S2 S3 HC2 HC3 HH2 HW2 HH3 HW3)
    as [a2 [a3 [_ [_ [Sa2 [Sa3 Ef]]]]]].
  eexists. split; [exact Ef|].
  apply reshape_T_shape; [|lia].
  apply has_shape_app.
  - destruct Sa2 as [<- _]. apply AdaptiveAvgPool2d_shape.
  - destruct Sa3 as [<- _]. apply AdaptiveAvgPool2d_shape.
Qed.

Lemma nth_map_seq {A : Type} (f : nat -> A) (d : A) (n p : nat) :
  p < n -> nth p (map f (seq 0 n)) d = f p.
Proof.
  intros Hp. rewrite (nth_indep _ d (f 0)) by (rewrite length_map, length_seq; exact Hp).
  rewrite map_nth, seq_nth by exact Hp. reflexivity.
Qed.

Lemma firstn_length_app {A : Type} (n : nat) (l1 l2 : list A) :
  length l1 = n -> firstn n (l1 ++ l2) = l1.
Proof.
  intros <-. induction l1 as [|a l1 IH]; simpl; [reflexivity|now rewrite IH].
Qed.

Lemma skipn_length_app {A : Type} (n : nat) (l1 l2 : list A) :
  length l1 = n -> skipn n (l1 ++ l2) = l2.
Proof.
  intros <-. induction l1 as [|a l1 IH]; simpl; [reflexivity|exact IH].
Qed.

Lemma const_net_shapes : Extractor.resnet50_shapes Extractor.const_net.
Proof. intros x _. split; apply zeros_shape. Qed.

Lemma view_ok_iff (dist_score : list R) :
  (exists m, Scorer.view_1_1_28_28 dist_score = Ok m) <-> length dist_score = 28 * 28.
Proof.
  unfold Scorer.view_1_1_28_28.
  destruct (Nat.eqb_spec (length dist_score) (28 * 28)) as [E|NE]; split.
  - intros _. exact E.
  - intros _. eexists. reflexivity.
  - intros [m Hm]. discriminate Hm.
  - intros E. contradiction.
Qed.

(* ------------------------------------------------------------------ *)
(** ** The extractor: smoothing, resampling, grid *)

(** C5 (as the code has it): [AvgPool2d(3, stride=1)] has no padding, so
    the smoothing of a captured map of height H and width W (both at least
    3) gives a map of height H - 2 and width W - 2 with the same channels;
    the resampling that follows gives S x S for the S it is built with. *)
Theorem smoothing_shrinks_by_two (C H W : nat) (f : fmap) :
  has_shape C H W f -> 1 <= C -> 3 <= H -> 3 <= W ->
  exists a,
    Extractor.avg f = Ok a /\
    has_shape C (H - 2) (W - 2) a /\
    forall S, has_shape C S S (AdaptiveAvgPool2d S a).
Proof.
  intros Hs HC HH HW.
  destruct (AvgPool2d_3_1_shape Hs HC HH HW) as [a [Ea Sa]].
  exists a. split; [exact Ea|]. split; [exact Sa|].
  intros S. destruct Sa as [<- _]. apply AdaptiveAvgPool2d_shape.
Qed.

Lemma smoothing_shrinks_by_two_witness :
  exists a,
    Extractor.avg (zeros 512 28 28) = Ok a /\
    has_shape 512 26 26 a /\
    forall S, has_shape 512 S S (AdaptiveAvgPool2d S a).
Proof.
  apply (@smoothing_shrinks_by_two 512 28 28 (zeros 512 28 28)).
  - apply zeros_shape.
  - lia.
  - lia.
  - lia.
Defined.

(** C5 fails as stated: the smoothed 28 x 28 map of layer2 is 26 x 26. *)
Lemma smoothing_changes_resolution :
  exists a,
    Extractor.avg (zeros 512 28 28) = Ok a /\
    shape_H (zeros 512 28 28) = 28 /\ shape_W (zeros 512 28 28) = 28 /\
    shape_H a = 26 /\ shape_W a = 26 /\
    shape_H a <> shape_H (zeros 512 28 28).
Proof.
  assert (H28 : has_shape 512 28 28 (zeros 512 28 28)) by apply zeros_shape.
  destruct (@AvgPool2d_3_1_shape 512 28 28 _ H28) as [a [Ea Sa]]; try lia.
  exists a. split; [exact Ea|].
  assert (Ha : shape_H a = 26) by (apply (shape_H_of Sa); lia).
  assert (Wa : shape_W a = 26) by (apply (shape_W_of Sa); lia).
  assert (H0 : shape_H (zeros 512 28 28) = 28) by (apply (shape_H_of H28); lia).
  assert (W0 : shape_W (zeros 512 28 28) = 28) by (apply (shape_W_of H28); lia).
  repeat split; try assumption. rewrite Ha, H0. lia.
Qed.

(** C2 (as the code has it): [fmap_size] is read from [self.features[0]],
    the map of the tap that fires first (layer2, the earlier and finer
    stage), so both smoothed maps are resampled to that map's height H2 and
    the grid has H2 * H2 cells, whatever the resolution of the later map. *)
Theorem resample_to_first_tap (net : Extractor.resnet50) (input : fmap)
        (C2 H2 W2 C3 H3 W3 : nat) :
  has_shape C2 H2 W2 (nth 0 (Extractor.features_of net input) []) ->
  has_shape C3 H3 W3 (nth 1 (Extractor.features_of net input) []) ->
  1 <= C2 -> 1 <= C3 -> 3 <= H2 -> 3 <= W2 -> 3 <= H3 -> 3 <= W3 ->
  exists a2 a3 patch,
    Extractor.avg (nth 0 (Extractor.features_of net input) []) = Ok a2 /\
    Extractor.avg (nth 1 (Extractor.features_of net input) []) = Ok a3 /\
    shape_H (nth 0 (Extractor.features_of net input) []) = H2 /\
    has_shape C2 H2 H2 (AdaptiveAvgPool2d H2 a2) /\
    has_shape C3 H2 H2 (AdaptiveAvgPool2d H2 a3) /\
    Extractor.forward net input = Ok patch /\
    patch = reshape_T (AdaptiveAvgPool2d H2 a2 ++ AdaptiveAvgPool2d H2 a3) /\
    length patch = H2 * H2.
Proof.
  unfold Extractor.features_of. rewrite features_of_forward.
  cbn [nth]. intros S2 S3 HC2 HC3 HH2 HW2 HH3 HW3.
  destruct (forward_ok net input eq_refl eq_refl S2 S3 HC2 HC3 HH2 HW2 HH3 HW3)
    as [a2 [a3 [Ea2 [Ea3 [Sa2 [Sa3 Ef]]]]]].
  assert (R2 : has_shape C2 H2 H2 (AdaptiveAvgPool2d H2 a2))
    by (destruct Sa2 as [<- _]; apply AdaptiveAvgPool2d_shape).
  assert (R3 : has_shape C3 H2 H2 (AdaptiveAvgPool2d H2 a3))
    by (destruct Sa3 as [<- _]; apply AdaptiveAvgPool2d_shape).
  exists a2, a3. eexists.
  split; [exact Ea2|]. split; [exact Ea3|].
  split; [apply (shape_H_of S2 HC2)|].
  split; [exact R2|]. split; [exact R3|].
  split; [exact Ef|]. split; [reflexivity|].
  apply (@reshape_T_shape (C2 + C3)); [apply has_shape_app; assumption|lia].
Qed.

Lemma resample_to_first_tap_witness :
  exists a2 a3 patch,
    Extractor.avg (zeros 512 28 28) = Ok a2 /\
    Extractor.avg (zeros 1024 14 14) = Ok a3 /\
    shape_H (zeros 512 28 28) = 28 /\
    has_shape 512 28 28 (AdaptiveAvgPool2d 28 a2) /\
    has_shape 1024 28 28 (AdaptiveAvgPool2d 28 a3) /\
    Extractor.forward Extractor.const_net (zeros 3 224 224) = Ok patch /\
    patch = reshape_T (AdaptiveAvgPool2d 28 a2 ++ AdaptiveAvgPool2d 28 a3) /\
    length patch = 28 * 28.
Proof.
  apply (@resample_to_first_tap Extractor.const_net (zeros 3 224 224)
           512 28 28 1024 14 14).
  - apply zeros_shape.
  - apply zeros_shape.
  - lia.
  - lia.
  - lia.
  - lia.
  - lia.
  - lia.
Defined.

(** C2 fails as stated: with the stage shapes of ResNet-50 the later,
    coarser map is 14 x 14 and the grid has 28 * 28 cells, not 14 * 14. *)
Lemma grid_is_not_the_coarser_resolution :
  exists patch,
    Extractor.forward Extractor.const_net (zeros 3 224 224) = Ok patch /\
    shape_H (nth 0 (Extractor.features_of Extractor.const_net (zeros 3 224 224)) []) = 28 /\
    shape_H (nth 1 (Extractor.features_of Extractor.const_net (zeros 3 224 224)) []) = 14 /\
    length patch = 28 * 28 /\
    length patch <> 14 * 14.
Proof.
  destruct (@forward_grid Extractor.const_net (zeros 3 224 224)
              (zeros 512 28 28) (zeros 1024 14 14) 512 28 28 1024 14 14)
    as [patch [Ef [Hlen _]]];
    try reflexivity; try apply zeros_shape; try lia.
  exists patch. split; [exact Ef|].
  split; [apply (@shape_H_of 512 28 28); [apply zeros_shape|lia]|].
  split; [apply (@shape_H_of 1024 14 14); [apply zeros_shape|lia]|].
  split; [exact Hlen|]. rewrite Hlen. lia.
Qed.

(** C10: on a 3 x 224 x 224 image, with the stage shapes of ResNet-50, the
    extractor returns 784 = 28 * 28 patch vectors of 1536 components; the
    first 512 components of the vector of cell p are the resampled layer2
    channels at p and the other 1024 the resampled layer3 channels at p,
    layer2 first because its tap fires first; and the view to 1 x 1 x 28 x
    28 accepts a sequence exactly when it has as many entries as the grid
    has rows. *)
Theorem extractor_grid_784_by_1536 (net : Extractor.resnet50) (x : fmap) :
  Extractor.resnet50_shapes net -> has_shape 3 224 224 x ->
  exists f2 f3 a2 a3 patch,
    Extractor.features_of net x = [f2; f3] /\
    has_shape 512 28 28 f2 /\ has_shape 1024 14 14 f3 /\
    Extractor.avg f2 = Ok a2 /\ Extractor.avg f3 = Ok a3 /\
    Extractor.forward net x = Ok patch /\
    length patch = 784 /\
    Forall (fun v => length v = 1536) patch /\
    (forall p, p < 784 ->
       firstn 512 (nth p patch [])
       = map (fun ch => nth p (concat ch) 0%R) (AdaptiveAvgPool2d 28 a2) /\
       skipn 512 (nth p patch [])
       = map (fun ch => nth p (concat ch) 0%R) (AdaptiveAvgPool2d 28 a3)) /\
    (forall dist_score,
       (exists m, Scorer.view_1_1_28_28 dist_score = Ok m)
       <-> length dist_score = length patch).
Proof.
  intros Hnet Hx. destruct (Hnet x Hx) as [S2 S3].
  destruct (forward_ok net x eq_refl eq_refl S2 S3) as
    [a2 [a3 [Ea2 [Ea3 [Sa2 [Sa3 Ef]]]]]]; try lia.
  assert (R2 : has_shape 512 28 28 (AdaptiveAvgPool2d 28 a2))
    by (destruct Sa2 as [<- _]; apply AdaptiveAvgPool2d_shape).
  assert (R3 : has_shape 1024 28 28 (AdaptiveAvgPool2d 28 a3))
    by (destruct Sa3 as [<- _]; apply AdaptiveAvgPool2d_shape).
  assert (RS : has_shape (512 + 1024) 28 28
                 (AdaptiveAvgPool2d 28 a2 ++ AdaptiveAvgPool2d 28 a3))
    by (apply has_shape_app; assumption).
  destruct (@reshape_T_shape (512 + 1024) 28 _ RS) as [Hlen Hdim]; [lia|].
  do 4 eexists. eexists.
  split; [unfold Extractor.features_of; apply features_of_forward|].
  split; [exact S2|]. split; [exact S3|].
  split; [exact Ea2|]. split; [exact Ea3|].
  split; [exact Ef|].
  split; [exact Hlen|]. split; [exact Hdim|]. split.
  - intros p Hp. unfold reshape_T.
    rewrite (shape_H_of RS) by lia. rewrite (shape_W_of RS) by lia.
    rewrite (@nth_map_seq _ _ [] (28 * 28) p) by exact Hp.
    rewrite map_app.
    assert (L : length (map (fun ch : channel => nth p (concat ch) 0%R)
                            (AdaptiveAvgPool2d 28 a2)) = 512)
      by (rewrite length_map; apply R2).
    split; [apply (@firstn_length_app _ _ _ _ L)|apply (@skipn_length_app _ _ _ _ L)].
  - intros dist_score. rewrite Hlen. apply view_ok_iff.
Qed.

Lemma extractor_grid_784_by_1536_witness :
  exists f2 f3 a2 a3 patch,
    Extractor.features_of Extractor.const_net (zeros 3 224 224) = [f2; f3] /\
    has_shape 512 28 28 f2 /\ has_shape 1024 14 14 f3 /\
    Extractor.avg f2 = Ok a2 /\ Extractor.avg f3 = Ok a3 /\
    Extractor.forward Extractor.const_net (zeros 3 224 224) = Ok patch /\
    length patch = 784 /\
    Forall (fun v => length v = 1536) patch /\
    (forall p, p < 784 ->
       firstn 512 (nth p patch [])
       = map (fun ch => nth p (concat ch) 0%R) (AdaptiveAvgPool2d 28 a2) /\
       skipn 512 (nth p patch [])
       = map (fun ch => nth p (concat ch) 0%R) (AdaptiveAvgPool2d 28 a3)) /\
    (forall dist_score,
       (exists m, Scorer.view_1_1_28_28 dist_score = Ok m)
       <-> length dist_score = length patch).
Proof.
  apply (@extractor_grid_784_by_1536 Extractor.const_net (zeros 3 224 224)).
  - exact const_net_shapes.
  - apply zeros_shape.
Defined.

(* ------------------------------------------------------------------ *)
(** ** The scorer *)

Lemma fold_left_Rmin_is_minimum (vs : list R) (v : R) :
  Scorer.is_minimum (fold_left Rmin vs v) (v :: vs).
Proof.
  revert v. induction vs as [|w vs IH]; intros v.
  - simpl. split; [now left|]. intros x [<-|[]]. apply Rle_refl.
  - simpl fold_left. destruct (IH (Rmin v w)) as [Hin Hle]. split.
    + destruct Hin as [E|Hin].
      * rewrite <- E. destruct (Rle_dec v w) as [L|NL].
        -- rewrite Rmin_left by exact L. now left.
        -- rewrite Rmin_right by lra. right. now left.
      * right. now right.
    + intros x [<-|[<-|Hx]].
      * eapply Rle_trans; [apply Hle; now left|apply Rmin_l].
      * eapply Rle_trans; [apply Hle; now left|apply Rmin_r].
      * apply Hle. now right.
Qed.

Lemma fold_left_Rmax_is_maximum (vs : list R) (v : R) :
  Scorer.is_maximum (fold_left Rmax vs v) (v :: vs).
Proof.
  revert v. induction vs as [|w vs IH]; intros v.
  - simpl. split; [now left|]. intros x [<-|[]]. apply Rle_refl.
  - simpl fold_left. destruct (IH (Rmax v w)) as [Hin Hle]. split.
    + destruct Hin as [E|Hin].
      * rewrite <- E. destruct (Rle_dec v w) as [L|NL].
        -- rewrite Rmax_right by exact L. right. now left.
        -- rewrite Rmax_left by lra. now left.
      * right. now right.
    + intros x [<-|[<-|Hx]].
      * eapply Rle_trans; [apply Rmax_l|apply Hle; now left].
      * eapply Rle_trans; [apply Rmax_r|apply Hle; now left].
      * apply Hle. now right.
Qed.

Lemma l2_nonneg (a b : list R) : (0 <= Scorer.l2 a b)%R.
Proof. unfold Scorer.l2. apply sqrt_pos. Qed.

Lemma cdist_ok (d : nat) (x1 x2 : matrix) :
  length (hd [] x1) = d -> Forall (fun v => length v = d) x2 ->
  Scorer.cdist x1 x2 = Ok (map (fun a => map (fun b => Scorer.l2 a b) x2) x1).
Proof.
  intros Hd Hall. unfold Scorer.cdist. rewrite Hd.
  replace (forallb (fun v : list R => length v =? d) x2) with true; [reflexivity|].
  symmetry. apply forallb_forall. intros v Hv.
  rewrite Forall_forall in Hall. apply Nat.eqb_eq. apply Hall. exact Hv.
Qed.

Lemma view_row_major (dist_score : list R) :
  length dist_score = 28 * 28 ->
  Scorer.view_1_1_28_28 dist_score = Ok (Scorer.row_major 28 dist_score).
Proof.
  intros Hlen. unfold Scorer.view_1_1_28_28. rewrite Hlen, Nat.eqb_refl. reflexivity.
Qed.

Lemma row_major_shape (S : nat) (l : list R) : channel_shape S S (Scorer.row_major S l).
Proof.
  unfold Scorer.row_major. split.
  - rewrite length_map, length_seq. reflexivity.
  - apply Forall_forall. intros row Hrow. apply in_map_iff in Hrow.
    destruct Hrow as [r [<- _]]. rewrite length_map, length_seq. reflexivity.
Qed.

Lemma concat_row_major (S : nat) (l : list R) :
  length l = S * S -> concat (Scorer.row_major S l) = l.
Proof.
  intros Hlen. unfold Scorer.row_major.
  rewrite (concat_rows (fun i => nth i l 0%R) S S), <- Hlen. apply map_nth_seq.
Qed.

Lemma interpolate_shape (oh ow : nat) (x : channel) :
  channel_shape oh ow (Scorer.interpolate_bilinear oh ow x).
Proof.
  unfold Scorer.interpolate_bilinear. split.
  - rewrite length_map, length_seq. reflexivity.
  - apply Forall_forall. intros row Hrow. apply in_map_iff in Hrow.
    destruct Hrow as [r [<- _]]. rewrite length_map, length_seq. reflexivity.
Qed.

(** The scoring lines on a grid of 784 rows and a bank with at least one
    row, all rows of the same length. *)
Lemma score_grid_spec (d : nat) (features memory_bank : matrix) :
  length features = 28 * 28 ->
  Forall (fun v => length v = d) features ->
  memory_bank <> [] ->
  Forall (fun v => length v = d) memory_bank ->
  exists dist_score s_star,
    length dist_score = 28 * 28 /\
    (forall i, i < 28 * 28 ->
       Scorer.is_minimum (nth i dist_score 0%R)
         (map (fun b => Scorer.l2 (nth i features []) b) memory_bank)) /\
    Scorer.is_maximum s_star dist_score /\
    Scorer.torch_max dist_score = Ok s_star /\
    Scorer.score_grid features memory_bank
    = Ok (s_star, Scorer.row_major 28 dist_score).
Proof.
  intros Hlen Hdim Hne Hbank.
  destruct memory_bank as [|b0 bs]; [contradiction|].
  destruct features as [|f0 fs] eqn:Ef; [discriminate Hlen|]. rewrite <- Ef in *.
  assert (Hhd : length (hd [] features) = d)
    by (rewrite Ef; simpl; rewrite Ef in Hdim; now inversion Hdim).
  set (near := fun a : list R =>
         fold_left Rmin (map (fun b => Scorer.l2 a b) bs) (Scorer.l2 a b0)).
  assert (Hmin : Scorer.torch_min_dim1
                   (map (fun a => map (fun b => Scorer.l2 a b) (b0 :: bs)) features)
                 = Ok (map near features)).
  { unfold Scorer.torch_min_dim1.
    rewrite (mapM_total Scorer.min_row
               (fun row => fold_left Rmin (tl row) (hd 0%R row))).
    - rewrite map_map. reflexivity.
    - intros row Hrow. apply in_map_iff in Hrow. destruct Hrow as [a [<- _]].
      reflexivity. }
  assert (Hl : length (map near features) = 28 * 28) by (rewrite length_map; exact Hlen).
  exists (map near features).
  exists (fold_left Rmax (tl (map near features)) (hd 0%R (map near features))).
  split; [exact Hl|]. split; [|split; [|split]].
  - intros i Hi.
    rewrite (nth_indep _ 0%R (near [])) by (rewrite Hl; exact Hi).
    rewrite (map_nth near). unfold near.
    apply (fold_left_Rmin_is_minimum
             (map (fun b => Scorer.l2 (nth i features []) b) bs)
             (Scorer.l2 (nth i features []) b0)).
  - rewrite Ef. simpl map. simpl tl. simpl hd. apply fold_left_Rmax_is_maximum.
  - rewrite Ef. reflexivity.
  - unfold Scorer.score_grid.
    rewrite (cdist_ok features Hhd Hbank), bind_ok.
    rewrite Hmin, bind_ok.
    rewrite view_row_major by exact Hl.
    rewrite Ef. reflexivity.
Qed.

Section ScoreOnResNet.

(** The backbone has the stage shapes of ResNet-50 and the image is
    3 x 224 x 224. *)
Variable net : Extractor.resnet50.
Variable x : fmap.
Hypothesis Hnet : Extractor.resnet50_shapes net.
Hypothesis Hx : has_shape 3 224 224 x.

Lemma forward_784 :
  exists features,
    Extractor.forward net x = Ok features /\
    length features = 28 * 28 /\
    Forall (fun v => length v = 1536) features.
Proof.
  destruct (Hnet Hx) as [S2 S3].
  destruct (forward_grid net x eq_refl eq_refl S2 S3) as [patch [Ef [Hlen Hdim]]];
    try lia.
  exists patch. split; [exact Ef|]. split; [exact Hlen|exact Hdim].
Qed.

(** C1: for a 3 x 224 x 224 image and a bank with at least one vector (of
    the 1536 components of a patch vector), [score] returns a score and a
    map; the score is the greatest element of the sequence of 784 nearest
    distances, entry i of that sequence is the least Euclidean distance from
    patch vector i to a bank vector, and the map is that sequence folded row
    by row into 28 x 28 and upsampled bilinearly to 224 x 224, the
    resolution of the image. *)
Theorem score_is_worst_nearest_distance (memory_bank : matrix) :
  memory_bank <> [] -> Forall (fun v => length v = 1536) memory_bank ->
  exists features dist_score s_star segm_map,
    Extractor.forward net x = Ok features /\
    length features = 28 * 28 /\
    length dist_score = 28 * 28 /\
    (forall i, i < 28 * 28 ->
       Scorer.is_minimum (nth i dist_score 0%R)
         (map (fun b => Scorer.l2 (nth i features []) b) memory_bank)) /\
    Scorer.is_maximum s_star dist_score /\
    Scorer.score net x memory_bank = Ok (s_star, segm_map) /\
    segm_map = Scorer.interpolate_bilinear 224 224 (Scorer.row_major 28 dist_score) /\
    channel_shape 224 224 segm_map.
Proof.
  intros Hne Hbank.
  destruct forward_784 as [features [Ef [Hlen Hdim]]].
  destruct (score_grid_spec Hlen Hdim Hne Hbank)
    as [dist_score [s_star [Hl [Hmin [Hmax [_ Hs]]]]]].
  exists features, dist_score, s_star.
  exists (Scorer.interpolate_bilinear 224 224 (Scorer.row_major 28 dist_score)).
  split; [exact Ef|]. split; [exact Hlen|]. split; [exact Hl|].
  split; [exact Hmin|]. split; [exact Hmax|]. split.
  - unfold Scorer.score. rewrite Ef, bind_ok, Hs, bind_ok. reflexivity.
  - split; [reflexivity|apply interpolate_shape].
Qed.

(** C6: under the same conditions the score is not negative, and the
    greatest entry of the 28 x 28 map, before the upsampling, is the
    score. *)
Theorem score_nonneg_and_max_of_map (memory_bank : matrix) :
  memory_bank <> [] -> Forall (fun v => length v = 1536) memory_bank ->
  exists features s_star segm_map,
    Extractor.forward net x = Ok features /\
    Scorer.score_grid features memory_bank = Ok (s_star, segm_map) /\
    channel_shape 28 28 segm_map /\
    Scorer.score net x memory_bank
    = Ok (s_star, Scorer.interpolate_bilinear 224 224 segm_map) /\
    (0 <= s_star)%R /\
    Scorer.channel_max segm_map = Ok s_star /\
    Scorer.is_maximum s_star (concat segm_map).
Proof.
  intros Hne Hbank.
  destruct forward_784 as [features [Ef [Hlen Hdim]]].
  destruct (score_grid_spec Hlen Hdim Hne Hbank)
    as [dist_score [s_star [Hl [Hmin [Hmax [Htm Hs]]]]]].
  exists features, s_star, (Scorer.row_major 28 dist_score).
  split; [exact Ef|]. split; [exact Hs|]. split; [apply row_major_shape|].
  split; [unfold Scorer.score; rewrite Ef, bind_ok, Hs, bind_ok; reflexivity|].
  assert (Hcat : concat (Scorer.row_major 28 dist_score) = dist_score)
    by (apply concat_row_major; exact Hl).
  split; [|split].
  - destruct Hmax as [Hin _].
    destruct (In_nth _ _ 0%R Hin) as [i [Hi Hnth]].
    rewrite Hl in Hi. destruct (Hmin i Hi) as [Hd _].
    rewrite Hnth in Hd. apply in_map_iff in Hd. destruct Hd as [b [<- _]].
    apply l2_nonneg.
  - unfold Scorer.channel_max. rewrite Hcat. exact Htm.
  - rewrite Hcat. exact Hmax.
Qed.

(** C7: with a bank of no vectors [score] stops with the error of
    [torch.min] over a dimension of size zero and returns neither score nor
    map. *)
Theorem empty_bank_fails :
  Scorer.score net x [] = Err IndexError /\
  forall s_star segm_map, Scorer.score net x [] <> Ok (s_star, segm_map).
Proof.
  destruct forward_784 as [features [Ef [Hlen _]]].
  assert (E : Scorer.score net x [] = Err IndexError).
  { unfold Scorer.score. rewrite Ef, bind_ok.
    destruct features as [|f0 fs]; [discriminate Hlen|].
    reflexivity. }
  split; [exact E|]. intros s m. rewrite E. discriminate.
Qed.

End ScoreOnResNet.

Lemma score_is_worst_nearest_distance_witness :
  exists features dist_score s_star segm_map,
    Extractor.forward Extractor.const_net (zeros 3 224 224) = Ok features /\
    length features = 28 * 28 /\
    length dist_score = 28 * 28 /\
    (forall i, i < 28 * 28 ->
       Scorer.is_minimum (nth i dist_score 0%R)
         (map (fun b => Scorer.l2 (nth i features []) b) [repeat 0%R 1536])) /\
    Scorer.is_maximum s_star dist_score /\
    Scorer.score Extractor.const_net (zeros 3 224 224) [repeat 0%R 1536]
    = Ok (s_star, segm_map) /\
    segm_map = Scorer.interpolate_bilinear 224 224 (Scorer.row_major 28 dist_score) /\
    channel_shape 224 224 segm_map.
Proof.
  apply (@score_is_worst_nearest_distance Extractor.const_net (zeros 3 224 224)).
  - exact const_net_shapes.
  - apply zeros_shape.
  - discriminate.
  - constructor; [apply repeat_length|constructor].
Defined.

Lemma score_nonneg_and_max_of_map_witness :
  exists features s_star segm_map,
    Extractor.forward Extractor.const_net (zeros 3 224 224) = Ok features /\
    Scorer.score_grid features [repeat 0%R 1536] = Ok (s_star, segm_map) /\
    channel_shape 28 28 segm_map /\
    Scorer.score Extractor.const_net (zeros 3 224 224) [repeat 0%R 1536]
    = Ok (s_star, Scorer.interpolate_bilinear 224 224 segm_map) /\
    (0 <= s_star)%R /\
    Scorer.channel_max segm_map = Ok s_star /\
    Scorer.is_maximum s_star (concat segm_map).
Proof.
  apply (@score_nonneg_and_max_of_map Extractor.const_net (zeros 3 224 224)).
  - exact const_net_shapes.
  - apply zeros_shape.
  - discriminate.
  - constructor; [apply repeat_length|constructor].
Defined.

Lemma empty_bank_fails_witness :
  Scorer.score Extractor.const_net (zeros 3 224 224) [] = Err IndexError /\
  forall s_star segm_map,
    Scorer.score Extractor.const_net (zeros 3 224 224) [] <> Ok (s_star, segm_map).
Proof.
  apply (@empty_bank_fails Extractor.const_net (zeros 3 224 224)).
  - exact const_net_shapes.
  - apply zeros_shape.
Defined.

(* ------------------------------------------------------------------ *)
(** ** The memory bank *)

Lemma mapM_forall {A B : Type} (f : A -> result B) (P : B -> Prop) (l : list A) :
  (forall a, In a l -> exists b, f a = Ok b /\ P b) ->
  exists bs, mapM f l = Ok bs /\ Forall P bs /\ length bs = length l.
Proof.
  induction l as [|a l IH]; intros Hf.
  - exists []. repeat split. constructor.
  - destruct (Hf a (or_introl eq_refl)) as [b [Eb Pb]].
    destruct IH as [bs [Ebs [Pbs Hlen]]]; [intros; apply Hf; now right|].
    exists (b :: bs). simpl. rewrite Eb, bind_ok, Ebs, bind_ok.
    repeat split; [constructor; assumption|lia].
Qed.

Lemma concat_length_const {A : Type} (n : nat) (ls : list (list A)) :
  Forall (fun l => length l = n) ls -> length (concat ls) = n * length ls.
Proof.
  induction 1 as [|l ls Hl _ IH]; simpl; [lia|].
  rewrite length_app, IH, Hl. lia.
Qed.

Lemma in_firstn {A : Type} (n : nat) (l : list A) (x : A) :
  In x (firstn n l) -> In x l.
Proof.
  intros Hx. rewrite <- (firstn_skipn n l). apply in_or_app. now left.
Qed.

Lemma index_rows_total {A : Type} (d : A) (memory_bank : list A) (idxs : list nat) :
  (forall i, In i idxs -> i < length memory_bank) ->
  Bank.index_rows memory_bank idxs = Ok (map (fun i => nth i memory_bank d) idxs).
Proof.
  intros Hin. unfold Bank.index_rows. apply mapM_total.
  intros i Hi. destruct (nth_error memory_bank i) as [v|] eqn:E.
  - rewrite (nth_error_nth _ _ d E). reflexivity.
  - apply nth_error_None in E. specialize (Hin i Hi). lia.
Qed.

(** The subsampling step for a shuffled index sequence: a tenth of the
    rows, rounded down, taken at distinct positions. *)
Lemma subsample_spec {A : Type} (d : A) (perm : list nat) (memory_bank : list A) :
  Permutation perm (seq 0 (length memory_bank)) ->
  exists bank rest,
    Bank.subsample perm memory_bank = Ok bank /\
    length bank = length memory_bank / 10 /\
    (forall v, In v bank -> In v memory_bank) /\
    Permutation (bank ++ rest) memory_bank.
Proof.
  intros Hperm. set (n := length memory_bank) in *.
  assert (Hpl : length perm = n)
    by (rewrite (Permutation_length Hperm), length_seq; reflexivity).
  assert (Hlt : forall i, In i perm -> i < n).
  { intros i Hi. apply (Permutation_in _ Hperm) in Hi. apply in_seq in Hi. lia. }
  assert (Hk : n / 10 <= n) by (apply Nat.Div0.div_le_upper_bound; lia).
  exists (map (fun i => nth i memory_bank d) (firstn (n / 10) perm)).
  exists (map (fun i => nth i memory_bank d) (skipn (n / 10) perm)).
  split; [|split; [|split]].
  - unfold Bank.subsample, Bank.np_random_choice. fold n.
    destruct (Nat.ltb_spec n (n / 10)) as [?|_]; [lia|].
    rewrite bind_ok. apply index_rows_total.
    intros i Hi. apply Hlt. eapply in_firstn. exact Hi.
  - rewrite length_map, length_firstn, Hpl. lia.
  - intros v Hv. apply in_map_iff in Hv. destruct Hv as [i [<- Hi]].
    apply nth_In. apply Hlt. eapply in_firstn. exact Hi.
  - rewrite <- map_app, firstn_skipn.
    apply (@Permutation_trans _ _ (map (fun i => nth i memory_bank d) (seq 0 n))).
    + apply Permutation_map. exact Hperm.
    + unfold n. rewrite map_nth_seq. apply Permutation_refl.
Qed.

Lemma pool_spec (net : Extractor.resnet50) (images : list fmap) :
  Extractor.resnet50_shapes net -> images <> [] ->
  Forall (has_shape 3 224 224) images ->
  exists pooled,
    Bank.pool net images = Ok pooled /\ length pooled = 784 * length images.
Proof.
  intros Hnet Hne Himg.
  destruct (@mapM_forall _ _ (Extractor.forward net)
              (fun m => length m = 784) images) as [feats [Ef [Hall Hlen]]].
  - intros x Hx. rewrite Forall_forall in Himg.
    destruct (forward_784 Hnet (Himg x Hx)) as [features [E [L _]]].
    exists features. split; [exact E|exact L].
  - exists (concat feats). split.
    + unfold Bank.pool. rewrite Ef, bind_ok.
      destruct feats as [|m ms]; [|reflexivity].
      destruct images; [contradiction|discriminate Hlen].
    + rewrite (concat_length_const Hall). f_equal. exact Hlen.
Qed.

(** The bank is the pooled rows at the first tenth of the shuffle. *)
Lemma subsample_rows {A : Type} (d : A) (perm : list nat) (memory_bank : list A) :
  Permutation perm (seq 0 (length memory_bank)) ->
  Bank.np_random_choice perm (length memory_bank) (length memory_bank / 10)
  = Ok (firstn (length memory_bank / 10) perm) /\
  Bank.subsample perm memory_bank
  = Ok (map (fun i => nth i memory_bank d) (firstn (length memory_bank / 10) perm)).
Proof.
  intros Hperm. set (n := length memory_bank) in *.
  assert (Hlt : forall i, In i perm -> i < n).
  { intros i Hi. apply (Permutation_in _ Hperm) in Hi. apply in_seq in Hi. lia. }
  assert (Hk : n / 10 <= n) by (apply Nat.Div0.div_le_upper_bound; lia).
  assert (Ec : Bank.np_random_choice perm n (n / 10) = Ok (firstn (n / 10) perm)).
  { unfold Bank.np_random_choice.
    destruct (Nat.ltb_spec n (n / 10)) as [?|_]; [lia|reflexivity]. }
  split; [exact Ec|]. unfold Bank.subsample. fold n. rewrite Ec, bind_ok.
  apply index_rows_total. intros i Hi. apply Hlt. eapply in_firstn. exact Hi.
Qed.

(** ** Drawing without replacement: selections and shuffles *)

Lemma index_of_nth (x : nat) (l : list nat) :
  In x l -> Bank.index_of x l < length l /\ nth (Bank.index_of x l) l 0 = x.
Proof.
  induction l as [|y l IH]; intros Hin; [destruct Hin|].
  simpl. destruct (Nat.eqb_spec x y) as [->|Hne].
  - split; [lia|reflexivity].
  - destruct Hin as [E|Hin]; [congruence|].
    destruct (IH Hin) as [H1 H2]. split; [lia|exact H2].
Qed.

Lemma nth_index_of (i : nat) (l : list nat) :
  NoDup l -> i < length l -> Bank.index_of (nth i l 0) l = i.
Proof.
  intros Hnd. revert i. induction Hnd as [|y l Hy Hnd IH]; intros i Hi; [simpl in Hi; lia|].
  destruct i as [|i]; simpl.
  - rewrite Nat.eqb_refl. reflexivity.
  - simpl in Hi. destruct (Nat.eqb_spec (nth i l 0) y) as [E|_].
    + exfalso. apply Hy. rewrite <- E. apply nth_In. lia.
    + f_equal. apply IH. lia.
Qed.

Lemma existsb_eqb_in (i : nat) (l : list nat) :
  existsb (Nat.eqb i) l = true <-> In i l.
Proof.
  rewrite existsb_exists. split.
  - intros [x [Hx E]]. apply Nat.eqb_eq in E. subst. exact Hx.
  - intros Hi. exists i. split; [exact Hi|apply Nat.eqb_refl].
Qed.

Lemma selection_le (n k : nat) (sel : list nat) :
  Bank.selection n k sel -> k <= n.
Proof.
  intros [Hnd [Hlen Hlt]].
  assert (H : length sel <= length (seq 0 n)).
  { apply NoDup_incl_length; [exact Hnd|].
    intros i Hi. rewrite Forall_forall in Hlt. apply in_seq. specialize (Hlt i Hi). lia. }
  rewrite length_seq in H. lia.
Qed.

Lemma shuffle_from_perm (n k : nat) (sel : list nat) :
  Bank.selection n k sel ->
  NoDup (Bank.shuffle_from n sel) /\
  Permutation (Bank.shuffle_from n sel) (seq 0 n) /\
  firstn k (Bank.shuffle_from n sel) = sel.
Proof.
  intros [Hnd [Hlen Hlt]]. rewrite Forall_forall in Hlt.
  assert (Hnd' : NoDup (Bank.shuffle_from n sel)).
  { unfold Bank.shuffle_from. apply NoDup_app; [exact Hnd| |].
    - apply NoDup_filter. apply seq_NoDup.
    - intros x Hx Hx'. apply filter_In in Hx'. destruct Hx' as [_ Hx'].
      apply existsb_eqb_in in Hx. rewrite Hx in Hx'. discriminate Hx'. }
  split; [exact Hnd'|]. split.
  - apply NoDup_Permutation; [exact Hnd'|apply seq_NoDup|].
    intros x. unfold Bank.shuffle_from. rewrite in_app_iff, filter_In, in_seq. split.
    + intros [Hx|[Hx _]]; [specialize (Hlt x Hx)|]; lia.
    + intros Hx. destruct (existsb (Nat.eqb x) sel) eqn:E.
      * left. apply existsb_eqb_in. exact E.
      * right. split; [lia|reflexivity].
  - unfold Bank.shuffle_from. rewrite <- Hlen.
    rewrite firstn_app, Nat.sub_diag, firstn_all. simpl. apply app_nil_r.
Qed.

Lemma shuffle_length (n : nat) (p : list nat) :
  Permutation p (seq 0 n) -> length p = n.
Proof.
  intros Hp. rewrite (Permutation_length Hp). apply length_seq.
Qed.

Lemma shuffle_in (n : nat) (p : list nat) (i : nat) :
  Permutation p (seq 0 n) -> (In i p <-> i < n).
Proof.
  intros Hp. split.
  - intros H. apply (Permutation_in _ Hp) in H. apply in_seq in H. lia.
  - intros H. apply (Permutation_in _ (Permutation_sym Hp)). apply in_seq. lia.
Qed.

Lemma relabel_map (n : nat) (p1 p2 : list nat) :
  NoDup p1 -> Permutation p1 (seq 0 n) -> Permutation p2 (seq 0 n) ->
  map (Bank.relabel p1 p2) p1 = p2.
Proof.
  intros Hnd1 Hp1 Hp2.
  assert (L1 := @shuffle_length n p1 Hp1). assert (L2 := @shuffle_length n p2 Hp2).
  apply (nth_ext _ _ 0 0); [rewrite length_map; lia|].
  intros i Hi. rewrite length_map in Hi.
  rewrite (nth_indep _ 0 (Bank.relabel p1 p2 0))
    by (rewrite length_map; exact Hi).
  rewrite map_nth. unfold Bank.relabel.
  rewrite nth_index_of by assumption. reflexivity.
Qed.

Lemma relabel_inverse (n : nat) (p1 p2 : list nat) (i : nat) :
  NoDup p2 -> Permutation p1 (seq 0 n) -> Permutation p2 (seq 0 n) ->
  i < n -> Bank.relabel p2 p1 (Bank.relabel p1 p2 i) = i.
Proof.
  intros Hnd2 Hp1 Hp2 Hi.
  assert (L1 := @shuffle_length n p1 Hp1). assert (L2 := @shuffle_length n p2 Hp2).
  destruct (@index_of_nth i p1) as [Hlt Hnth];
    [apply (@shuffle_in n p1 i Hp1); exact Hi|].
  unfold Bank.relabel. rewrite nth_index_of by (try assumption; lia).
  exact Hnth.
Qed.

Lemma relabel_shuffles (n : nat) (p1 p2 p : list nat) :
  NoDup p1 -> NoDup p2 -> Permutation p1 (seq 0 n) -> Permutation p2 (seq 0 n) ->
  Permutation p (seq 0 n) ->
  Permutation (map (Bank.relabel p1 p2) p) (seq 0 n) /\
  map (Bank.relabel p2 p1) (map (Bank.relabel p1 p2) p) = p.
Proof.
  intros Hnd1 Hnd2 Hp1 Hp2 Hp. split.
  - apply Permutation_trans with (map (Bank.relabel p1 p2) p1).
    + apply Permutation_map.
      apply Permutation_trans with (seq 0 n); [exact Hp|apply Permutation_sym; exact Hp1].
    + rewrite (@relabel_map n p1 p2 Hnd1 Hp1 Hp2). exact Hp2.
  - rewrite map_map. rewrite <- (map_id p) at 2.
    apply map_ext_in. intros i Hi.
    apply (@relabel_inverse n p1 p2 i Hnd2 Hp1 Hp2).
    apply (Permutation_in _ Hp) in Hi. apply in_seq in Hi. lia.
Qed.

(** Every selection is drawn from equally many shuffles: relabelling the
    positions is a one-to-one correspondence of the shuffles of
    [0 .. n-1] that carries the shuffles from which [np_random_choice]
    draws [sel1] to those from which it draws [sel2]. *)
Lemma selections_equally_likely (n k : nat) (sel1 sel2 : list nat) :
  Bank.selection n k sel1 -> Bank.selection n k sel2 ->
  exists f g : nat -> nat,
    (forall p, Permutation p (seq 0 n) ->
       Permutation (map f p) (seq 0 n) /\ map g (map f p) = p) /\
    (forall p, Permutation p (seq 0 n) ->
       Permutation (map g p) (seq 0 n) /\ map f (map g p) = p) /\
    (forall p, Permutation p (seq 0 n) ->
       (Bank.np_random_choice p n k = Ok sel1 <->
        Bank.np_random_choice (map f p) n k = Ok sel2)).
Proof.
  intros Hs1 Hs2.
  destruct (@shuffle_from_perm n k sel1 Hs1) as [Hnd1 [Hp1 Hf1]].
  destruct (@shuffle_from_perm n k sel2 Hs2) as [Hnd2 [Hp2 Hf2]].
  set (p1 := Bank.shuffle_from n sel1) in *.
  set (p2 := Bank.shuffle_from n sel2) in *.
  assert (Hk := @selection_le n k sel1 Hs1).
  assert (Hmap : map (Bank.relabel p1 p2) sel1 = sel2).
  { rewrite <- Hf1, <- Hf2, <- firstn_map. f_equal. apply (@relabel_map n p1 p2 Hnd1 Hp1 Hp2). }
  assert (Hmap' : map (Bank.relabel p2 p1) sel2 = sel1).
  { rewrite <- Hf1, <- Hf2, <- firstn_map. f_equal. apply (@relabel_map n p2 p1 Hnd2 Hp2 Hp1). }
  exists (Bank.relabel p1 p2), (Bank.relabel p2 p1).
  split; [|split].
  - intros p Hp. apply relabel_shuffles; assumption.
  - intros p Hp. apply relabel_shuffles; assumption.
  - intros p Hp. unfold Bank.np_random_choice.
    destruct (Nat.ltb_spec n k) as [?|_]; [lia|].
    rewrite firstn_map. split.
    + intros E. injection E as E. rewrite E, Hmap. reflexivity.
    + intros E. injection E as E. f_equal.
      rewrite <- Hmap', <- E, <- !firstn_map.
      rewrite (proj2 (@relabel_shuffles n p1 p2 p Hnd1 Hnd2 Hp1 Hp2 Hp)). reflexivity.
Qed.

Lemma firstn_selection (n k : nat) (perm : list nat) :
  Permutation perm (seq 0 n) -> k <= n -> Bank.selection n k (firstn k perm).
Proof.
  intros Hp Hk.
  assert (Hnd : NoDup perm).
  { apply (Permutation_NoDup (Permutation_sym Hp)). apply seq_NoDup. }
  assert (Hl : length perm = n) by (rewrite (Permutation_length Hp); apply length_seq).
  split; [|split].
  - rewrite <- (firstn_skipn k perm) in Hnd. apply NoDup_app_remove_r in Hnd. exact Hnd.
  - rewrite length_firstn. lia.
  - apply Forall_forall. intros i Hi. apply in_firstn in Hi.
    apply (Permutation_in _ Hp) in Hi. apply in_seq in Hi. lia.
Qed.

(** C3 (as the code has it): for at least one 3 x 224 x 224 image and a
    shuffle of the positions of the pooled rows, [build] returns
    floor(pooled_count / 10) rows of the 784 * (number of images) pooled
    rows; every returned row is a pooled row, the rows are taken at
    distinct positions (the bank and some remainder together are a
    rearrangement of the pool), and the bank is not empty.  The draw is
    the first floor(pooled_count / 10) entries of the shuffle, a selection
    of distinct positions, and the bank is the pooled rows at these
    positions, in the order of the shuffle.  The draw is uniform when the
    shuffle is: every selection is drawn from some shuffle, and for any two
    selections a relabelling of the positions is a one-to-one
    correspondence of the shuffles that carries the shuffles giving the
    first selection to those giving the second, so that equally many
    shuffles give each selection. *)
Theorem build_keeps_a_tenth_rounded_down
        (net : Extractor.resnet50) (images : list fmap) (perm : list nat) :
  Extractor.resnet50_shapes net -> images <> [] ->
  Forall (has_shape 3 224 224) images ->
  Permutation perm (seq 0 (784 * length images)) ->
  exists pooled bank rest,
    Bank.pool net images = Ok pooled /\
    length pooled = 784 * length images /\
    Bank.build net images perm = Ok bank /\
    length bank = length pooled / 10 /\
    (forall v, In v bank -> In v pooled) /\
    Permutation (bank ++ rest) pooled /\
    0 < length bank /\
    Bank.np_random_choice perm (length pooled) (length pooled / 10)
    = Ok (firstn (length pooled / 10) perm) /\
    Bank.selection (length pooled) (length pooled / 10)
                   (firstn (length pooled / 10) perm) /\
    bank = map (fun i => nth i pooled []) (firstn (length pooled / 10) perm) /\
    (forall sel,
       Bank.selection (length pooled) (length pooled / 10) sel ->
       exists p,
         Permutation p (seq 0 (length pooled)) /\
         Bank.np_random_choice p (length pooled) (length pooled / 10) = Ok sel) /\
    (forall sel1 sel2,
       Bank.selection (length pooled) (length pooled / 10) sel1 ->
       Bank.selection (length pooled) (length pooled / 10) sel2 ->
       exists f g : nat -> nat,
         (forall p, Permutation p (seq 0 (length pooled)) ->
            Permutation (map f p) (seq 0 (length pooled)) /\ map g (map f p) = p) /\
         (forall p, Permutation p (seq 0 (length pooled)) ->
            Permutation (map g p) (seq 0 (length pooled)) /\ map f (map g p) = p) /\
         (forall p, Permutation p (seq 0 (length pooled)) ->
            (Bank.np_random_choice p (length pooled) (length pooled / 10) = Ok sel1
             <-> Bank.np_random_choice (map f p) (length pooled) (length pooled / 10)
                 = Ok sel2))).
Proof.
  intros Hnet Hne Himg Hperm.
  destruct (pool_spec Hnet Hne Himg) as [pooled [Ep Hlen]].
  rewrite <- Hlen in Hperm.
  destruct (@subsample_spec _ (@nil R) perm pooled Hperm) as [bank [rest [Es [Hb [Hin Hp]]]]].
  destruct (@subsample_rows _ (@nil R) perm pooled Hperm) as [Ec Er].
  assert (Hk : length pooled / 10 <= length pooled)
    by (apply Nat.Div0.div_le_upper_bound; lia).
  exists pooled, bank, rest.
  split; [exact Ep|]. split; [exact Hlen|].
  split; [unfold Bank.build; rewrite Ep, bind_ok; exact Es|].
  split; [exact Hb|]. split; [exact Hin|]. split; [exact Hp|].
  split.
  { rewrite Hb, Hlen. destruct images as [|x xs]; [contradiction|].
    simpl length. apply Nat.div_str_pos. lia. }
  split; [exact Ec|].
  split; [apply firstn_selection; assumption|].
  split; [rewrite Es in Er; injection Er as Er; exact Er|].
  split.
  - intros sel Hsel.
    destruct (@shuffle_from_perm (length pooled) (length pooled / 10) sel Hsel)
      as [_ [Hsp Hsf]].
    exists (Bank.shuffle_from (length pooled) sel). split; [exact Hsp|].
    unfold Bank.np_random_choice.
    destruct (Nat.ltb_spec (length pooled) (length pooled / 10)) as [?|_]; [lia|].
    rewrite Hsf. reflexivity.
  - intros sel1 sel2 Hs1 Hs2. apply selections_equally_likely; assumption.
Qed.

Lemma build_keeps_a_tenth_rounded_down_witness :
  exists pooled bank rest,
    Bank.pool Extractor.const_net [zeros 3 224 224] = Ok pooled /\
    length pooled = 784 * 1 /\
    Bank.build Extractor.const_net [zeros 3 224 224] (rev (seq 0 784)) = Ok bank /\
    length bank = length pooled / 10 /\
    (forall v, In v bank -> In v pooled) /\
    Permutation (bank ++ rest) pooled /\
    0 < length bank /\
    Bank.np_random_choice (rev (seq 0 784)) (length pooled) (length pooled / 10)
    = Ok (firstn (length pooled / 10) (rev (seq 0 784))) /\
    Bank.selection (length pooled) (length pooled / 10)
                   (firstn (length pooled / 10) (rev (seq 0 784))) /\
    bank = map (fun i => nth i pooled [])
               (firstn (length pooled / 10) (rev (seq 0 784))) /\
    (forall sel,
       Bank.selection (length pooled) (length pooled / 10) sel ->
       exists p,
         Permutation p (seq 0 (length pooled)) /\
         Bank.np_random_choice p (length pooled) (length pooled / 10) = Ok sel) /\
    (forall sel1 sel2,
       Bank.selection (length pooled) (length pooled / 10) sel1 ->
       Bank.selection (length pooled) (length pooled / 10) sel2 ->
       exists f g : nat -> nat,
         (forall p, Permutation p (seq 0 (length pooled)) ->
            Permutation (map f p) (seq 0 (length pooled)) /\ map g (map f p) = p) /\
         (forall p, Permutation p (seq 0 (length pooled)) ->
            Permutation (map g p) (seq 0 (length pooled)) /\ map f (map g p) = p) /\
         (forall p, Permutation p (seq 0 (length pooled)) ->
            (Bank.np_random_choice p (length pooled) (length pooled / 10) = Ok sel1
             <-> Bank.np_random_choice (map f p) (length pooled) (length pooled / 10)
                 = Ok sel2))).
Proof.
  apply (@build_keeps_a_tenth_rounded_down
           Extractor.const_net [zeros 3 224 224] (rev (seq 0 784))).
  - exact const_net_shapes.
  - discriminate.
  - constructor; [apply zeros_shape|constructor].
  - apply Permutation_sym. apply Permutation_rev.
Defined.

(** C3 fails as stated: two images pool 1568 rows, the bank keeps
    1568 // 10 = 156 of them, and round(0.1 * 1568) is 157. *)
Lemma bank_size_is_not_rounded :
  exists pooled bank,
    Bank.pool Extractor.const_net [zeros 3 224 224; zeros 3 224 224] = Ok pooled /\
    length pooled = 1568 /\
    Bank.build Extractor.const_net [zeros 3 224 224; zeros 3 224 224] (seq 0 1568)
    = Ok bank /\
    length bank = 156 /\
    Bank.spec_bank_size (1 # 10) (length pooled) = 157%Z /\
    Z.of_nat (length bank) <> Bank.spec_bank_size (1 # 10) (length pooled).
Proof.
  destruct (@pool_spec Extractor.const_net [zeros 3 224 224; zeros 3 224 224])
    as [pooled [Ep Hlen]].
  - exact const_net_shapes.
  - discriminate.
  - constructor; [apply zeros_shape|constructor; [apply zeros_shape|constructor]].
  - assert (Hp : length pooled = 1568) by (rewrite Hlen; reflexivity).
    destruct (@subsample_spec _ (@nil R) (seq 0 1568) pooled)
      as [bank [_ [Es [Hb _]]]]; [rewrite Hp; apply Permutation_refl|].
    exists pooled, bank.
    assert (Hk : length bank = 156) by (rewrite Hb, Hp; reflexivity).
    split; [exact Ep|]. split; [exact Hp|].
    split; [unfold Bank.build; rewrite Ep, bind_ok; exact Es|].
    split; [exact Hk|]. rewrite Hk, Hp.
    split; [vm_compute; reflexivity|vm_compute; discriminate].
Qed.

(* ------------------------------------------------------------------ *)
(** ** The statistical threshold *)

Lemma np_std_is_population_stdev (l : list R) :
  Statistical.np_std l = sqrt (Statistical.spec_population_variance l).
Proof.
  unfold Statistical.np_std, Statistical.spec_population_variance,
    Statistical.np_mean, Statistical.spec_mean.
  rewrite length_map. f_equal. f_equal. f_equal.
  apply map_ext. intros x.
  rewrite <- Rabs_mult. rewrite Rabs_pos_eq by apply Rle_0_sqr. simpl. ring.
Qed.

(** C9: for a non-empty sequence of scores the threshold is
    mean + k * (population standard deviation), it does not decrease when k
    grows, and the notebook's threshold is the one for k = 3. *)
Theorem calibrate_statistical_monotone (y_score_good : list R) (k1 k2 : R) :
  y_score_good <> [] -> (k1 <= k2)%R ->
  Statistical.calibrate_statistical y_score_good k1
  = (Statistical.spec_mean y_score_good
     + k1 * sqrt (Statistical.spec_population_variance y_score_good))%R /\
  (Statistical.calibrate_statistical y_score_good k1
   <= Statistical.calibrate_statistical y_score_good k2)%R /\
  Statistical.best_threshold y_score_good
  = (Statistical.spec_mean y_score_good
     + 3 * sqrt (Statistical.spec_population_variance y_score_good))%R.
Proof.
  intros _ Hk. unfold Statistical.best_threshold, Statistical.calibrate_statistical.
  rewrite np_std_is_population_stdev.
  split; [reflexivity|]. split; [|reflexivity].
  assert (H := sqrt_pos (Statistical.spec_population_variance y_score_good)).
  apply Rplus_le_compat_l. apply Rmult_le_compat_r; assumption.
Qed.

Lemma calibrate_statistical_monotone_witness :
  Statistical.calibrate_statistical [2; 4]%R 1
  = (Statistical.spec_mean [2; 4]
     + 1 * sqrt (Statistical.spec_population_variance [2; 4]))%R /\
  (Statistical.calibrate_statistical [2; 4]%R 1
   <= Statistical.calibrate_statistical [2; 4]%R 3)%R /\
  Statistical.best_threshold [2; 4]%R
  = (Statistical.spec_mean [2; 4]
     + 3 * sqrt (Statistical.spec_population_variance [2; 4]))%R.
Proof.
  apply (@calibrate_statistical_monotone [2; 4]%R 1%R 3%R).
  - discriminate.
  - lra.
Defined.

(* ------------------------------------------------------------------ *)
(** ** The F1 sweep *)

Section ArgMax.
Local Open Scope Q_scope.

Lemma argmax_from_spec (l pre : list Q) (best_i : nat) (best : Q) :
  nth_error pre best_i = Some best ->
  (forall x, In x pre -> x <= best) ->
  (forall j x, (j < best_i)%nat -> nth_error pre j = Some x -> x < best) ->
  exists v,
    nth_error (pre ++ l) (MetricSweep.argmax_from l (length pre) best_i best) = Some v /\
    (forall x, In x (pre ++ l) -> x <= v) /\
    (forall j x, (j < MetricSweep.argmax_from l (length pre) best_i best)%nat ->
                 nth_error (pre ++ l) j = Some x -> x < v).
Proof.
  revert pre best_i best. induction l as [|x l IH]; intros pre best_i best Hb Hle Hlt.
  - simpl. rewrite app_nil_r. exists best. auto.
  - assert (Hbi : (best_i < length pre)%nat)
      by (apply nth_error_Some; rewrite Hb; discriminate).
    replace (pre ++ x :: l) with ((pre ++ [x]) ++ l)
      by (rewrite <- app_assoc; reflexivity).
    simpl MetricSweep.argmax_from.
    replace (S (length pre)) with (length (pre ++ [x]))
      by (rewrite length_app; simpl; lia).
    destruct (Qle_bool x best) eqn:E.
    + apply Qle_bool_iff in E. apply IH.
      * rewrite nth_error_app1 by exact Hbi. exact Hb.
      * intros y Hy. apply in_app_or in Hy. destruct Hy as [Hy|[<-|[]]]; auto.
      * intros j y Hj Hy. rewrite nth_error_app1 in Hy by lia. eauto.
    + assert (Hx : best < x).
      { apply Qnot_le_lt. intros C. apply Qle_bool_iff in C. congruence. }
      apply IH.
      * rewrite nth_error_app2 by lia. rewrite Nat.sub_diag. reflexivity.
      * intros y Hy. apply in_app_or in Hy. destruct Hy as [Hy|[<-|[]]].
        -- apply Qlt_le_weak. eapply Qle_lt_trans; [apply Hle; exact Hy|exact Hx].
        -- apply Qle_refl.
      * intros j y Hj Hy. rewrite nth_error_app1 in Hy by exact Hj.
        eapply Qle_lt_trans; [|exact Hx]. apply Hle.
        eapply nth_error_In. exact Hy.
Qed.

Lemma np_argmax_spec (x : Q) (l : list Q) :
  exists i v,
    MetricSweep.np_argmax (x :: l) = Ok i /\
    nth_error (x :: l) i = Some v /\
    (forall y, In y (x :: l) -> y <= v) /\
    (forall j y, (j < i)%nat -> nth_error (x :: l) j = Some y -> y < v).
Proof.
  destruct (@argmax_from_spec l [x] 0%nat x) as [v [Hv [Hle Hlt]]].
  - reflexivity.
  - intros y [<-|[]]. apply Qle_refl.
  - intros j y Hj. lia.
  - exists (MetricSweep.argmax_from l 1 0 x), v. split; [reflexivity|].
    split; [exact Hv|]. split; [exact Hle|exact Hlt].
Qed.

Lemma argmax_from_keeps (l : list Q) (i best_i : nat) (best : Q) :
  (forall x, In x l -> Qle_bool x best = true) ->
  MetricSweep.argmax_from l i best_i best = best_i.
Proof.
  revert i. induction l as [|x l IH]; intros i Hall; [reflexivity|].
  simpl. rewrite (Hall x (or_introl eq_refl)).
  apply IH. intros y Hy. apply Hall. now right.
Qed.

End ArgMax.

Section CurveFacts.
Local Open Scope Q_scope.

Lemma insert_in (x z : Q * bool) (l : list (Q * bool)) :
  In z (MetricSweep.insert x l) <-> z = x \/ In z l.
Proof.
  induction l as [|y l IH]; simpl.
  - intuition.
  - destruct (Qle_bool (fst x) (fst y)); simpl; [intuition|].
    rewrite IH. intuition.
Qed.

Lemma insert_sorted (x : Q * bool) (l : list (Q * bool)) :
  StronglySorted MetricSweep.asc_by_score l -> StronglySorted MetricSweep.asc_by_score (MetricSweep.insert x l).
Proof.
  induction 1 as [|y l Hs IH Hy]; simpl.
  - constructor; constructor.
  - destruct (Qle_bool (fst x) (fst y)) eqn:E.
    + apply Qle_bool_iff in E. constructor; [constructor; assumption|].
      constructor; [exact E|].
      rewrite Forall_forall in *. intros z Hz. unfold MetricSweep.asc_by_score in *.
      eapply Qle_trans; [exact E|apply Hy; exact Hz].
    + assert (Hyx : fst y <= fst x).
      { apply Qlt_le_weak, Qnot_le_lt. intros C. apply Qle_bool_iff in C. congruence. }
      constructor; [exact IH|].
      rewrite Forall_forall in *. intros z Hz. apply insert_in in Hz.
      destruct Hz as [->|Hz]; [exact Hyx|apply Hy; exact Hz].
Qed.

Lemma stable_sort_in (z : Q * bool) (l : list (Q * bool)) :
  In z (MetricSweep.stable_sort l) <-> In z l.
Proof.
  induction l as [|x l IH]; simpl; [reflexivity|].
  rewrite insert_in, IH. intuition.
Qed.

Lemma stable_sort_sorted (l : list (Q * bool)) :
  StronglySorted MetricSweep.asc_by_score (MetricSweep.stable_sort l).
Proof.
  induction l as [|x l IH]; simpl; [constructor|apply insert_sorted; exact IH].
Qed.

Lemma StronglySorted_snoc {A : Type} (R : A -> A -> Prop) (l : list A) (a : A) :
  StronglySorted R l -> (forall x, In x l -> R x a) -> StronglySorted R (l ++ [a]).
Proof.
  induction 1 as [|y l Hs IH Hy]; intros Ha; simpl.
  - constructor; constructor.
  - constructor.
    + apply IH. intros x Hx. apply Ha. now right.
    + apply Forall_app. split; [exact Hy|].
      constructor; [apply Ha; now left|constructor].
Qed.

Lemma sort_desc_sorted (y_true : list bool) (y_score : list Q) :
  StronglySorted MetricSweep.desc_by_score (MetricSweep.sort_desc y_true y_score).
Proof.
  unfold MetricSweep.sort_desc.
  generalize (stable_sort_sorted (combine y_score y_true)).
  generalize (MetricSweep.stable_sort (combine y_score y_true)).
  induction 1 as [|y l Hs IH Hy]; simpl; [constructor|].
  apply StronglySorted_snoc; [exact IH|].
  intros x Hx. apply in_rev in Hx. rewrite Forall_forall in Hy.
  apply Hy. exact Hx.
Qed.

Lemma sort_desc_in (y_true : list bool) (y_score : list Q) (z : Q * bool) :
  In z (MetricSweep.sort_desc y_true y_score) -> In (fst z) y_score.
Proof.
  unfold MetricSweep.sort_desc. intros Hz. apply in_rev in Hz.
  apply (proj1 (stable_sort_in _ _)) in Hz. destruct z as [q b].
  eapply in_combine_l. exact Hz.
Qed.

Lemma clf_curve_cons2 (sy sy' : Q * bool) (rest : list (Q * bool)) (tp fp : nat) :
  MetricSweep.clf_curve (sy :: sy' :: rest) tp fp
  = if Qeq_bool (fst sy) (fst sy')
    then MetricSweep.clf_curve (sy' :: rest)
           (if snd sy then S tp else tp) (if snd sy then fp else S fp)
    else MetricSweep.mk_point (if snd sy then fp else S fp)
           (if snd sy then S tp else tp) (fst sy)
         :: MetricSweep.clf_curve (sy' :: rest)
              (if snd sy then S tp else tp) (if snd sy then fp else S fp).
Proof. reflexivity. Qed.

Lemma clf_curve_sorted (l : list (Q * bool)) :
  StronglySorted MetricSweep.desc_by_score l ->
  forall tp fp,
    StronglySorted MetricSweep.thr_decreasing (MetricSweep.clf_curve l tp fp) /\
    (forall p, In p (MetricSweep.clf_curve l tp fp) ->
               exists z, In z l /\ MetricSweep.thr p = fst z).
Proof.
  induction 1 as [|sy rest Hs IH Hsy]; intros tp fp.
  - simpl. split; [constructor|intros p []].
  - destruct rest as [|sy' rest'].
    + simpl. split; [constructor; constructor|].
      intros p [<-|[]]. exists sy. split; [now left|reflexivity].
    + rewrite clf_curve_cons2.
      destruct (IH (if snd sy then S tp else tp) (if snd sy then fp else S fp))
        as [IHs IHin].
      destruct (Qeq_bool (fst sy) (fst sy')) eqn:E.
      * split; [exact IHs|].
        intros p Hp. destruct (IHin p Hp) as [z [Hz Ez]].
        exists z. split; [now right|exact Ez].
      * split.
        -- constructor; [exact IHs|].
           apply Forall_forall. intros p Hp.
           destruct (IHin p Hp) as [z [Hz Ez]].
           unfold MetricSweep.thr_decreasing. simpl MetricSweep.thr at 2. rewrite Ez.
           rewrite Forall_forall in Hsy. unfold MetricSweep.desc_by_score in Hsy.
           assert (H1 : fst sy' <= fst sy) by (apply Hsy; now left).
           assert (H2 : fst z <= fst sy').
           { destruct Hz as [<-|Hz]; [apply Qle_refl|].
             inversion Hs as [|? ? _ Hall]; subst.
             rewrite Forall_forall in Hall. apply Hall. exact Hz. }
           assert (H3 : fst sy' < fst sy).
           { apply Qle_lt_or_eq in H1. destruct H1 as [H1|H1]; [exact H1|].
             exfalso. symmetry in H1. apply Qeq_bool_iff in H1. congruence. }
           eapply Qle_lt_trans; [exact H2|exact H3].
        -- intros p [<-|Hp].
           ++ exists sy. split; [now left|reflexivity].
           ++ destruct (IHin p Hp) as [z [Hz Ez]].
              exists z. split; [now right|exact Ez].
Qed.

Lemma drop_mid_cons2 (prev cur next : MetricSweep.point) (rest : list MetricSweep.point) :
  MetricSweep.drop_mid prev (cur :: next :: rest)
  = if MetricSweep.corner prev cur next
    then cur :: MetricSweep.drop_mid cur (next :: rest)
    else MetricSweep.drop_mid cur (next :: rest).
Proof. reflexivity. Qed.

Lemma drop_mid_sorted (R : MetricSweep.point -> MetricSweep.point -> Prop)
      (l : list MetricSweep.point) :
  StronglySorted R l ->
  forall prev,
    StronglySorted R (MetricSweep.drop_mid prev l) /\
    (forall p, In p (MetricSweep.drop_mid prev l) -> In p l).
Proof.
  induction 1 as [|cur rest Hs IH Hc]; intros prev.
  - simpl. split; [constructor|auto].
  - destruct rest as [|next rest'].
    + simpl. split; [constructor; constructor|auto].
    + rewrite drop_mid_cons2. destruct (IH cur) as [IHs IHin].
      destruct (MetricSweep.corner prev cur next).
      * split.
        -- constructor; [exact IHs|].
           rewrite Forall_forall in *. intros p Hp. apply Hc, IHin, Hp.
        -- intros p [<-|Hp]; [now left|right; apply IHin, Hp].
      * split; [exact IHs|]. intros p Hp. right. apply IHin, Hp.
Qed.

Lemma drop_intermediate_sorted (R : MetricSweep.point -> MetricSweep.point -> Prop)
      (l : list MetricSweep.point) :
  StronglySorted R l ->
  StronglySorted R (MetricSweep.drop_intermediate l) /\
  (forall p, In p (MetricSweep.drop_intermediate l) -> In p l).
Proof.
  intros Hs. destruct l as [|p0 rest]; simpl; [split; [constructor|auto]|].
  inversion Hs as [|? ? Hrest Hp0]; subst.
  destruct (drop_mid_sorted Hrest p0) as [Hds Hin]. split.
  - constructor; [exact Hds|].
    rewrite Forall_forall in *. intros p Hp. apply Hp0, Hin, Hp.
  - intros p [<-|Hp]; [now left|right; apply Hin, Hp].
Qed.

Lemma StronglySorted_map {A B : Type} (R : B -> B -> Prop) (f : A -> B) (l : list A) :
  StronglySorted (fun a b => R (f a) (f b)) l -> StronglySorted R (map f l).
Proof.
  induction 1 as [|a l Hs IH Ha]; simpl; constructor; [exact IH|].
  apply Forall_map. exact Ha.
Qed.

End CurveFacts.

Section CountFacts.
Local Open Scope Q_scope.

Lemma count_tp (theta : Q) (y_true : list bool) (y_score : list Q) :
  MetricSweep.count2 (fun y p => y && p)%bool y_true
    (map (fun s => MetricSweep.ge_threshold s (MetricSweep.Fin theta)) y_score)
  = MetricSweep.count_ge true theta (combine y_score y_true).
Proof.
  unfold MetricSweep.count2, MetricSweep.count_ge. revert y_score.
  induction y_true as [|y ys IH]; intros [|s ss]; try reflexivity.
  simpl. destruct y; simpl; destruct (Qle_bool theta s); simpl; rewrite IH; reflexivity.
Qed.

Lemma count_fp (theta : Q) (y_true : list bool) (y_score : list Q) :
  MetricSweep.count2 (fun y p => negb y && p)%bool y_true
    (map (fun s => MetricSweep.ge_threshold s (MetricSweep.Fin theta)) y_score)
  = MetricSweep.count_ge false theta (combine y_score y_true).
Proof.
  unfold MetricSweep.count2, MetricSweep.count_ge. revert y_score.
  induction y_true as [|y ys IH]; intros [|s ss]; try reflexivity.
  simpl. destruct y; simpl; destruct (Qle_bool theta s); simpl; rewrite IH; reflexivity.
Qed.

Lemma count_tp_fn (y_true y_pred : list bool) :
  length y_true = length y_pred ->
  (MetricSweep.count2 (fun y p => y && p)%bool y_true y_pred
   + MetricSweep.count2 (fun y p => y && negb p)%bool y_true y_pred)%nat
  = MetricSweep.positives y_true.
Proof.
  unfold MetricSweep.count2, MetricSweep.positives. revert y_pred.
  induction y_true as [|y ys IH]; intros [|p ps] Hlen; try discriminate Hlen;
    [reflexivity|].
  injection Hlen as Hlen. specialize (IH ps Hlen).
  simpl. destruct y, p; simpl; lia.
Qed.

Lemma count_ge_perm (pos : bool) (theta : Q) (l l' : list (Q * bool)) :
  Permutation l l' -> MetricSweep.count_ge pos theta l = MetricSweep.count_ge pos theta l'.
Proof.
  unfold MetricSweep.count_ge. induction 1 as [|x l l' _ IH|x y l|l l' l'' _ IH1 _ IH2].
  - reflexivity.
  - simpl. destruct (_ && _)%bool; simpl; rewrite IH; reflexivity.
  - simpl. do 2 destruct (_ && _)%bool; reflexivity.
  - congruence.
Qed.

Lemma insert_perm (x : Q * bool) (l : list (Q * bool)) :
  Permutation (MetricSweep.insert x l) (x :: l).
Proof.
  induction l as [|y l IH]; simpl; [apply Permutation_refl|].
  destruct (Qle_bool (fst x) (fst y)); [apply Permutation_refl|].
  eapply Permutation_trans; [apply perm_skip; exact IH|apply perm_swap].
Qed.

Lemma sort_desc_perm (y_true : list bool) (y_score : list Q) :
  Permutation (MetricSweep.sort_desc y_true y_score) (combine y_score y_true).
Proof.
  unfold MetricSweep.sort_desc.
  eapply Permutation_trans; [apply Permutation_sym, Permutation_rev|].
  induction (combine y_score y_true) as [|x l IH]; simpl; [apply Permutation_refl|].
  eapply Permutation_trans; [apply insert_perm|apply perm_skip; exact IH].
Qed.

Lemma count_ge_cons (pos : bool) (theta : Q) (z : Q * bool) (l : list (Q * bool)) :
  MetricSweep.count_ge pos theta (z :: l)
  = ((if Bool.eqb (snd z) pos && Qle_bool theta (fst z) then 1 else 0)
     + MetricSweep.count_ge pos theta l)%nat.
Proof. unfold MetricSweep.count_ge. simpl. destruct (_ && _)%bool; reflexivity. Qed.

Lemma count_ge_none (pos : bool) (theta : Q) (l : list (Q * bool)) :
  (forall z, In z l -> fst z < theta) -> MetricSweep.count_ge pos theta l = 0%nat.
Proof.
  intros Hlt. unfold MetricSweep.count_ge. induction l as [|z l IH]; [reflexivity|].
  simpl. assert (E : Qle_bool theta (fst z) = false).
  { destruct (Qle_bool theta (fst z)) eqn:E; [|reflexivity].
    apply Qle_bool_iff in E. exfalso. apply (Qlt_not_le _ _ (Hlt z (or_introl eq_refl))).
    exact E. }
  rewrite E, andb_false_r. apply IH. intros z' Hz'. apply Hlt. now right.
Qed.

(** The counts of a curve point are the labels at scores not below its
    threshold. *)
Lemma clf_curve_counts (l : list (Q * bool)) :
  StronglySorted MetricSweep.desc_by_score l ->
  forall tp fp p, In p (MetricSweep.clf_curve l tp fp) ->
    MetricSweep.tps p = (tp + MetricSweep.count_ge true (MetricSweep.thr p) l)%nat /\
    MetricSweep.fps p = (fp + MetricSweep.count_ge false (MetricSweep.thr p) l)%nat.
Proof.
  induction 1 as [|sy rest Hs IH Hsy]; intros tp fp p Hp; [destruct Hp|].
  assert (Hhere : forall th, th <= fst sy ->
            MetricSweep.count_ge true th (sy :: rest)
            = ((if snd sy then 1 else 0) + MetricSweep.count_ge true th rest)%nat /\
            MetricSweep.count_ge false th (sy :: rest)
            = ((if snd sy then 0 else 1) + MetricSweep.count_ge false th rest)%nat).
  { intros th Hth. apply Qle_bool_iff in Hth. rewrite !count_ge_cons, Hth.
    destruct (snd sy); split; reflexivity. }
  destruct rest as [|sy' rest'].
  - simpl in Hp. destruct Hp as [<-|[]]. simpl MetricSweep.thr.
    simpl MetricSweep.tps. simpl MetricSweep.fps.
    destruct (Hhere (fst sy) (Qle_refl _)) as [-> ->].
    unfold MetricSweep.count_ge. simpl. destruct (snd sy); split; lia.
  - rewrite clf_curve_cons2 in Hp.
    assert (Hrest : In p (MetricSweep.clf_curve (sy' :: rest')
                            (if snd sy then S tp else tp) (if snd sy then fp else S fp)) ->
            MetricSweep.tps p = (tp + MetricSweep.count_ge true (MetricSweep.thr p) (sy :: sy' :: rest'))%nat /\
            MetricSweep.fps p = (fp + MetricSweep.count_ge false (MetricSweep.thr p) (sy :: sy' :: rest'))%nat).
    { intros Hp'. destruct (IH _ _ _ Hp') as [Et Ef].
      destruct (clf_curve_sorted Hs (if snd sy then S tp else tp)
                  (if snd sy then fp else S fp)) as [_ Hin].
      destruct (Hin p Hp') as [z [Hz Ez]].
      assert (Hth : MetricSweep.thr p <= fst sy).
      { rewrite Ez. rewrite Forall_forall in Hsy. apply Hsy. exact Hz. }
      destruct (Hhere _ Hth) as [-> ->]. rewrite Et, Ef.
      destruct (snd sy); split; lia. }
    destruct (Qeq_bool (fst sy) (fst sy')) eqn:E; [apply Hrest; exact Hp|].
    destruct Hp as [<-|Hp]; [|apply Hrest; exact Hp].
    simpl MetricSweep.thr. simpl MetricSweep.tps. simpl MetricSweep.fps.
    destruct (Hhere (fst sy) (Qle_refl _)) as [-> ->].
    assert (Hlt : forall z, In z (sy' :: rest') -> fst z < fst sy).
    { intros z Hz. rewrite Forall_forall in Hsy. unfold MetricSweep.desc_by_score in Hsy.
      assert (H1 : fst sy' <= fst sy) by (apply Hsy; now left).
      assert (H3 : fst sy' < fst sy).
      { apply Qle_lt_or_eq in H1. destruct H1 as [H1|H1]; [exact H1|].
        exfalso. symmetry in H1. apply Qeq_bool_iff in H1. congruence. }
      destruct Hz as [<-|Hz]; [exact H3|].
      inversion Hs as [|? ? _ Hall]; subst. rewrite Forall_forall in Hall.
      eapply Qle_lt_trans; [apply Hall; exact Hz|exact H3]. }
    rewrite !count_ge_none by exact Hlt. destruct (snd sy); split; lia.
Qed.

Lemma clf_curve_covers (l : list (Q * bool)) (z : Q * bool) :
  In z l -> forall tp fp,
  exists p, In p (MetricSweep.clf_curve l tp fp) /\ MetricSweep.thr p == fst z.
Proof.
  revert z. induction l as [|sy rest IH]; intros z Hz tp fp; [destruct Hz|].
  destruct rest as [|sy' rest'].
  - destruct Hz as [<-|[]]. eexists. split; [now left|]. simpl. reflexivity.
  - rewrite clf_curve_cons2.
    destruct (Qeq_bool (fst sy) (fst sy')) eqn:E.
    + destruct Hz as [<-|Hz].
      * destruct (IH sy' (or_introl eq_refl) (if snd sy then S tp else tp)
                    (if snd sy then fp else S fp)) as [p [Hp Ep]].
        exists p. split; [exact Hp|]. rewrite Ep. symmetry. apply Qeq_bool_iff. exact E.
      * apply IH. exact Hz.
    + destruct Hz as [<-|Hz].
      * eexists. split; [now left|]. simpl. reflexivity.
      * destruct (IH z Hz (if snd sy then S tp else tp)
                    (if snd sy then fp else S fp)) as [p [Hp Ep]].
        exists p. split; [now right|exact Ep].
Qed.

Lemma f1_at_Qeq (y_true : list bool) (y_score : list Q) (a b : Q) :
  a == b ->
  MetricSweep.f1_at y_true y_score (MetricSweep.Fin a)
  = MetricSweep.f1_at y_true y_score (MetricSweep.Fin b).
Proof.
  intros E. unfold MetricSweep.f1_at. f_equal. apply map_ext. intros s. simpl.
  apply Qleb_comp; [exact E|reflexivity].
Qed.

End CountFacts.

Section DominanceFacts.
Local Open Scope Q_scope.

Lemma count_ge_in (theta : Q) (z : Q * bool) (l : list (Q * bool)) :
  In z l -> theta <= fst z -> (1 <= MetricSweep.count_ge (snd z) theta l)%nat.
Proof.
  intros Hz Hth. induction l as [|x l IH]; [destruct Hz|].
  rewrite count_ge_cons. destruct Hz as [->|Hz].
  - apply Qle_bool_iff in Hth. rewrite Hth, eqb_reflx. simpl. lia.
  - specialize (IH Hz). lia.
Qed.

Lemma curve_point_counts (y_true : list bool) (y_score : list Q) (p : MetricSweep.point) :
  In p (MetricSweep.clf_curve (MetricSweep.sort_desc y_true y_score) 0 0) ->
  MetricSweep.tps p = MetricSweep.count_ge true (MetricSweep.thr p) (combine y_score y_true) /\
  MetricSweep.fps p = MetricSweep.count_ge false (MetricSweep.thr p) (combine y_score y_true) /\
  (1 <= MetricSweep.tps p + MetricSweep.fps p)%nat.
Proof.
  intros Hp.
  assert (Hs := sort_desc_sorted y_true y_score).
  destruct (clf_curve_counts Hs _ _ _ Hp) as [Et Ef]. simpl in Et, Ef.
  destruct (clf_curve_sorted Hs 0 0) as [_ Hin].
  destruct (Hin p Hp) as [z [Hz Ez]].
  assert (H1 : (1 <= MetricSweep.count_ge (snd z) (MetricSweep.thr p)
                       (MetricSweep.sort_desc y_true y_score))%nat)
    by (apply count_ge_in; [exact Hz|rewrite Ez; apply Qle_refl]).
  rewrite <- !(count_ge_perm _ _ (sort_desc_perm y_true y_score)).
  split; [exact Et|]. split; [exact Ef|].
  rewrite Et, Ef. destruct (snd z); lia.
Qed.

(** The F1 at the threshold of a curve point, from the counts of the
    point. *)
Lemma f1_at_point (y_true : list bool) (y_score : list Q) (p : MetricSweep.point) :
  length y_true = length y_score ->
  In p (MetricSweep.clf_curve (MetricSweep.sort_desc y_true y_score) 0 0) ->
  MetricSweep.f1_at y_true y_score (MetricSweep.Fin (MetricSweep.thr p))
  = MetricSweep.point_f1 (MetricSweep.positives y_true) p.
Proof.
  intros Hlen Hp. destruct (curve_point_counts _ _ _ Hp) as [Et [Ef Hpos]].
  unfold MetricSweep.f1_at, MetricSweep.f1_score. cbv zeta.
  rewrite count_tp, count_fp, <- Et, <- Ef.
  assert (Efn := @count_tp_fn y_true
            (map (fun s => MetricSweep.ge_threshold s (MetricSweep.Fin (MetricSweep.thr p)))
                 y_score)).
  rewrite length_map in Efn. specialize (Efn Hlen).
  rewrite count_tp, <- Et in Efn.
  match goal with |- context [Nat.eqb ?a 0] => destruct (Nat.eqb_spec a 0) as [E0|_] end;
    [lia|].
  unfold MetricSweep.point_f1. f_equal. f_equal. lia.
Qed.

Lemma Zpos_of_nat (n : nat) : (1 <= n)%nat -> Z.pos (Pos.of_nat n) = Z.of_nat n.
Proof.
  intros Hn. rewrite <- positive_nat_Z, Nat2Pos.id by lia. reflexivity.
Qed.

Lemma point_f1_le (P : nat) (a b : MetricSweep.point) :
  (1 <= MetricSweep.tps a + MetricSweep.fps a)%nat ->
  (1 <= MetricSweep.tps b + MetricSweep.fps b)%nat ->
  (MetricSweep.point_f1 P a <= MetricSweep.point_f1 P b <->
   (MetricSweep.tps a * (MetricSweep.tps b + MetricSweep.fps b + P)
    <= MetricSweep.tps b * (MetricSweep.tps a + MetricSweep.fps a + P))%nat).
Proof.
  intros Ha Hb. unfold MetricSweep.point_f1, Qle. simpl Qnum. simpl Qden.
  rewrite !Zpos_of_nat by lia. rewrite <- !Nat2Z.inj_mul, <- Nat2Z.inj_le. lia.
Qed.

Lemma point_f1_lt (P : nat) (a b : MetricSweep.point) :
  (1 <= MetricSweep.tps a + MetricSweep.fps a)%nat ->
  (1 <= MetricSweep.tps b + MetricSweep.fps b)%nat ->
  (MetricSweep.point_f1 P a < MetricSweep.point_f1 P b <->
   (MetricSweep.tps a * (MetricSweep.tps b + MetricSweep.fps b + P)
    < MetricSweep.tps b * (MetricSweep.tps a + MetricSweep.fps a + P))%nat).
Proof.
  intros Ha Hb. unfold MetricSweep.point_f1, Qlt. simpl Qnum. simpl Qden.
  rewrite !Zpos_of_nat by lia. rewrite <- !Nat2Z.inj_mul, <- Nat2Z.inj_lt. lia.
Qed.

(** Across a point that is no corner the F1 moves in one direction. *)
Lemma no_corner_monotone (P : nat) (a b c : MetricSweep.point) :
  (1 <= MetricSweep.tps a + MetricSweep.fps a)%nat ->
  (1 <= MetricSweep.tps b + MetricSweep.fps b)%nat ->
  (1 <= MetricSweep.tps c + MetricSweep.fps c)%nat ->
  MetricSweep.corner a b c = false ->
  (MetricSweep.point_f1 P a <= MetricSweep.point_f1 P b -> MetricSweep.point_f1 P b <= MetricSweep.point_f1 P c) /\
  (MetricSweep.point_f1 P c < MetricSweep.point_f1 P b -> MetricSweep.point_f1 P b < MetricSweep.point_f1 P a).
Proof.
  intros Ha Hb Hc Hno. unfold MetricSweep.corner in Hno.
  apply orb_false_elim in Hno. destruct Hno as [Hf Ht].
  apply negb_false_iff, Nat.eqb_eq in Hf. apply negb_false_iff, Nat.eqb_eq in Ht.
  rewrite !point_f1_le, !point_f1_lt by assumption.
  destruct a as [fa ta tha], b as [fb tb thb], c as [fc tc thc]. simpl in *.
  split; intros H; nia.
Qed.

End DominanceFacts.

Section ChainFacts.
Local Open Scope Q_scope.

(** Every point of the curve has a kept point of at least its F1. *)
Lemma drop_mid_dominates (P : nat) (l : list MetricSweep.point) :
  Forall (fun p => (1 <= MetricSweep.tps p + MetricSweep.fps p)%nat) l ->
  forall (prev : MetricSweep.point) (K : list MetricSweep.point),
    (1 <= MetricSweep.tps prev + MetricSweep.fps prev)%nat ->
    (forall cur, hd_error l = Some cur ->
       (exists q, In q K /\ MetricSweep.point_f1 P prev <= MetricSweep.point_f1 P q) \/
       MetricSweep.point_f1 P prev <= MetricSweep.point_f1 P cur) ->
    forall p, In p l ->
      exists q, In q (K ++ MetricSweep.drop_mid prev l) /\ MetricSweep.point_f1 P p <= MetricSweep.point_f1 P q.
Proof.
  induction 1 as [|cur rest Hcur Hrest IH]; intros prev K Hprev Hinv p Hp; [destruct Hp|].
  destruct rest as [|next rest'].
  - destruct Hp as [<-|[]]. exists cur. split; [|apply Qle_refl].
    apply in_or_app. right. simpl. now left.
  - rewrite drop_mid_cons2.
    assert (Hnext : (1 <= MetricSweep.tps next + MetricSweep.fps next)%nat)
      by (inversion Hrest; assumption).
    destruct (MetricSweep.corner prev cur next) eqn:Ec.
    + destruct Hp as [<-|Hp].
      * exists cur. split; [|apply Qle_refl]. apply in_or_app. right. now left.
      * destruct (IH cur (K ++ [cur]) Hcur) with (p := p) as [q [Hq Hle]].
        -- intros c _. left. exists cur. split; [|apply Qle_refl].
           apply in_or_app. right. now left.
        -- exact Hp.
        -- exists q. split; [|exact Hle].
           rewrite <- app_assoc in Hq. exact Hq.
    + destruct (@no_corner_monotone P prev cur next Hprev Hcur Hnext Ec) as [Hup Hdown].
      assert (Hinv' : (exists q, In q K /\ MetricSweep.point_f1 P cur <= MetricSweep.point_f1 P q) \/
                      MetricSweep.point_f1 P cur <= MetricSweep.point_f1 P next).
      { destruct (Qlt_le_dec (MetricSweep.point_f1 P next) (MetricSweep.point_f1 P cur)) as [Hlt|Hle];
          [|right; exact Hle].
        left. specialize (Hdown Hlt).
        destruct (Hinv cur eq_refl) as [[q [Hq Hle]]|Hle].
        - exists q. split; [exact Hq|].
          eapply Qle_trans; [apply Qlt_le_weak; exact Hdown|exact Hle].
        - exfalso. apply (Qlt_not_le _ _ Hdown). exact Hle. }
      assert (Hall : forall p', In p' (next :: rest') ->
                exists q, In q (K ++ MetricSweep.drop_mid cur (next :: rest')) /\
                          MetricSweep.point_f1 P p' <= MetricSweep.point_f1 P q).
      { intros p' Hp'. apply (IH cur K Hcur); [|exact Hp'].
        intros c Hc. injection Hc as <-. exact Hinv'. }
      destruct Hp as [<-|Hp]; [|apply Hall; exact Hp].
      destruct Hinv' as [[q [Hq Hle]]|Hle].
      * exists q. split; [apply in_or_app; now left|exact Hle].
      * destruct (Hall next (or_introl eq_refl)) as [q [Hq Hle']].
        exists q. split; [exact Hq|]. eapply Qle_trans; [exact Hle|exact Hle'].
Qed.

Lemma drop_intermediate_dominates (P : nat) (l : list MetricSweep.point) :
  Forall (fun p => (1 <= MetricSweep.tps p + MetricSweep.fps p)%nat) l ->
  forall p, In p l ->
    exists q, In q (MetricSweep.drop_intermediate l) /\ MetricSweep.point_f1 P p <= MetricSweep.point_f1 P q.
Proof.
  intros Hall p Hp. destruct l as [|p0 rest]; [destruct Hp|].
  inversion Hall as [|? ? H0 Hrest]; subst. simpl MetricSweep.drop_intermediate.
  destruct Hp as [<-|Hp].
  - exists p0. split; [now left|apply Qle_refl].
  - apply (@drop_mid_dominates P rest Hrest p0 [p0] H0); [|exact Hp].
    intros cur _. left. exists p0. split; [now left|apply Qle_refl].
Qed.

Lemma in_combine_of_left {A B : Type} (a : A) (l : list A) (l' : list B) :
  length l = length l' -> In a l -> exists b, In (a, b) (combine l l').
Proof.
  revert l'. induction l as [|x l IH]; intros [|y l'] Hlen Ha;
    try discriminate Hlen; [destruct Ha|].
  injection Hlen as Hlen. destruct Ha as [->|Ha].
  - exists y. now left.
  - destruct (IH l' Hlen Ha) as [b Hb]. exists b. now right.
Qed.

(** No observed score has a larger F1 than the best of the kept
    thresholds. *)
Lemma kept_thresholds_suffice (y_true : list bool) (y_score : list Q) (s : Q) :
  length y_true = length y_score -> In s y_score ->
  exists q,
    In q (MetricSweep.drop_intermediate
            (MetricSweep.clf_curve (MetricSweep.sort_desc y_true y_score) 0 0)) /\
    MetricSweep.f1_at y_true y_score (MetricSweep.Fin s)
    <= MetricSweep.f1_at y_true y_score (MetricSweep.Fin (MetricSweep.thr q)).
Proof.
  intros Hlen Hs.
  destruct (@in_combine_of_left _ _ s y_score y_true (eq_sym Hlen) Hs) as [b Hb].
  apply (Permutation_in _ (Permutation_sym (sort_desc_perm y_true y_score))) in Hb.
  destruct (@clf_curve_covers _ _ Hb 0 0) as [p [Hp Ep]]. simpl in Ep.
  set (pts := MetricSweep.clf_curve (MetricSweep.sort_desc y_true y_score) 0 0) in *.
  assert (Hall : Forall (fun p => (1 <= MetricSweep.tps p + MetricSweep.fps p)%nat) pts).
  { apply Forall_forall. intros p' Hp'. apply (@curve_point_counts y_true y_score p' Hp'). }
  destruct (@drop_intermediate_dominates (MetricSweep.positives y_true) pts Hall p Hp) as [q [Hq Hle]].
  exists q. split; [exact Hq|].
  destruct (@drop_intermediate_sorted MetricSweep.thr_decreasing pts) as [_ Hsub].
  { apply clf_curve_sorted. apply sort_desc_sorted. }
  rewrite <- (@f1_at_Qeq y_true y_score _ _ Ep).
  rewrite (@f1_at_point y_true y_score p Hlen Hp).
  rewrite (@f1_at_point y_true y_score q Hlen (Hsub q Hq)).
  exact Hle.
Qed.

End ChainFacts.

Section SweepFacts.
Local Open Scope Q_scope.

Lemma roc_curve_spec (y_true : list bool) (y_score : list Q) :
  length y_true = length y_score -> y_score <> [] ->
  exists qs,
    MetricSweep.roc_curve y_true y_score
    = Ok (MetricSweep.PInf :: map MetricSweep.Fin qs) /\
    StronglySorted MetricSweep.decreasing qs /\
    (forall q, In q qs -> In q y_score) /\
    (forall s, In s y_score ->
       exists q, In q qs /\
         MetricSweep.f1_at y_true y_score (MetricSweep.Fin s)
         <= MetricSweep.f1_at y_true y_score (MetricSweep.Fin q)).
Proof.
  intros Hlen Hne.
  destruct (clf_curve_sorted (sort_desc_sorted y_true y_score) 0 0) as [Hs Hin].
  destruct (drop_intermediate_sorted Hs) as [Hds Hdin].
  exists (map MetricSweep.thr
            (MetricSweep.drop_intermediate
               (MetricSweep.clf_curve (MetricSweep.sort_desc y_true y_score) 0 0))).
  split; [|split; [|split]].
  - unfold MetricSweep.roc_curve. rewrite Hlen, Nat.eqb_refl. simpl negb. cbv iota.
    destruct y_score as [|s ss]; [contradiction|]. simpl length. simpl Nat.eqb.
    cbv iota. rewrite map_map. reflexivity.
  - apply StronglySorted_map. exact Hds.
  - intros q Hq. apply in_map_iff in Hq. destruct Hq as [p [<- Hp]].
    destruct (Hin p (Hdin p Hp)) as [z [Hz ->]].
    eapply sort_desc_in. exact Hz.
  - intros s Hs'. destruct (@kept_thresholds_suffice y_true y_score s Hlen Hs')
      as [q [Hq Hle]].
    exists (MetricSweep.thr q). split; [apply in_map; exact Hq|exact Hle].
Qed.

Lemma best_threshold_total (y_true : list bool) (y_score : list Q) :
  length y_true = length y_score -> y_score <> [] ->
  exists t, MetricSweep.best_threshold y_true y_score = Ok t.
Proof.
  intros Hlen Hne.
  destruct (roc_curve_spec y_true Hlen Hne) as [qs [Er _]].
  set (f := MetricSweep.f1_at y_true y_score).
  set (ts := map MetricSweep.Fin qs) in *.
  destruct (np_argmax_spec (f MetricSweep.PInf) (map f ts)) as [i [v [Ea [Hv _]]]].
  change (f MetricSweep.PInf :: map f ts) with (map f (MetricSweep.PInf :: ts)) in *.
  rewrite nth_error_map in Hv.
  destruct (nth_error (MetricSweep.PInf :: ts) i) as [t|] eqn:Et; [|discriminate Hv].
  exists t. unfold MetricSweep.best_threshold. rewrite Er, bind_ok.
  fold f. fold ts. rewrite Ea, bind_ok, Et. reflexivity.
Qed.

Lemma no_positive_no_tp (y_true y_pred : list bool) :
  forallb negb y_true = true ->
  MetricSweep.count2 (fun y p => y && p)%bool y_true y_pred = 0%nat.
Proof.
  unfold MetricSweep.count2. revert y_pred.
  induction y_true as [|y ys IH]; intros y_pred Hall; [reflexivity|].
  simpl in Hall. apply andb_prop in Hall. destruct Hall as [Hy Hys].
  destruct y; [discriminate Hy|].
  destruct y_pred as [|p ps]; [reflexivity|]. simpl. apply IH. exact Hys.
Qed.

Lemma f1_no_positive (y_true y_pred : list bool) :
  forallb negb y_true = true -> Qnum (MetricSweep.f1_score y_true y_pred) = 0%Z.
Proof.
  intros Hall. unfold MetricSweep.f1_score.
  rewrite (no_positive_no_tp y_true y_pred Hall).
  match goal with |- context [Nat.eqb ?a 0] => destruct (Nat.eqb a 0) end;
    reflexivity.
Qed.

Lemma best_threshold_no_positive (y_true : list bool) (y_score : list Q) :
  length y_true = length y_score -> y_score <> [] ->
  forallb negb y_true = true ->
  MetricSweep.best_threshold y_true y_score = Ok MetricSweep.PInf.
Proof.
  intros Hlen Hne Hall.
  destruct (roc_curve_spec y_true Hlen Hne) as [qs [Er _]].
  unfold MetricSweep.best_threshold. rewrite Er, bind_ok.
  simpl map. unfold MetricSweep.np_argmax.
  rewrite argmax_from_keeps; [reflexivity|].
  intros x Hx. apply in_map_iff in Hx. destruct Hx as [t [<- _]].
  unfold Qle_bool, MetricSweep.f1_at. rewrite !f1_no_positive by exact Hall.
  reflexivity.
Qed.

End SweepFacts.

(** C4 (as the code has it): for labels and scores of the same non-zero
    length the candidates are the thresholds of [roc_curve]: first +inf,
    then observed scores in strictly decreasing order (the scores that
    [drop_intermediate] removes are no candidates).  The sweep returns a
    candidate whose F1 under the rule score >= threshold is at least the F1
    of every candidate, and every candidate before it in that order has a
    strictly smaller F1: among maximal candidates it is the first in
    decreasing order, the largest.  No observed score, candidate or not,
    has a larger F1 than the returned threshold. *)
Theorem best_threshold_is_first_maximal_descending
        (y_true : list bool) (y_score : list Q) :
  length y_true = length y_score -> y_score <> [] ->
  exists qs i t,
    MetricSweep.roc_curve y_true y_score
    = Ok (MetricSweep.PInf :: map MetricSweep.Fin qs) /\
    StronglySorted MetricSweep.decreasing qs /\
    (forall q, In q qs -> In q y_score) /\
    MetricSweep.best_threshold y_true y_score = Ok t /\
    nth_error (MetricSweep.PInf :: map MetricSweep.Fin qs) i = Some t /\
    (forall c, In c (MetricSweep.PInf :: map MetricSweep.Fin qs) ->
       (MetricSweep.f1_at y_true y_score c <= MetricSweep.f1_at y_true y_score t)%Q) /\
    (forall j c, j < i ->
       nth_error (MetricSweep.PInf :: map MetricSweep.Fin qs) j = Some c ->
       (MetricSweep.f1_at y_true y_score c < MetricSweep.f1_at y_true y_score t)%Q) /\
    (forall s, In s y_score ->
       (MetricSweep.f1_at y_true y_score (MetricSweep.Fin s)
        <= MetricSweep.f1_at y_true y_score t)%Q).
Proof.
  intros Hlen Hne.
  destruct (roc_curve_spec y_true Hlen Hne) as [qs [Er [Hs [Hin Hdom]]]].
  set (f := MetricSweep.f1_at y_true y_score).
  set (ts := map MetricSweep.Fin qs) in *.
  destruct (np_argmax_spec (f MetricSweep.PInf) (map f ts)) as [i [v [Ea [Hv [Hle Hlt]]]]].
  change (f MetricSweep.PInf :: map f ts) with (map f (MetricSweep.PInf :: ts)) in *.
  rewrite nth_error_map in Hv.
  destruct (nth_error (MetricSweep.PInf :: ts) i) as [t|] eqn:Et; [|discriminate Hv].
  simpl in Hv. injection Hv as <-.
  exists qs, i, t.
  split; [exact Er|]. split; [exact Hs|]. split; [exact Hin|].
  split; [|split; [|split; [|split]]].
  - unfold MetricSweep.best_threshold. rewrite Er, bind_ok.
    fold f. fold ts. rewrite Ea, bind_ok, Et. reflexivity.
  - exact Et.
  - intros c Hc. apply Hle. apply in_map. exact Hc.
  - intros j c Hj Hc. apply (Hlt j); [exact Hj|].
    rewrite nth_error_map. subst ts. rewrite Hc. reflexivity.
  - intros s Hs'. destruct (Hdom s Hs') as [q [Hq Hq']].
    eapply Qle_trans; [exact Hq'|]. apply Hle.
    apply (in_map f (MetricSweep.PInf :: ts) (MetricSweep.Fin q)).
    right. apply in_map. exact Hq.
Qed.

Lemma best_threshold_is_first_maximal_descending_witness :
  exists qs i t,
    MetricSweep.roc_curve [true; false; false; true] [4; 3; 2; 1]%Q
    = Ok (MetricSweep.PInf :: map MetricSweep.Fin qs) /\
    StronglySorted MetricSweep.decreasing qs /\
    (forall q, In q qs -> In q [4; 3; 2; 1]%Q) /\
    MetricSweep.best_threshold [true; false; false; true] [4; 3; 2; 1]%Q = Ok t /\
    nth_error (MetricSweep.PInf :: map MetricSweep.Fin qs) i = Some t /\
    (forall c, In c (MetricSweep.PInf :: map MetricSweep.Fin qs) ->
       (MetricSweep.f1_at [true; false; false; true] [4; 3; 2; 1] c
        <= MetricSweep.f1_at [true; false; false; true] [4; 3; 2; 1] t)%Q) /\
    (forall j c, j < i ->
       nth_error (MetricSweep.PInf :: map MetricSweep.Fin qs) j = Some c ->
       (MetricSweep.f1_at [true; false; false; true] [4; 3; 2; 1] c
        < MetricSweep.f1_at [true; false; false; true] [4; 3; 2; 1] t)%Q) /\
    (forall s, In s [4; 3; 2; 1]%Q ->
       (MetricSweep.f1_at [true; false; false; true] [4; 3; 2; 1] (MetricSweep.Fin s)
        <= MetricSweep.f1_at [true; false; false; true] [4; 3; 2; 1] t)%Q).
Proof.
  apply (@best_threshold_is_first_maximal_descending
           [true; false; false; true] [4; 3; 2; 1]%Q).
  - reflexivity.
  - discriminate.
Defined.

(** C4 fails as stated: for the scores 4, 3, 2, 1 with labels 1, 0, 0, 1
    the thresholds 4 and 1 both reach the maximal F1 of 2/3; the ascending
    sweep of the specification returns 1, the code returns 4.  The score 3
    is no candidate of the code and +inf, which is no score, is one. *)
Lemma tie_goes_to_the_largest_threshold :
  MetricSweep.roc_curve [true; false; false; true] [4; 3; 2; 1]%Q
  = Ok [MetricSweep.PInf; MetricSweep.Fin 4; MetricSweep.Fin 2; MetricSweep.Fin 1] /\
  MetricSweep.spec_candidates [4; 3; 2; 1]%Q = [1; 2; 3; 4]%Q /\
  MetricSweep.f1_at [true; false; false; true] [4; 3; 2; 1]%Q (MetricSweep.Fin 4) = (2 # 3)%Q /\
  (MetricSweep.f1_at [true; false; false; true] [4; 3; 2; 1]%Q (MetricSweep.Fin 1) == 2 # 3)%Q /\
  MetricSweep.spec_calibrate_by_metric [true; false; false; true] [4; 3; 2; 1]%Q = Some 1%Q /\
  MetricSweep.best_threshold [true; false; false; true] [4; 3; 2; 1]%Q
  = Ok (MetricSweep.Fin 4) /\
  ~ (4 == 1)%Q.
Proof.
  split; [vm_compute; reflexivity|].
  split; [vm_compute; reflexivity|].
  split; [vm_compute; reflexivity|].
  split; [vm_compute; reflexivity|].
  split; [vm_compute; reflexivity|].
  split; [vm_compute; reflexivity|].
  intros H. vm_compute in H. discriminate H.
Qed.

(** C8 (as the code has it): the sweep does not look at the classes.  For
    labels and scores of the same non-zero length it returns a threshold,
    also when the labels hold one class; when no label is 1 every F1 is 0
    and it returns +inf, the first candidate. *)
Theorem best_threshold_ignores_classes (y_true : list bool) (y_score : list Q) :
  length y_true = length y_score -> y_score <> [] ->
  (exists t, MetricSweep.best_threshold y_true y_score = Ok t) /\
  (forallb negb y_true = true ->
   MetricSweep.best_threshold y_true y_score = Ok MetricSweep.PInf).
Proof.
  intros Hlen Hne. split.
  - apply best_threshold_total; assumption.
  - apply best_threshold_no_positive; assumption.
Qed.

Lemma best_threshold_ignores_classes_witness :
  (exists t, MetricSweep.best_threshold [false; false] [1; 2]%Q = Ok t) /\
  MetricSweep.best_threshold [false; false] [1; 2]%Q = Ok MetricSweep.PInf.
Proof.
  destruct (@best_threshold_ignores_classes [false; false] [1; 2]%Q) as [H1 H2].
  - reflexivity.
  - discriminate.
  - split; [exact H1|apply H2; reflexivity].
Defined.

(** C8 fails as stated: with labels of one class the sweep returns a
    threshold. *)
Lemma one_class_still_gives_a_threshold :
  MetricSweep.single_class [false; false] = true /\
  MetricSweep.best_threshold [false; false] [1; 2]%Q = Ok MetricSweep.PInf /\
  MetricSweep.single_class [true; true] = true /\
  MetricSweep.best_threshold [true; true] [1; 2]%Q = Ok (MetricSweep.Fin 1).
Proof.
  split; [reflexivity|]. split; [vm_compute; reflexivity|].
  split; [reflexivity|]. vm_compute; reflexivity.
Qed.

(* ------------------------------------------------------------------ *)
(** * Further properties of the notebook's code *)

(* ------------------------------------------------------------------ *)
(** ** Ranges of values through the extractor *)

Section RangeFacts.
Variables lo hi : R.

Lemma Rsum_within (l : list R) :
  Notebook.within lo hi l ->
  (INR (length l) * lo <= Rsum l <= INR (length l) * hi)%R.
Proof.
  induction 1 as [|v l Hv _ IH].
  - simpl. lra.
  - change (length (v :: l)) with (S (length l)). rewrite S_INR.
    simpl Rsum. lra.
Qed.

Lemma mean_within (l : list R) :
  l <> [] -> Notebook.within lo hi l ->
  (lo <= Rsum l / INR (length l) <= hi)%R.
Proof.
  intros Hne Hl. destruct (Rsum_within Hl) as [H1 H2].
  assert (Hn : (0 < INR (length l))%R).
  { apply lt_0_INR. destruct l; [contradiction|simpl; lia]. }
  assert (E : (Rsum l / INR (length l) * INR (length l) = Rsum l)%R)
    by (field; lra).
  split; apply Rmult_le_reg_r with (INR (length l)); try exact Hn; rewrite E; lra.
Qed.

Lemma get2_within (H W : nat) (ch : channel) (r c : nat) :
  channel_shape H W ch -> Notebook.channel_within lo hi ch ->
  r < H -> c < W -> (lo <= get2 ch r c <= hi)%R.
Proof.
  intros [Hh Hrows] Hin Hr Hc. unfold get2.
  assert (Hrow : In (nth r ch []) ch) by (apply nth_In; lia).
  unfold Notebook.channel_within in Hin.
  rewrite Forall_forall in Hrows. rewrite Forall_forall in Hin.
  specialize (Hrows _ Hrow). specialize (Hin _ Hrow).
  unfold Notebook.within in Hin. rewrite Forall_forall in Hin.
  apply Hin. apply nth_In. lia.
Qed.

Lemma window_length (ch : channel) (r0 r1 c0 c1 : nat) :
  length (window ch r0 r1 c0 c1) = (r1 - r0) * (c1 - c0).
Proof.
  unfold window.
  assert (G : forall rows : list nat,
             length (flat_map (fun r => map (fun c => get2 ch r c) (seq c0 (c1 - c0))) rows)
             = length rows * (c1 - c0)).
  { induction rows as [|r rows IH]; [reflexivity|].
    simpl. rewrite length_app, length_map, length_seq, IH. reflexivity. }
  rewrite G, length_seq. reflexivity.
Qed.

Lemma window_within (H W : nat) (ch : channel) (r0 r1 c0 c1 : nat) :
  channel_shape H W ch -> Notebook.channel_within lo hi ch ->
  r1 <= H -> c1 <= W -> Notebook.within lo hi (window ch r0 r1 c0 c1).
Proof.
  intros Hs Hin Hr Hc. unfold Notebook.within, window.
  apply Forall_forall. intros v Hv. apply in_flat_map in Hv.
  destruct Hv as [r [Hr' Hv]]. apply in_map_iff in Hv. destruct Hv as [c [<- Hc']].
  apply in_seq in Hr'. apply in_seq in Hc'.
  apply (get2_within Hs Hin); lia.
Qed.

Lemma window_mean_within (H W : nat) (ch : channel) (r0 r1 c0 c1 : nat) :
  channel_shape H W ch -> Notebook.channel_within lo hi ch ->
  r0 < r1 -> r1 <= H -> c0 < c1 -> c1 <= W ->
  (lo <= window_mean ch r0 r1 c0 c1 <= hi)%R.
Proof.
  intros Hs Hin Hr0 Hr1 Hc0 Hc1. unfold window_mean.
  rewrite <- (window_length ch r0 r1 c0 c1).
  apply mean_within; [|apply (window_within r0 c0 Hs Hin Hr1 Hc1)].
  intros E. apply (f_equal (@length R)) in E. rewrite window_length in E.
  simpl in E. nia.
Qed.

End RangeFacts.

(** The window of an adaptive pooling cell is not empty and stays inside
    the input. *)
Lemma adaptive_window_bounds (i out inp : nat) :
  i < out -> 1 <= inp ->
  start_index i out inp < end_index i out inp /\ end_index i out inp <= inp.
Proof.
  intros Hi HH. unfold start_index, end_index.
  assert (HS : out <> 0) by lia.
  assert (Hq := Nat.Div0.mul_div_le (i * inp) out).
  split.
  - apply Nat.lt_le_trans with (S (i * inp / out)); [lia|].
    apply Nat.div_le_lower_bound; [exact HS|]. nia.
  - apply Nat.lt_succ_r. apply Nat.Div0.div_lt_upper_bound. nia.
Qed.

Lemma concat_channel_length (H W : nat) (ch : channel) :
  channel_shape H W ch -> length (concat ch) = H * W.
Proof.
  intros [<- Hrows]. induction ch as [|row ch IH]; [reflexivity|].
  inversion Hrows; subst. simpl. rewrite length_app, IH by assumption. reflexivity.
Qed.

(** Entry r*W + c of a map flattened row by row is its entry (r, c). *)
Lemma nth_concat_get2 (H W : nat) (ch : channel) (r c : nat) :
  channel_shape H W ch -> r < H -> c < W ->
  nth (r * W + c) (concat ch) 0%R = get2 ch r c.
Proof.
  intros [Hh Hrows]. revert H r Hh. induction ch as [|row ch IH]; intros H r Hh Hr Hc.
  - simpl in Hh. lia.
  - inversion Hrows as [|? ? Hrow Hrest]; subst. simpl concat.
    destruct r as [|r].
    + simpl. rewrite app_nth1 by lia. reflexivity.
    + rewrite app_nth2 by (simpl; lia).
      replace (S r * length row + c - length row) with (r * length row + c)
        by (simpl; lia).
      simpl in Hr. rewrite (IH Hrest (length ch) r eq_refl) by lia. reflexivity.
Qed.

Lemma grid_of_get2 (H W : nat) (ch : channel) :
  channel_shape H W ch ->
  map (fun r => map (fun c => get2 ch r c) (seq 0 W)) (seq 0 H) = ch.
Proof.
  intros [Hh Hrows]. subst H.
  rewrite <- (map_nth_seq [] ch) at 2.
  apply map_ext_in. intros r Hr. apply in_seq in Hr.
  assert (Hrow : length (nth r ch []) = W).
  { rewrite Forall_forall in Hrows. apply Hrows. apply nth_In. lia. }
  unfold get2. rewrite <- Hrow. apply map_nth_seq.
Qed.

Section GridRange.
Variables lo hi : R.

Lemma grid_within {A : Type} (g : A -> nat -> nat -> R) (n m : nat) (f : list A) :
  (forall ch i j, In ch f -> i < n -> j < m -> (lo <= g ch i j <= hi)%R) ->
  Notebook.fmap_within lo hi
    (map (fun ch => map (fun i => map (fun j => g ch i j) (seq 0 m)) (seq 0 n)) f).
Proof.
  intros Hg. apply Forall_forall. intros ch Hch. apply in_map_iff in Hch.
  destruct Hch as [ch0 [<- Hch0]].
  apply Forall_forall. intros row Hrow. apply in_map_iff in Hrow.
  destruct Hrow as [i [<- Hi]]. apply in_seq in Hi.
  apply Forall_forall. intros v Hv. apply in_map_iff in Hv.
  destruct Hv as [j [<- Hj]]. apply in_seq in Hj.
  apply Hg; [exact Hch0|lia|lia].
Qed.

Lemma AvgPool2d_3_1_within (C H W : nat) (f a : fmap) :
  has_shape C H W f -> 1 <= C -> 3 <= H -> 3 <= W ->
  Notebook.fmap_within lo hi f -> AvgPool2d 3 1 f = Ok a ->
  Notebook.fmap_within lo hi a.
Proof.
  intros Hs HC HH HW Hin Ea. unfold AvgPool2d in Ea.
  rewrite (shape_H_of Hs HC), (shape_W_of Hs HC) in Ea by lia.
  destruct (Nat.ltb_spec H 3) as [?|_]; [lia|].
  destruct (Nat.ltb_spec W 3) as [?|_]; [lia|].
  simpl orb in Ea. cbv iota in Ea. injection Ea as <-.
  unfold pool_out. rewrite !Nat.div_1_r.
  apply grid_within. intros ch i j Hch Hi Hj.
  destruct Hs as [_ Hall]. rewrite Forall_forall in Hall.
  unfold Notebook.fmap_within in Hin. rewrite Forall_forall in Hin.
  apply (window_mean_within (Hall ch Hch) (Hin ch Hch)); lia.
Qed.

Lemma AdaptiveAvgPool2d_within (C H W out : nat) (f : fmap) :
  has_shape C H W f -> 1 <= C -> 1 <= H -> 1 <= W ->
  Notebook.fmap_within lo hi f ->
  Notebook.fmap_within lo hi (AdaptiveAvgPool2d out f).
Proof.
  intros Hs HC HH HW Hin. unfold AdaptiveAvgPool2d.
  rewrite (shape_H_of Hs HC), (shape_W_of Hs HC) by lia.
  apply grid_within. intros ch i j Hch Hi Hj.
  destruct Hs as [_ Hall]. rewrite Forall_forall in Hall.
  unfold Notebook.fmap_within in Hin. rewrite Forall_forall in Hin.
  destruct (adaptive_window_bounds Hi HH) as [Hr0 Hr1].
  destruct (adaptive_window_bounds Hj HW) as [Hc0 Hc1].
  apply (window_mean_within (Hall ch Hch) (Hin ch Hch)); assumption.
Qed.

Lemma reshape_T_within (C n : nat) (patch : fmap) :
  has_shape C n n patch -> 1 <= C ->
  Notebook.fmap_within lo hi patch ->
  Forall (Notebook.within lo hi) (reshape_T patch).
Proof.
  intros Hs HC Hin. unfold reshape_T.
  assert (Hn : shape_H patch * shape_W patch = n * n).
  { rewrite (shape_H_of Hs HC). destruct n as [|n']; [reflexivity|].
    rewrite (shape_W_of Hs HC) by lia. reflexivity. }
  rewrite Hn. apply Forall_forall. intros v Hv. apply in_map_iff in Hv.
  destruct Hv as [p [<- Hp]]. apply in_seq in Hp.
  apply Forall_forall. intros e He. apply in_map_iff in He.
  destruct He as [ch [<- Hch]].
  destruct Hs as [_ Hall]. rewrite Forall_forall in Hall.
  unfold Notebook.fmap_within in Hin. rewrite Forall_forall in Hin.
  assert (Hl : length (concat ch) = n * n) by (apply concat_channel_length, Hall, Hch).
  assert (Hc : In (nth p (concat ch) 0%R) (concat ch)) by (apply nth_In; lia).
  apply in_concat in Hc. destruct Hc as [row [Hrow Hv]].
  specialize (Hin ch Hch). unfold Notebook.channel_within in Hin.
  rewrite Forall_forall in Hin. specialize (Hin row Hrow).
  unfold Notebook.within in Hin. rewrite Forall_forall in Hin. apply Hin. exact Hv.
Qed.

End GridRange.

Lemma forward_within (net : Extractor.resnet50) (input f2 f3 : fmap)
      (C2 H2 W2 C3 H3 W3 : nat) (lo hi : R) :
  f2 = Extractor.layer2 net (Extractor.layer1 net (Extractor.stem net input)) ->
  f3 = Extractor.layer3 net f2 ->
  has_shape C2 H2 W2 f2 -> has_shape C3 H3 W3 f3 ->
  1 <= C2 -> 1 <= C3 -> 3 <= H2 -> 3 <= W2 -> 3 <= H3 -> 3 <= W3 ->
  Notebook.fmap_within lo hi f2 -> Notebook.fmap_within lo hi f3 ->
  exists patch,
    Extractor.forward net input = Ok patch /\
    Forall (Notebook.within lo hi) patch.
Proof.
  intros E2 E3 S2 S3 HC2 HC3 HH2 HW2 HH3 HW3 I2 I3.
  destruct (forward_ok net input E2 E3 S2 S3 HC2 HC3 HH2 HW2 HH3 HW3)
    as [a2 [a3 [Ea2 [Ea3 [Sa2 [Sa3 Ef]]]]]].
  eexists. split; [exact Ef|].
  assert (J2 := AvgPool2d_3_1_within S2 HC2 HH2 HW2 I2 Ea2).
  assert (J3 := AvgPool2d_3_1_within S3 HC3 HH3 HW3 I3 Ea3).
  apply (@reshape_T_within lo hi (C2 + C3) H2); [|lia|].
  - apply has_shape_app.
    + destruct Sa2 as [<- _]. apply AdaptiveAvgPool2d_shape.
    + destruct Sa3 as [<- _]. apply AdaptiveAvgPool2d_shape.
  - apply Forall_app. split.
    + apply (AdaptiveAvgPool2d_within H2 Sa2); try lia. exact J2.
    + apply (AdaptiveAvgPool2d_within H2 Sa3); try lia. exact J3.
Qed.

(** X1: smoothing and resampling are averages, so the patch vectors stay
    within any bounds that hold for the two tapped activation maps. *)
Theorem forward_keeps_range (net : Extractor.resnet50) (input : fmap)
        (C2 H2 W2 C3 H3 W3 : nat) (lo hi : R) :
  has_shape C2 H2 W2 (nth 0 (Extractor.features_of net input) []) ->
  has_shape C3 H3 W3 (nth 1 (Extractor.features_of net input) []) ->
  1 <= C2 -> 1 <= C3 -> 3 <= H2 -> 3 <= W2 -> 3 <= H3 -> 3 <= W3 ->
  Notebook.fmap_within lo hi (nth 0 (Extractor.features_of net input) []) ->
  Notebook.fmap_within lo hi (nth 1 (Extractor.features_of net input) []) ->
  exists patch,
    Extractor.forward net input = Ok patch /\
    Forall (Notebook.within lo hi) patch.
Proof.
  unfold Extractor.features_of. rewrite features_of_forward. cbn [nth].
  intros S2 S3 HC2 HC3 HH2 HW2 HH3 HW3 I2 I3.
  apply (forward_within net input eq_refl eq_refl S2 S3); assumption.
Qed.

Lemma zeros_within (C H W : nat) : Notebook.fmap_within 0 0 (zeros C H W).
Proof.
  unfold zeros. apply Forall_forall. intros ch Hch. apply repeat_spec in Hch. subst ch.
  apply Forall_forall. intros row Hrow. apply repeat_spec in Hrow. subst row.
  apply Forall_forall. intros v Hv. apply repeat_spec in Hv. subst v. lra.
Qed.

Lemma forward_keeps_range_witness :
  exists patch,
    Extractor.forward Extractor.const_net (zeros 3 224 224) = Ok patch /\
    Forall (Notebook.within 0 0) patch.
Proof.
  apply (@forward_keeps_range Extractor.const_net (zeros 3 224 224)
           512 28 28 1024 14 14 0%R 0%R).
  - apply zeros_shape.
  - apply zeros_shape.
  - lia.
  - lia.
  - lia.
  - lia.
  - lia.
  - lia.
  - apply zeros_within.
  - apply zeros_within.
Defined.

(** X2: row r*S + c of the extractor's output is the feature vector at
    grid position (r, c): the values of all resampled channels, layer2
    first, at that position. *)
Theorem forward_row_is_grid_cell (net : Extractor.resnet50) (input : fmap)
        (C2 H2 W2 C3 H3 W3 : nat) :
  has_shape C2 H2 W2 (nth 0 (Extractor.features_of net input) []) ->
  has_shape C3 H3 W3 (nth 1 (Extractor.features_of net input) []) ->
  1 <= C2 -> 1 <= C3 -> 3 <= H2 -> 3 <= W2 -> 3 <= H3 -> 3 <= W3 ->
  exists a2 a3 patch,
    Extractor.avg (nth 0 (Extractor.features_of net input) []) = Ok a2 /\
    Extractor.avg (nth 1 (Extractor.features_of net input) []) = Ok a3 /\
    Extractor.forward net input = Ok patch /\
    forall r c, r < H2 -> c < H2 ->
      nth (r * H2 + c) patch []
      = Notebook.grid_cell (AdaptiveAvgPool2d H2 a2 ++ AdaptiveAvgPool2d H2 a3) r c.
Proof.
  unfold Extractor.features_of. rewrite features_of_forward. cbn [nth].
  intros S2 S3 HC2 HC3 HH2 HW2 HH3 HW3.
  destruct (forward_ok net input eq_refl eq_refl S2 S3 HC2 HC3 HH2 HW2 HH3 HW3)
    as [a2 [a3 [Ea2 [Ea3 [Sa2 [Sa3 Ef]]]]]].
  exists a2, a3. eexists. split; [exact Ea2|]. split; [exact Ea3|].
  split; [exact Ef|]. intros r c Hr Hc.
  assert (RS : has_shape (C2 + C3) H2 H2
                 (AdaptiveAvgPool2d H2 a2 ++ AdaptiveAvgPool2d H2 a3)).
  { apply has_shape_app.
    - destruct Sa2 as [<- _]. apply AdaptiveAvgPool2d_shape.
    - destruct Sa3 as [<- _]. apply AdaptiveAvgPool2d_shape. }
  unfold reshape_T. rewrite (shape_H_of RS), (shape_W_of RS) by lia.
  rewrite (@nth_map_seq _ _ [] (H2 * H2) (r * H2 + c)) by nia.
  unfold Notebook.grid_cell. apply map_ext_in. intros ch Hch.
  destruct RS as [_ Hall]. rewrite Forall_forall in Hall.
  apply (nth_concat_get2 (Hall ch Hch) Hr Hc).
Qed.

Lemma forward_row_is_grid_cell_witness :
  exists a2 a3 patch,
    Extractor.avg (zeros 512 28 28) = Ok a2 /\
    Extractor.avg (zeros 1024 14 14) = Ok a3 /\
    Extractor.forward Extractor.const_net (zeros 3 224 224) = Ok patch /\
    forall r c, r < 28 -> c < 28 ->
      nth (r * 28 + c) patch []
      = Notebook.grid_cell (AdaptiveAvgPool2d 28 a2 ++ AdaptiveAvgPool2d 28 a3) r c.
Proof.
  apply (@forward_row_is_grid_cell Extractor.const_net (zeros 3 224 224)
           512 28 28 1024 14 14).
  - apply zeros_shape.
  - apply zeros_shape.
  - lia.
  - lia.
  - lia.
  - lia.
  - lia.
  - lia.
Defined.

(** X3: the view to 28 x 28 and the row-by-row flattening undo each other:
    a sequence of 784 entries is recovered from its view, and a 28 x 28 map
    is recovered by viewing its flattening. *)
Theorem view_flatten_round_trip (dist_score : list R) (m : channel) :
  length dist_score = 28 * 28 -> channel_shape 28 28 m ->
  (exists segm_map,
     Scorer.view_1_1_28_28 dist_score = Ok segm_map /\
     channel_shape 28 28 segm_map /\ concat segm_map = dist_score) /\
  Scorer.view_1_1_28_28 (concat m) = Ok m.
Proof.
  intros Hl Hm. split.
  - exists (Scorer.row_major 28 dist_score).
    split; [apply view_row_major; exact Hl|].
    split; [apply row_major_shape|apply concat_row_major; exact Hl].
  - rewrite view_row_major by (apply (concat_channel_length Hm)).
    f_equal. unfold Scorer.row_major.
    etransitivity; [|apply (grid_of_get2 Hm)].
    apply map_ext_in. intros r Hr. apply in_seq in Hr.
    apply map_ext_in. intros c Hc. apply in_seq in Hc.
    apply (nth_concat_get2 Hm); lia.
Qed.

Lemma view_flatten_round_trip_witness :
  (exists segm_map,
     Scorer.view_1_1_28_28 (repeat 0%R (28 * 28)) = Ok segm_map /\
     channel_shape 28 28 segm_map /\ concat segm_map = repeat 0%R (28 * 28)) /\
  Scorer.view_1_1_28_28 (concat (repeat (repeat 0%R 28) 28))
  = Ok (repeat (repeat 0%R 28) 28).
Proof.
  apply (@view_flatten_round_trip (repeat 0%R (28 * 28)) (repeat (repeat 0%R 28) 28)).
  - apply repeat_length.
  - split; [apply repeat_length|].
    apply Forall_forall. intros row Hrow. apply repeat_spec in Hrow. subst row.
    apply repeat_length.
Defined.

(* ------------------------------------------------------------------ *)
(** ** The upsampling *)

Lemma source_index_bounds (inp out dst : nat) :
  1 <= inp -> dst < out ->
  fst (Scorer.source_index inp out dst) < inp /\
  (0 <= snd (Scorer.source_index inp out dst) <= 1)%R.
Proof.
  intros Hi Hd. unfold Scorer.source_index. cbn [fst snd].
  set (num := inp * (2 * dst + 1) - out).
  assert (Ho : 2 * out <> 0) by lia.
  split.
  - apply Nat.Div0.div_lt_upper_bound. unfold num. nia.
  - assert (Hm : num mod (2 * out) < 2 * out) by (apply Nat.mod_upper_bound; exact Ho).
    assert (Hpos : (0 < INR (2 * out))%R) by (apply lt_0_INR; lia).
    assert (H0 : (0 <= INR (num mod (2 * out)))%R) by apply pos_INR.
    assert (H1 : (INR (num mod (2 * out)) <= INR (2 * out))%R) by (apply le_INR; lia).
    assert (E : (INR (num mod (2 * out)) / INR (2 * out) * INR (2 * out)
                 = INR (num mod (2 * out)))%R) by (field; lra).
    split; apply Rmult_le_reg_r with (INR (2 * out)); try exact Hpos; rewrite E; lra.
Qed.

Lemma next_index_bound (inp i0 : nat) : i0 < inp -> Scorer.next_index inp i0 < inp.
Proof.
  intros Hi. unfold Scorer.next_index.
  destruct (Nat.ltb_spec i0 (inp - 1)); lia.
Qed.

Lemma convex_within (lo hi l a b : R) :
  (0 <= l <= 1)%R -> (lo <= a <= hi)%R -> (lo <= b <= hi)%R ->
  (lo <= (1 - l) * a + l * b <= hi)%R.
Proof. intros Hl Ha Hb. split; nra. Qed.

Lemma interpolate_within (lo hi : R) (ih iw oh ow : nat) (x : channel) :
  channel_shape ih iw x -> 1 <= ih -> 1 <= iw ->
  Notebook.channel_within lo hi x ->
  Notebook.channel_within lo hi (Scorer.interpolate_bilinear oh ow x).
Proof.
  intros Hs Hh Hw Hin. unfold Scorer.interpolate_bilinear.
  assert (Eh : length x = ih) by apply Hs.
  assert (Ew : length (hd [] x) = iw).
  { destruct Hs as [Hl Hrows]. destruct x as [|row x]; [simpl in Hl; lia|].
    inversion Hrows; subst. reflexivity. }
  rewrite Eh, Ew.
  apply Forall_forall. intros row Hrow. apply in_map_iff in Hrow.
  destruct Hrow as [oy [<- Hoy]]. apply in_seq in Hoy.
  apply Forall_forall. intros v Hv. apply in_map_iff in Hv.
  destruct Hv as [ox [<- Hox]]. apply in_seq in Hox.
  destruct (@source_index_bounds ih oh oy Hh) as [Hh0 Hlh]; [lia|].
  destruct (@source_index_bounds iw ow ox Hw) as [Hw0 Hlw]; [lia|].
  assert (Hh1 := next_index_bound Hh0). assert (Hw1 := next_index_bound Hw0).
  apply convex_within; [exact Hlh| |];
    apply convex_within; try exact Hlw; apply (get2_within Hs Hin); assumption.
Qed.

(** X4: the upsampling is an interpolation: the output has the requested
    size and every output pixel lies within any bounds that hold for the
    input map. *)
Theorem interpolate_keeps_range (lo hi : R) (ih iw oh ow : nat) (x : channel) :
  channel_shape ih iw x -> 1 <= ih -> 1 <= iw ->
  Notebook.channel_within lo hi x ->
  channel_shape oh ow (Scorer.interpolate_bilinear oh ow x) /\
  forall oy ox, oy < oh -> ox < ow ->
    (lo <= get2 (Scorer.interpolate_bilinear oh ow x) oy ox <= hi)%R.
Proof.
  intros Hs Hh Hw Hin. split; [apply interpolate_shape|].
  intros oy ox Hoy Hox.
  apply (get2_within (interpolate_shape oh ow x)
           (interpolate_within oh ow Hs Hh Hw Hin) Hoy Hox).
Qed.

Lemma interpolate_keeps_range_witness :
  channel_shape 4 4 (Scorer.interpolate_bilinear 4 4 [[1; 2]; [3; 4]]%R) /\
  forall oy ox, oy < 4 -> ox < 4 ->
    (1 <= get2 (Scorer.interpolate_bilinear 4 4 [[1; 2]; [3; 4]]%R) oy ox <= 4)%R.
Proof.
  apply (@interpolate_keeps_range 1%R 4%R 2 2 4 4 [[1; 2]; [3; 4]]%R).
  - split; [reflexivity|]. repeat constructor.
  - lia.
  - lia.
  - repeat constructor; lra.
Defined.

(* ------------------------------------------------------------------ *)
(** ** More on the scorer *)

Lemma reshape_T_row (C n : nat) (patch : fmap) (r c : nat) :
  has_shape C n n patch -> 1 <= C -> r < n -> c < n ->
  nth (r * n + c) (reshape_T patch) [] = Notebook.grid_cell patch r c.
Proof.
  intros RS HC Hr Hc. unfold reshape_T.
  rewrite (shape_H_of RS), (shape_W_of RS) by lia.
  rewrite (@nth_map_seq _ _ [] (n * n) (r * n + c)) by nia.
  unfold Notebook.grid_cell. apply map_ext_in. intros ch Hch.
  destruct RS as [_ Hall]. rewrite Forall_forall in Hall.
  apply (nth_concat_get2 (Hall ch Hch) Hr Hc).
Qed.

Lemma get2_row_major (n : nat) (l : list R) (r c : nat) :
  r < n -> c < n -> get2 (Scorer.row_major n l) r c = nth (r * n + c) l 0%R.
Proof.
  intros Hr Hc. unfold get2, Scorer.row_major.
  rewrite (@nth_map_seq _ _ [] n r) by exact Hr.
  rewrite (@nth_map_seq _ _ 0%R n c) by exact Hc. reflexivity.
Qed.

Lemma is_maximum_unique (v w : R) (l : list R) :
  Scorer.is_maximum v l -> Scorer.is_maximum w l -> v = w.
Proof.
  intros [Hv Hlv] [Hw Hlw]. apply Rle_antisym; [apply Hlw|apply Hlv]; assumption.
Qed.

Section ScoreFacts.

Variable net : Extractor.resnet50.
Variable x : fmap.
Hypothesis Hnet : Extractor.resnet50_shapes net.
Hypothesis Hx : has_shape 3 224 224 x.

Lemma score_spec (memory_bank : matrix) :
  memory_bank <> [] -> Forall (fun v => length v = 1536) memory_bank ->
  exists features dist_score s_star,
    Extractor.forward net x = Ok features /\
    length features = 28 * 28 /\
    Forall (fun v => length v = 1536) features /\
    length dist_score = 28 * 28 /\
    (forall i, i < 28 * 28 ->
       Scorer.is_minimum (nth i dist_score 0%R)
         (map (fun b => Scorer.l2 (nth i features []) b) memory_bank)) /\
    Scorer.is_maximum s_star dist_score /\
    Scorer.score_grid features memory_bank
    = Ok (s_star, Scorer.row_major 28 dist_score) /\
    Scorer.score net x memory_bank
    = Ok (s_star, Scorer.interpolate_bilinear 224 224 (Scorer.row_major 28 dist_score)).
Proof.
  intros Hne Hbank.
  destruct (forward_784 Hnet Hx) as [features [Ef [Hlen Hdim]]].
  destruct (score_grid_spec Hlen Hdim Hne Hbank)
    as [dist_score [s_star [Hl [Hmin [Hmax [_ Hs]]]]]].
  exists features, dist_score, s_star.
  split; [exact Ef|]. split; [exact Hlen|]. split; [exact Hdim|].
  split; [exact Hl|]. split; [exact Hmin|]. split; [exact Hmax|].
  split; [exact Hs|].
  unfold Scorer.score. rewrite Ef, bind_ok, Hs, bind_ok. reflexivity.
Qed.

Lemma dist_score_nonneg (memory_bank : matrix) (features : matrix)
      (dist_score : list R) (i : nat) :
  Scorer.is_minimum (nth i dist_score 0%R)
    (map (fun b => Scorer.l2 (nth i features []) b) memory_bank) ->
  (0 <= nth i dist_score 0)%R.
Proof.
  intros [Hin _]. apply in_map_iff in Hin. destruct Hin as [b [<- _]].
  apply l2_nonneg.
Qed.

(** X5: cell (r, c) of the 28 x 28 map is the least distance from the
    feature vector at grid position (r, c) to a bank vector. *)
Theorem map_cell_is_nearest_distance_at_cell (memory_bank : matrix) :
  memory_bank <> [] -> Forall (fun v => length v = 1536) memory_bank ->
  exists a2 a3 features s_star segm_map,
    Extractor.avg (nth 0 (Extractor.features_of net x) []) = Ok a2 /\
    Extractor.avg (nth 1 (Extractor.features_of net x) []) = Ok a3 /\
    Extractor.forward net x = Ok features /\
    Scorer.score_grid features memory_bank = Ok (s_star, segm_map) /\
    forall r c, r < 28 -> c < 28 ->
      Scorer.is_minimum (get2 segm_map r c)
        (map (fun b =>
                Scorer.l2 (Notebook.grid_cell
                             (AdaptiveAvgPool2d 28 a2 ++ AdaptiveAvgPool2d 28 a3) r c) b)
             memory_bank).
Proof.
  intros Hne Hbank.
  destruct (score_spec Hne Hbank)
    as [features [dist_score [s_star [Ef [Hlen [Hdim [Hl [Hmin [Hmax [Hs _]]]]]]]]]].
  destruct (Hnet Hx) as [S2 S3].
  destruct (forward_ok net x eq_refl eq_refl S2 S3)
    as [a2 [a3 [Ea2 [Ea3 [Sa2 [Sa3 Ef']]]]]]; try lia.
  rewrite Ef in Ef'. injection Ef' as Ef'.
  exists a2, a3, features, s_star, (Scorer.row_major 28 dist_score).
  unfold Extractor.features_of. rewrite features_of_forward. cbn [nth].
  split; [exact Ea2|]. split; [exact Ea3|]. split; [exact Ef|]. split; [exact Hs|].
  intros r c Hr Hc.
  assert (RS : has_shape (512 + 1024) 28 28
                 (AdaptiveAvgPool2d 28 a2 ++ AdaptiveAvgPool2d 28 a3)).
  { apply has_shape_app.
    - destruct Sa2 as [<- _]. apply AdaptiveAvgPool2d_shape.
    - destruct Sa3 as [<- _]. apply AdaptiveAvgPool2d_shape. }
  rewrite get2_row_major by assumption.
  rewrite <- (reshape_T_row RS) by (try lia; assumption).
  rewrite <- Ef'. apply Hmin. nia.
Qed.

(** X6: every pixel of the upsampled map lies between 0 and the score, so
    for a threshold above the score (by any margin) the image is predicted
    GOOD and no pixel of the segmentation mask is set. *)
Theorem good_prediction_has_empty_mask (memory_bank : matrix) (margin : R) :
  memory_bank <> [] -> Forall (fun v => length v = 1536) memory_bank ->
  (0 < margin)%R ->
  exists s_star heat_map,
    Scorer.score net x memory_bank = Ok (s_star, heat_map) /\
    channel_shape 224 224 heat_map /\
    Notebook.channel_within 0 s_star heat_map /\
    Notebook.y_pred_image s_star (s_star + margin) = false /\
    Forall (Forall (fun b => b = false))
           (Notebook.segmentation heat_map (s_star + margin)).
Proof.
  intros Hne Hbank Hmargin.
  destruct (score_spec Hne Hbank)
    as [features [dist_score [s_star [Ef [Hlen [Hdim [Hl [Hmin [Hmax [_ Hs]]]]]]]]]].
  exists s_star. eexists. split; [exact Hs|]. split; [apply interpolate_shape|].
  assert (Hw : Notebook.channel_within 0 s_star
                 (Scorer.interpolate_bilinear 224 224 (Scorer.row_major 28 dist_score))).
  { apply (@interpolate_within 0%R s_star 28 28); [apply row_major_shape|lia|lia|].
    apply Forall_forall. intros row Hrow. apply in_map_iff in Hrow.
    destruct Hrow as [r [<- Hr]]. apply in_seq in Hr.
    apply Forall_forall. intros v Hv. apply in_map_iff in Hv.
    destruct Hv as [c [<- Hc]]. apply in_seq in Hc.
    assert (Hi : r * 28 + c < 28 * 28) by nia.
    split.
    - apply (@dist_score_nonneg _ _ _ _ (Hmin _ Hi)).
    - apply Hmax. apply nth_In. rewrite Hl. exact Hi. }
  split; [exact Hw|]. split.
  - unfold Notebook.y_pred_image.
    destruct (Rle_dec (s_star + margin) s_star) as [H|_]; [lra|reflexivity].
  - unfold Notebook.segmentation.
    apply Forall_forall. intros row Hrow. apply in_map_iff in Hrow.
    destruct Hrow as [row0 [<- Hrow0]].
    apply Forall_forall. intros b Hb. apply in_map_iff in Hb.
    destruct Hb as [v [<- Hv]].
    unfold Notebook.channel_within in Hw. rewrite Forall_forall in Hw.
    specialize (Hw _ Hrow0). unfold Notebook.within in Hw. rewrite Forall_forall in Hw.
    specialize (Hw _ Hv).
    destruct (Rlt_dec (s_star + margin) v) as [Hgt|]; [lra|reflexivity].
Qed.

(** X8: taking vectors out of the bank never lowers the score: a bank whose
    vectors all belong to a second bank gives a score at least as large as
    the second bank does. *)
Theorem smaller_bank_never_lowers_score (memory_bank sub_bank : matrix) :
  sub_bank <> [] -> Forall (fun v => length v = 1536) memory_bank ->
  (forall v, In v sub_bank -> In v memory_bank) ->
  exists s_full map_full s_sub map_sub,
    Scorer.score net x memory_bank = Ok (s_full, map_full) /\
    Scorer.score net x sub_bank = Ok (s_sub, map_sub) /\
    (s_full <= s_sub)%R.
Proof.
  intros Hne Hbank Hincl.
  assert (Hne' : memory_bank <> []).
  { destruct sub_bank as [|v sb]; [contradiction|].
    intros E. specialize (Hincl v (or_introl eq_refl)). rewrite E in Hincl. exact Hincl. }
  assert (Hsub : Forall (fun v => length v = 1536) sub_bank).
  { rewrite Forall_forall in *. intros v Hv. apply Hbank, Hincl, Hv. }
  destruct (score_spec Hne' Hbank)
    as [features [ds [s [Ef [Hlen [Hdim [Hl [Hmin [Hmax [_ Hs]]]]]]]]]].
  destruct (score_spec Hne Hsub)
    as [features' [ds' [s' [Ef' [_ [_ [Hl' [Hmin' [Hmax' [_ Hs']]]]]]]]]].
  rewrite Ef in Ef'. injection Ef' as <-.
  exists s. eexists. exists s'. eexists.
  split; [exact Hs|]. split; [exact Hs'|].
  destruct Hmax as [Hsin _]. destruct Hmax' as [_ Hsle'].
  destruct (In_nth _ _ 0%R Hsin) as [i [Hi Hnth]]. rewrite Hl in Hi.
  rewrite <- Hnth.
  apply Rle_trans with (nth i ds' 0%R); [|apply Hsle'; apply nth_In; lia].
  destruct (Hmin i Hi) as [_ Hle]. destruct (Hmin' i Hi) as [Hin' _].
  apply Hle. apply in_map_iff in Hin'. destruct Hin' as [b [<- Hb]].
  apply (in_map (fun b => Scorer.l2 (nth i features []) b)). apply Hincl. exact Hb.
Qed.

(** X9: the bank is a set: two banks with the same vectors, in any order
    and with any repetitions, give the same score and the same map. *)
Theorem bank_order_is_irrelevant (memory_bank other_bank : matrix) :
  memory_bank <> [] -> Forall (fun v => length v = 1536) memory_bank ->
  (forall v, In v memory_bank <-> In v other_bank) ->
  exists s_star segm_map,
    Scorer.score net x memory_bank = Ok (s_star, segm_map) /\
    Scorer.score net x other_bank = Ok (s_star, segm_map).
Proof.
  intros Hne Hbank Hsame.
  assert (Hne' : other_bank <> []).
  { destruct memory_bank as [|v mb]; [contradiction|].
    intros E. destruct (Hsame v) as [H1 _]. specialize (H1 (or_introl eq_refl)).
    rewrite E in H1. exact H1. }
  assert (Hbank' : Forall (fun v => length v = 1536) other_bank).
  { rewrite Forall_forall in *. intros v Hv. apply Hbank, Hsame, Hv. }
  destruct (score_spec Hne Hbank)
    as [features [ds [s [Ef [Hlen [Hdim [Hl [Hmin [Hmax [_ Hs]]]]]]]]]].
  destruct (score_spec Hne' Hbank')
    as [features' [ds' [s' [Ef' [_ [_ [Hl' [Hmin' [Hmax' [_ Hs']]]]]]]]]].
  rewrite Ef in Ef'. injection Ef' as <-.
  assert (Eds : ds = ds').
  { apply (nth_ext ds ds' 0%R 0%R); [congruence|].
    intros i Hi. rewrite Hl in Hi.
    destruct (Hmin i Hi) as [Hin Hle]. destruct (Hmin' i Hi) as [Hin' Hle'].
    apply Rle_antisym.
    - apply Hle. apply in_map_iff in Hin'. destruct Hin' as [b [<- Hb]].
      apply (in_map (fun b => Scorer.l2 (nth i features []) b)). apply Hsame. exact Hb.
    - apply Hle'. apply in_map_iff in Hin. destruct Hin as [b [<- Hb]].
      apply (in_map (fun b => Scorer.l2 (nth i features []) b)). apply Hsame. exact Hb. }
  subst ds'. assert (s = s') by (apply (is_maximum_unique Hmax Hmax')). subst s'.
  exists s. eexists. split; [exact Hs|exact Hs'].
Qed.

End ScoreFacts.

Lemma map_cell_is_nearest_distance_at_cell_witness :
  exists a2 a3 features s_star segm_map,
    Extractor.avg (nth 0 (Extractor.features_of Extractor.const_net (zeros 3 224 224)) [])
    = Ok a2 /\
    Extractor.avg (nth 1 (Extractor.features_of Extractor.const_net (zeros 3 224 224)) [])
    = Ok a3 /\
    Extractor.forward Extractor.const_net (zeros 3 224 224) = Ok features /\
    Scorer.score_grid features [repeat 0%R 1536] = Ok (s_star, segm_map) /\
    forall r c, r < 28 -> c < 28 ->
      Scorer.is_minimum (get2 segm_map r c)
        (map (fun b =>
                Scorer.l2 (Notebook.grid_cell
                             (AdaptiveAvgPool2d 28 a2 ++ AdaptiveAvgPool2d 28 a3) r c) b)
             [repeat 0%R 1536]).
Proof.
  apply (@map_cell_is_nearest_distance_at_cell Extractor.const_net (zeros 3 224 224)).
  - exact const_net_shapes.
  - apply zeros_shape.
  - discriminate.
  - constructor; [apply repeat_length|constructor].
Defined.

Lemma good_prediction_has_empty_mask_witness :
  exists s_star heat_map,
    Scorer.score Extractor.const_net (zeros 3 224 224) [repeat 0%R 1536]
    = Ok (s_star, heat_map) /\
    channel_shape 224 224 heat_map /\
    Notebook.channel_within 0 s_star heat_map /\
    Notebook.y_pred_image s_star (s_star + 1) = false /\
    Forall (Forall (fun b => b = false))
           (Notebook.segmentation heat_map (s_star + 1)).
Proof.
  apply (@good_prediction_has_empty_mask Extractor.const_net (zeros 3 224 224)).
  - exact const_net_shapes.
  - apply zeros_shape.
  - discriminate.
  - constructor; [apply repeat_length|constructor].
  - lra.
Defined.

Lemma smaller_bank_never_lowers_score_witness :
  exists s_full map_full s_sub map_sub,
    Scorer.score Extractor.const_net (zeros 3 224 224)
                 [repeat 0%R 1536; repeat 1%R 1536] = Ok (s_full, map_full) /\
    Scorer.score Extractor.const_net (zeros 3 224 224) [repeat 1%R 1536]
    = Ok (s_sub, map_sub) /\
    (s_full <= s_sub)%R.
Proof.
  apply (@smaller_bank_never_lowers_score Extractor.const_net (zeros 3 224 224)).
  - exact const_net_shapes.
  - apply zeros_shape.
  - discriminate.
  - constructor; [apply repeat_length|].
    constructor; [apply repeat_length|constructor].
  - intros v [<-|[]]. right. now left.
Defined.

Lemma bank_order_is_irrelevant_witness :
  exists s_star segm_map,
    Scorer.score Extractor.const_net (zeros 3 224 224)
                 [repeat 0%R 1536; repeat 1%R 1536] = Ok (s_star, segm_map) /\
    Scorer.score Extractor.const_net (zeros 3 224 224)
                 [repeat 1%R 1536; repeat 0%R 1536; repeat 1%R 1536]
    = Ok (s_star, segm_map).
Proof.
  apply (@bank_order_is_irrelevant Extractor.const_net (zeros 3 224 224)).
  - exact const_net_shapes.
  - apply zeros_shape.
  - discriminate.
  - constructor; [apply repeat_length|].
    constructor; [apply repeat_length|constructor].
  - intros v. split.
    + intros [H|[H|[]]]; [right; left; exact H|left; exact H].
    + intros [H|[H|[H|[]]]]; [right; left; exact H|left; exact H|right; left; exact H].
Defined.

(* ------------------------------------------------------------------ *)
(** ** The bank and the loops over the image folders *)

Lemma pool_rows (net : Extractor.resnet50) (images : list fmap) :
  Extractor.resnet50_shapes net -> images <> [] ->
  Forall (has_shape 3 224 224) images ->
  exists pooled,
    Bank.pool net images = Ok pooled /\
    length pooled = 784 * length images /\
    Forall (fun v => length v = 1536) pooled.
Proof.
  intros Hnet Hne Himg.
  destruct (@mapM_forall _ _ (Extractor.forward net)
              (fun m => length m = 784 /\ Forall (fun v => length v = 1536) m) images)
    as [feats [Ef [Hall Hlen]]].
  - intros x Hx. rewrite Forall_forall in Himg.
    destruct (forward_784 Hnet (Himg x Hx)) as [features [E [L D]]].
    exists features. split; [exact E|]. split; [exact L|exact D].
  - exists (concat feats). split; [|split].
    + unfold Bank.pool. rewrite Ef, bind_ok.
      destruct feats as [|m ms]; [|reflexivity].
      destruct images; [contradiction|discriminate Hlen].
    + rewrite (@concat_length_const _ 784 feats).
      * f_equal. exact Hlen.
      * eapply Forall_impl; [|exact Hall]. intros m [L _]. exact L.
    + apply Forall_concat. eapply Forall_impl; [|exact Hall]. intros m [_ D]. exact D.
Qed.

(** X10: a bank built from at least one good image can always be scored
    against: it is not empty, its vectors have the 1536 components of a
    patch vector, and [score] returns a score and a map for every image. *)
Theorem build_then_score_succeeds
        (net : Extractor.resnet50) (images : list fmap) (perm : list nat) (x : fmap) :
  Extractor.resnet50_shapes net -> images <> [] ->
  Forall (has_shape 3 224 224) images ->
  Permutation perm (seq 0 (784 * length images)) ->
  has_shape 3 224 224 x ->
  exists memory_bank s_star segm_map,
    Bank.build net images perm = Ok memory_bank /\
    memory_bank <> [] /\
    Forall (fun v => length v = 1536) memory_bank /\
    Scorer.score net x memory_bank = Ok (s_star, segm_map).
Proof.
  intros Hnet Hne Himg Hperm Hx.
  destruct (pool_rows Hnet Hne Himg) as [pooled [Ep [Hlen Hrows]]].
  rewrite <- Hlen in Hperm.
  destruct (@subsample_spec _ (@nil R) perm pooled Hperm) as [bank [rest [Es [Hb [Hin _]]]]].
  assert (Hbne : bank <> []).
  { intros E. rewrite E, Hlen in Hb. cbn [length] in Hb.
    destruct images as [|i0 rest0]; [contradiction|].
    symmetry in Hb. apply Nat.div_small_iff in Hb; [|discriminate].
    cbn [length] in Hb. lia. }
  assert (Hbd : Forall (fun v => length v = 1536) bank).
  { rewrite Forall_forall in *. intros v Hv. apply Hrows, Hin, Hv. }
  destruct (score_spec Hnet Hx Hbne Hbd)
    as [features [ds [s [_ [_ [_ [_ [_ [_ [_ Hs]]]]]]]]]].
  exists bank, s. eexists.
  split; [unfold Bank.build; rewrite Ep, bind_ok; exact Es|].
  split; [exact Hbne|]. split; [exact Hbd|exact Hs].
Qed.

Lemma build_then_score_succeeds_witness :
  exists memory_bank s_star segm_map,
    Bank.build Extractor.const_net [zeros 3 224 224] (seq 0 784) = Ok memory_bank /\
    memory_bank <> [] /\
    Forall (fun v => length v = 1536) memory_bank /\
    Scorer.score Extractor.const_net (zeros 3 224 224) memory_bank = Ok (s_star, segm_map).
Proof.
  apply (@build_then_score_succeeds Extractor.const_net [zeros 3 224 224] (seq 0 784)).
  - exact const_net_shapes.
  - discriminate.
  - constructor; [apply zeros_shape|constructor].
  - apply Permutation_refl.
  - apply zeros_shape.
Defined.

(** X11: the subsampling never fails, and it returns a bank without rows
    exactly when the pool has fewer than ten rows. *)
Theorem subsample_empty_iff_fewer_than_ten (perm : list nat) (memory_bank : matrix) :
  Permutation perm (seq 0 (length memory_bank)) ->
  (exists bank, Bank.subsample perm memory_bank = Ok bank) /\
  (Bank.subsample perm memory_bank = Ok [] <-> length memory_bank < 10).
Proof.
  intros Hperm.
  destruct (@subsample_spec _ (@nil R) perm memory_bank Hperm)
    as [bank [rest [Es [Hb _]]]].
  split; [exists bank; exact Es|]. rewrite Es. split.
  - intros E. injection E as E. rewrite E in Hb. cbn [length] in Hb.
    symmetry in Hb. apply Nat.div_small_iff in Hb; [exact Hb|discriminate].
  - intros Hlt. rewrite (Nat.div_small _ _ Hlt) in Hb.
    destruct bank; [reflexivity|discriminate Hb].
Qed.

Lemma subsample_empty_iff_fewer_than_ten_witness :
  (exists bank, Bank.subsample [2; 0; 1] [[1]; [2]; [3]]%R = Ok bank) /\
  (Bank.subsample [2; 0; 1] [[1]; [2]; [3]]%R = Ok [] <-> 3 < 10).
Proof.
  apply (@subsample_empty_iff_fewer_than_ten [2; 0; 1] [[1]; [2]; [3]]%R).
  simpl. apply Permutation_sym.
  apply (@perm_trans _ _ [0; 2; 1]); [|apply perm_swap].
  apply perm_skip. apply perm_swap.
Defined.

Section LoopFacts.

Variable net : Extractor.resnet50.
Variable memory_bank : matrix.
Hypothesis Hnet : Extractor.resnet50_shapes net.
Hypothesis Hne : memory_bank <> [].
Hypothesis Hbank : Forall (fun v => length v = 1536) memory_bank.

Lemma s_star_of_ok (data : fmap) :
  has_shape 3 224 224 data ->
  exists s_star, Notebook.s_star_of net memory_bank data = Ok s_star /\ (0 <= s_star)%R.
Proof.
  intros Hx.
  destruct (score_spec Hnet Hx Hne Hbank)
    as [features [ds [s [Ef [_ [_ [Hl [Hmin [[Hsin _] [Hs _]]]]]]]]]].
  exists s. split.
  - unfold Notebook.s_star_of. rewrite Ef, bind_ok, Hs, bind_ok. reflexivity.
  - destruct (In_nth _ _ 0%R Hsin) as [i [Hi Hnth]]. rewrite Hl in Hi.
    rewrite <- Hnth. apply (@dist_score_nonneg _ _ _ _ (Hmin i Hi)).
Qed.

Lemma good_loop_spec (images : list fmap) :
  Forall (has_shape 3 224 224) images ->
  forall acc, exists ys,
    Notebook.good_loop net memory_bank images acc = Ok (acc ++ ys) /\
    length ys = length images /\
    Forall (fun s => (0 <= s)%R) ys.
Proof.
  induction 1 as [|data rest Hd _ IH]; intros acc.
  - exists []. simpl. rewrite app_nil_r. repeat split. constructor.
  - destruct (s_star_of_ok Hd) as [s [Es Hs]].
    destruct (IH (acc ++ [s])) as [ys [Eys [Hlen Hpos]]].
    exists (s :: ys). simpl. rewrite Es, bind_ok, Eys, <- app_assoc.
    split; [reflexivity|]. split; [simpl; lia|constructor; assumption].
Qed.

End LoopFacts.

(* ------------------------------------------------------------------ *)
(** ** The loops as one pass over the images *)

Lemma mapM_app {A B : Type} (f : A -> result B) (l1 l2 : list A) :
  mapM f (l1 ++ l2) = (r1 <- mapM f l1 ;; r2 <- mapM f l2 ;; Ok (r1 ++ r2)).
Proof.
  induction l1 as [|a l1 IH]; simpl.
  - destruct (mapM f l2); reflexivity.
  - destruct (f a) as [b|e]; [|reflexivity]. simpl. rewrite IH.
    destruct (mapM f l1) as [r1|e]; [|reflexivity]. simpl.
    destruct (mapM f l2); reflexivity.
Qed.

Lemma good_loop_mapM (net : Extractor.resnet50) (memory_bank : matrix)
      (images : list fmap) (acc : list R) :
  Notebook.good_loop net memory_bank images acc
  = (ys <- mapM (Notebook.s_star_of net memory_bank) images ;; Ok (acc ++ ys)).
Proof.
  revert acc. induction images as [|data rest IH]; intros acc; simpl.
  - rewrite app_nil_r. reflexivity.
  - destruct (Notebook.s_star_of net memory_bank data) as [s|e]; [|reflexivity].
    simpl. rewrite IH.
    destruct (mapM (Notebook.s_star_of net memory_bank) rest) as [ss|e]; [|reflexivity].
    simpl. rewrite <- app_assoc. reflexivity.
Qed.

Lemma folder_loop_mapM (net : Extractor.resnet50) (memory_bank : matrix)
      (class_label : String.string) (images : list fmap)
      (y_score : list R) (y_true : list bool) :
  Notebook.folder_loop net memory_bank class_label images y_score y_true
  = (ss <- mapM (Notebook.s_star_of net memory_bank) images ;;
     Ok (y_score ++ ss,
         y_true ++ repeat (Notebook.label_of class_label) (length images))).
Proof.
  revert y_score y_true. induction images as [|data rest IH]; intros y_score y_true; simpl.
  - rewrite !app_nil_r. reflexivity.
  - destruct (Notebook.s_star_of net memory_bank data) as [s|e]; [|reflexivity].
    simpl. rewrite IH.
    destruct (mapM (Notebook.s_star_of net memory_bank) rest) as [ss|e]; [|reflexivity].
    simpl. rewrite <- !app_assoc. reflexivity.
Qed.

Lemma class_loop_mapM (net : Extractor.resnet50) (memory_bank : matrix)
      (folder : String.string -> list fmap) (cs : list String.string)
      (y_score : list R) (y_true : list bool) :
  Notebook.class_loop net memory_bank folder cs y_score y_true
  = (ss <- mapM (Notebook.s_star_of net memory_bank) (flat_map folder cs) ;;
     Ok (y_score ++ ss,
         y_true ++ flat_map (fun c => repeat (Notebook.label_of c) (length (folder c))) cs)).
Proof.
  revert y_score y_true. induction cs as [|c rest IH]; intros y_score y_true; simpl.
  - rewrite !app_nil_r. reflexivity.
  - rewrite folder_loop_mapM, mapM_app.
    destruct (mapM (Notebook.s_star_of net memory_bank) (folder c)) as [s1|e]; [|reflexivity].
    simpl. rewrite IH.
    destruct (mapM (Notebook.s_star_of net memory_bank) (flat_map folder rest))
      as [s2|e]; [|reflexivity].
    simpl. rewrite <- !app_assoc. reflexivity.
Qed.

Lemma y_score_bad_app (a b : list R) (ta tb : list bool) :
  length a = length ta ->
  Notebook.y_score_bad (a ++ b) (ta ++ tb)
  = Notebook.y_score_bad a ta ++ Notebook.y_score_bad b tb.
Proof.
  unfold Notebook.y_score_bad. revert ta.
  induction a as [|s a IH]; intros [|t ta] Hlen; try discriminate Hlen;
    [reflexivity|].
  injection Hlen as Hlen. specialize (IH ta Hlen).
  simpl. destruct t; simpl; rewrite IH; reflexivity.
Qed.

Lemma y_score_bad_all (a : list R) :
  Notebook.y_score_bad a (repeat true (length a)) = a.
Proof.
  unfold Notebook.y_score_bad. induction a as [|s a IH]; [reflexivity|].
  simpl. f_equal. exact IH.
Qed.

Lemma y_score_bad_none (a : list R) :
  Notebook.y_score_bad a (repeat false (length a)) = [].
Proof.
  unfold Notebook.y_score_bad. induction a as [|s a IH]; [reflexivity|].
  simpl. exact IH.
Qed.

(* ------------------------------------------------------------------ *)
(** ** Mean and deviation of a list of scores *)

Lemma length_pos_INR {A : Type} (l : list A) : l <> [] -> (0 < INR (length l))%R.
Proof.
  intros Hne. apply lt_0_INR. destruct l; [contradiction|simpl; lia].
Qed.

Lemma below_mean_exists (l : list R) :
  l <> [] -> exists s, In s l /\ (s * INR (length l) <= Rsum l)%R.
Proof.
  induction l as [|a l IH]; intros Hne; [contradiction|].
  destruct l as [|b l'].
  - exists a. split; [now left|]. simpl. lra.
  - destruct IH as [s [Hs Hle]]; [discriminate|].
    set (l := b :: l') in *.
    change (length (a :: l)) with (S (length l)). rewrite S_INR.
    assert (Hn : (0 <= INR (length l))%R) by apply pos_INR.
    change (Rsum (a :: l)) with (a + Rsum l)%R.
    destruct (Rle_dec a s) as [Has|Has].
    + exists a. split; [now left|].
      assert ((a * INR (length l) <= s * INR (length l))%R)
        by (apply Rmult_le_compat_r; assumption).
      lra.
    + exists s. split; [now right|]. lra.
Qed.

Lemma Rsum_affine (a c : R) (l : list R) :
  Rsum (map (fun s => a * s + c)%R l) = (a * Rsum l + c * INR (length l))%R.
Proof.
  induction l as [|x l IH].
  - simpl. ring.
  - change (length (x :: l)) with (S (length l)). rewrite S_INR.
    simpl. rewrite IH. ring.
Qed.

Lemma Rsum_scale (a : R) (g : R -> R) (l : list R) :
  Rsum (map (fun s => a * g s)%R l) = (a * Rsum (map g l))%R.
Proof.
  induction l as [|x l IH]; simpl; [ring|]. rewrite IH. ring.
Qed.

Lemma np_mean_affine (a c : R) (l : list R) :
  l <> [] ->
  Statistical.np_mean (map (fun s => a * s + c)%R l)
  = (a * Statistical.np_mean l + c)%R.
Proof.
  intros Hne. unfold Statistical.np_mean.
  rewrite length_map, Rsum_affine.
  assert (Hn := length_pos_INR Hne). field. lra.
Qed.

Lemma Rsum_nonneg (l : list R) : Forall (fun v => (0 <= v)%R) l -> (0 <= Rsum l)%R.
Proof.
  induction 1 as [|v l Hv _ IH]; simpl; lra.
Qed.

Lemma np_std_nonneg (l : list R) : (0 <= Statistical.np_std l)%R.
Proof. unfold Statistical.np_std. apply sqrt_pos. Qed.

Lemma np_mean_nonneg (l : list R) :
  l <> [] -> Forall (fun v => (0 <= v)%R) l -> (0 <= Statistical.np_mean l)%R.
Proof.
  intros Hne Hl. unfold Statistical.np_mean.
  apply Rmult_le_pos; [apply Rsum_nonneg; exact Hl|].
  apply Rlt_le, Rinv_0_lt_compat, length_pos_INR. exact Hne.
Qed.

Lemma below_np_mean_exists (l : list R) :
  l <> [] -> exists s, In s l /\ (s <= Statistical.np_mean l)%R.
Proof.
  intros Hne. destruct (below_mean_exists Hne) as [s [Hs Hle]].
  exists s. split; [exact Hs|]. unfold Statistical.np_mean.
  assert (Hn := length_pos_INR Hne).
  apply Rmult_le_reg_r with (INR (length l)); [exact Hn|].
  replace (Rsum l / INR (length l) * INR (length l))%R with (Rsum l) by (field; lra).
  exact Hle.
Qed.

(* ------------------------------------------------------------------ *)
(** ** The good scores and their threshold *)

(** X12: over a non-empty folder of good images the loop returns one
    score per image, none negative; the threshold mean + 3 * std computed
    from them is at least their mean, which is not negative, and at least
    one of the good scores does not exceed it. *)
Theorem good_scores_threshold_at_least_mean
        (net : Extractor.resnet50) (memory_bank : matrix) (images : list fmap) :
  Extractor.resnet50_shapes net ->
  memory_bank <> [] -> Forall (fun v => length v = 1536) memory_bank ->
  images <> [] -> Forall (has_shape 3 224 224) images ->
  exists y_score_good,
    Notebook.y_score_good net memory_bank images = Ok y_score_good /\
    mapM (Notebook.s_star_of net memory_bank) images = Ok y_score_good /\
    length y_score_good = length images /\
    Forall (fun s => (0 <= s)%R) y_score_good /\
    (0 <= Statistical.np_mean y_score_good
       <= Statistical.best_threshold y_score_good)%R /\
    exists s, In s y_score_good /\ (s <= Statistical.best_threshold y_score_good)%R.
Proof.
  intros Hnet Hne Hbank Himg Hshape.
  destruct (good_loop_spec Hnet Hne Hbank Hshape []) as [ys [Eys [Hlen Hpos]]].
  simpl in Eys.
  assert (Hys : ys <> []).
  { intros E. rewrite E in Hlen. destruct images; [contradiction|discriminate Hlen]. }
  assert (Hth : (Statistical.np_mean ys <= Statistical.best_threshold ys)%R).
  { unfold Statistical.best_threshold, Statistical.calibrate_statistical.
    assert (H := np_std_nonneg ys). lra. }
  exists ys. split; [exact Eys|]. split; [|split; [exact Hlen|split; [exact Hpos|split]]].
  - unfold Notebook.y_score_good in Eys. rewrite good_loop_mapM in Eys.
    destruct (mapM (Notebook.s_star_of net memory_bank) images) as [r|e];
      [|discriminate Eys].
    simpl in Eys. exact Eys.
  - split; [apply np_mean_nonneg; assumption|exact Hth].
  - destruct (below_np_mean_exists Hys) as [s [Hs Hle]].
    exists s. split; [exact Hs|lra].
Qed.

Lemma good_scores_threshold_at_least_mean_witness :
  exists y_score_good,
    Notebook.y_score_good Extractor.const_net [repeat 0%R 1536] [zeros 3 224 224]
    = Ok y_score_good /\
    mapM (Notebook.s_star_of Extractor.const_net [repeat 0%R 1536]) [zeros 3 224 224]
    = Ok y_score_good /\
    length y_score_good = 1 /\
    Forall (fun s => (0 <= s)%R) y_score_good /\
    (0 <= Statistical.np_mean y_score_good
       <= Statistical.best_threshold y_score_good)%R /\
    exists s, In s y_score_good /\ (s <= Statistical.best_threshold y_score_good)%R.
Proof.
  apply (@good_scores_threshold_at_least_mean
           Extractor.const_net [repeat 0%R 1536] [zeros 3 224 224]).
  - exact const_net_shapes.
  - discriminate.
  - constructor; [apply repeat_length|constructor].
  - discriminate.
  - constructor; [apply zeros_shape|constructor].
Defined.

(** X13: scaling and shifting the good scores scales and shifts the
    threshold: for a >= 0 the threshold of the scores a * s + c is
    a * (threshold of the scores s) + c, for every k. *)
Theorem calibrate_statistical_affine (y_score_good : list R) (a c k : R) :
  y_score_good <> [] -> (0 <= a)%R ->
  Statistical.calibrate_statistical (map (fun s => a * s + c)%R y_score_good) k
  = (a * Statistical.calibrate_statistical y_score_good k + c)%R.
Proof.
  intros Hne Ha. unfold Statistical.calibrate_statistical.
  rewrite (np_mean_affine a c Hne).
  assert (Hstd : Statistical.np_std (map (fun s => a * s + c)%R y_score_good)
                 = (a * Statistical.np_std y_score_good)%R).
  { unfold Statistical.np_std. rewrite (np_mean_affine a c Hne).
    set (m := Statistical.np_mean y_score_good).
    rewrite map_map.
    assert (E : map (fun x => (Rabs (a * x + c - (a * m + c))
                               * Rabs (a * x + c - (a * m + c)))%R) y_score_good
                = map (fun x => ((a * a) * (Rabs (x - m) * Rabs (x - m)))%R) y_score_good).
    { apply map_ext. intros x.
      replace (a * x + c - (a * m + c))%R with (a * (x - m))%R by ring.
      rewrite Rabs_mult, (Rabs_pos_eq a Ha). ring. }
    rewrite E. unfold Statistical.np_mean at 1.
    rewrite length_map, (Rsum_scale (a * a) (fun x => (Rabs (x - m) * Rabs (x - m))%R)).
    replace (a * a * Rsum (map (fun x => (Rabs (x - m) * Rabs (x - m))%R) y_score_good)
             / INR (length y_score_good))%R
      with ((a * a) * Statistical.np_mean
                        (map (fun x => (Rabs (x - m) * Rabs (x - m))%R) y_score_good))%R.
    - rewrite sqrt_mult_alt by (apply Rmult_le_pos; exact Ha).
      rewrite sqrt_square by exact Ha. reflexivity.
    - unfold Statistical.np_mean. rewrite length_map. unfold Rdiv. ring. }
  rewrite Hstd. ring.
Qed.

Lemma calibrate_statistical_affine_witness :
  Statistical.calibrate_statistical (map (fun s => 2 * s + 1)%R [2; 4]%R) 3
  = (2 * Statistical.calibrate_statistical [2; 4]%R 3 + 1)%R.
Proof.
  apply (@calibrate_statistical_affine [2; 4]%R 2%R 1%R 3%R).
  - discriminate.
  - lra.
Defined.

(** X14: with a single good image the deviation term is zero and the
    threshold is the score of that image, whatever the factor k is; the
    notebook's factor 3 is one case. *)
Theorem single_good_image_threshold_is_its_score (s k : R) :
  Statistical.np_std [s] = 0%R /\
  Statistical.calibrate_statistical [s] k = s /\
  Statistical.best_threshold [s] = s.
Proof.
  assert (Hm : Statistical.np_mean [s] = s).
  { unfold Statistical.np_mean. simpl. field. }
  assert (Hs : Statistical.np_std [s] = 0%R).
  { unfold Statistical.np_std. rewrite Hm. unfold Statistical.np_mean. simpl.
    replace (s - s)%R with 0%R by ring. rewrite Rabs_R0.
    replace ((0 * 0 + 0) / 1)%R with 0%R by field. apply sqrt_0. }
  unfold Statistical.best_threshold, Statistical.calibrate_statistical.
  rewrite Hm, Hs. split; [reflexivity|]. split; ring.
Qed.

(* ------------------------------------------------------------------ *)
(** ** The test loop *)

Section TestLoop.

Variable net : Extractor.resnet50.
Variable memory_bank : matrix.
Variable folder : String.string -> list fmap.
Hypothesis Hnet : Extractor.resnet50_shapes net.
Hypothesis Hne : memory_bank <> [].
Hypothesis Hbank : Forall (fun v => length v = 1536) memory_bank.
Hypothesis Hfolder :
  forall c, In c Notebook.classes -> Forall (has_shape 3 224 224) (folder c).

Lemma folder_scores (c : String.string) :
  In c Notebook.classes ->
  exists ss,
    mapM (Notebook.s_star_of net memory_bank) (folder c) = Ok ss /\
    length ss = length (folder c) /\
    Forall (fun s => (0 <= s)%R) ss.
Proof.
  intros Hc.
  destruct (good_loop_spec Hnet Hne Hbank (Hfolder Hc) []) as [ss [E [Hlen Hpos]]].
  exists ss. split; [|split; [exact Hlen|exact Hpos]].
  rewrite good_loop_mapM in E.
  destruct (mapM (Notebook.s_star_of net memory_bank) (folder c)) as [r|e];
    [|discriminate E].
  simpl in E. exact E.
Qed.

(** X15: the test loop returns one score and one label per test image, in
    the order crack, cut, good, hole, print of the folders; the label is 0
    on the images of the folder good and 1 on all others, and no score is
    negative. *)
Theorem test_loop_labels_follow_the_folders :
  exists crack cut good hole print,
    mapM (Notebook.s_star_of net memory_bank) (folder "crack"%string) = Ok crack /\
    mapM (Notebook.s_star_of net memory_bank) (folder "cut"%string) = Ok cut /\
    mapM (Notebook.s_star_of net memory_bank) (folder "good"%string) = Ok good /\
    mapM (Notebook.s_star_of net memory_bank) (folder "hole"%string) = Ok hole /\
    mapM (Notebook.s_star_of net memory_bank) (folder "print"%string) = Ok print /\
    Notebook.test_scores net memory_bank folder
    = Ok (crack ++ cut ++ good ++ hole ++ print,
          repeat true (length crack) ++ repeat true (length cut)
          ++ repeat false (length good)
          ++ repeat true (length hole) ++ repeat true (length print)) /\
    Forall (fun s => (0 <= s)%R) (crack ++ cut ++ good ++ hole ++ print).
Proof.
  destruct (@folder_scores "crack"%string) as [s1 [E1 [L1 P1]]]; [simpl; tauto|].
  destruct (@folder_scores "cut"%string) as [s2 [E2 [L2 P2]]]; [simpl; tauto|].
  destruct (@folder_scores "good"%string) as [s3 [E3 [L3 P3]]]; [simpl; tauto|].
  destruct (@folder_scores "hole"%string) as [s4 [E4 [L4 P4]]]; [simpl; tauto|].
  destruct (@folder_scores "print"%string) as [s5 [E5 [L5 P5]]]; [simpl; tauto|].
  exists s1, s2, s3, s4, s5.
  split; [exact E1|]. split; [exact E2|]. split; [exact E3|].
  split; [exact E4|]. split; [exact E5|]. split.
  - unfold Notebook.test_scores. rewrite class_loop_mapM.
    unfold Notebook.classes. cbn [flat_map].
    rewrite !mapM_app, E1, bind_ok, E2, bind_ok, E3, bind_ok, E4, bind_ok, E5, bind_ok.
    cbn [mapM]. rewrite !bind_ok.
    rewrite L1, L2, L3, L4, L5, !app_nil_r. reflexivity.
  - repeat (apply Forall_app; split); assumption.
Qed.

(** X16: the scores kept for the histogram of the BAD class are the
    scores of the images of the four defect folders, in the order of the
    loop; the scores of the folder good are left out. *)
Theorem y_score_bad_is_the_defect_folders :
  exists y_score y_true,
    Notebook.test_scores net memory_bank folder = Ok (y_score, y_true) /\
    length y_score = length y_true /\
    mapM (Notebook.s_star_of net memory_bank)
         (folder "crack"%string ++ folder "cut"%string
          ++ folder "hole"%string ++ folder "print"%string)
    = Ok (Notebook.y_score_bad y_score y_true).
Proof.
  destruct (@folder_scores "crack"%string) as [s1 [E1 [L1 P1]]]; [simpl; tauto|].
  destruct (@folder_scores "cut"%string) as [s2 [E2 [L2 P2]]]; [simpl; tauto|].
  destruct (@folder_scores "good"%string) as [s3 [E3 [L3 P3]]]; [simpl; tauto|].
  destruct (@folder_scores "hole"%string) as [s4 [E4 [L4 P4]]]; [simpl; tauto|].
  destruct (@folder_scores "print"%string) as [s5 [E5 [L5 P5]]]; [simpl; tauto|].
  exists (s1 ++ s2 ++ s3 ++ s4 ++ s5).
  exists (repeat true (length s1) ++ repeat true (length s2)
          ++ repeat false (length s3)
          ++ repeat true (length s4) ++ repeat true (length s5)).
  split; [|split].
  - unfold Notebook.test_scores. rewrite class_loop_mapM.
    unfold Notebook.classes. cbn [flat_map].
    rewrite !mapM_app, E1, bind_ok, E2, bind_ok, E3, bind_ok, E4, bind_ok, E5, bind_ok.
    cbn [mapM]. rewrite !bind_ok.
    rewrite L1, L2, L3, L4, L5, !app_nil_r. reflexivity.
  - rewrite !length_app, !repeat_length. reflexivity.
  - rewrite !mapM_app, E1, bind_ok, E2, bind_ok, E4, bind_ok, E5, !bind_ok.
    rewrite !y_score_bad_app by (rewrite repeat_length; reflexivity).
    rewrite !y_score_bad_all, y_score_bad_none. reflexivity.
Qed.

End TestLoop.

Lemma test_loop_labels_follow_the_folders_witness :
  exists crack cut good hole print,
    mapM (Notebook.s_star_of Extractor.const_net [repeat 0%R 1536])
         [zeros 3 224 224] = Ok crack /\
    mapM (Notebook.s_star_of Extractor.const_net [repeat 0%R 1536])
         [zeros 3 224 224] = Ok cut /\
    mapM (Notebook.s_star_of Extractor.const_net [repeat 0%R 1536])
         [zeros 3 224 224] = Ok good /\
    mapM (Notebook.s_star_of Extractor.const_net [repeat 0%R 1536])
         [zeros 3 224 224] = Ok hole /\
    mapM (Notebook.s_star_of Extractor.const_net [repeat 0%R 1536])
         [zeros 3 224 224] = Ok print /\
    Notebook.test_scores Extractor.const_net [repeat 0%R 1536]
                         (fun _ => [zeros 3 224 224])
    = Ok (crack ++ cut ++ good ++ hole ++ print,
          repeat true (length crack) ++ repeat true (length cut)
          ++ repeat false (length good)
          ++ repeat true (length hole) ++ repeat true (length print)) /\
    Forall (fun s => (0 <= s)%R) (crack ++ cut ++ good ++ hole ++ print).
Proof.
  apply (@test_loop_labels_follow_the_folders
           Extractor.const_net [repeat 0%R 1536] (fun _ => [zeros 3 224 224])).
  - exact const_net_shapes.
  - discriminate.
  - constructor; [apply repeat_length|constructor].
  - intros c _. constructor; [apply zeros_shape|constructor].
Defined.

Lemma y_score_bad_is_the_defect_folders_witness :
  exists y_score y_true,
    Notebook.test_scores Extractor.const_net [repeat 0%R 1536]
                         (fun _ => [zeros 3 224 224]) = Ok (y_score, y_true) /\
    length y_score = length y_true /\
    mapM (Notebook.s_star_of Extractor.const_net [repeat 0%R 1536])
         ([zeros 3 224 224] ++ [zeros 3 224 224]
          ++ [zeros 3 224 224] ++ [zeros 3 224 224])
    = Ok (Notebook.y_score_bad y_score y_true).
Proof.
  apply (@y_score_bad_is_the_defect_folders
           Extractor.const_net [repeat 0%R 1536] (fun _ => [zeros 3 224 224])).
  - exact const_net_shapes.
  - discriminate.
  - constructor; [apply repeat_length|constructor].
  - intros c _. constructor; [apply zeros_shape|constructor].
Defined.

(* ------------------------------------------------------------------ *)
(** ** The F1 score of a prediction *)

Section F1Facts.
Local Open Scope Q_scope.

Lemma f1_score_bounds (y_true y_pred : list bool) :
  0 <= MetricSweep.f1_score y_true y_pred <= 1.
Proof.
  unfold MetricSweep.f1_score. cbv zeta.
  match goal with |- context [Nat.eqb ?a 0] => destruct (Nat.eqb_spec a 0) as [E0|E0] end.
  - split; unfold Qle; simpl; lia.
  - unfold Qle. cbn [Qnum Qden]. rewrite Zpos_of_nat by lia. lia.
Qed.

Lemma f1_score_pos_iff (y_true y_pred : list bool) :
  0 < MetricSweep.f1_score y_true y_pred
  <-> (1 <= MetricSweep.count2 (fun y p => y && p)%bool y_true y_pred)%nat.
Proof.
  unfold MetricSweep.f1_score. cbv zeta.
  match goal with |- context [Nat.eqb ?a 0] => destruct (Nat.eqb_spec a 0) as [E0|E0] end.
  - split; [intros H; unfold Qlt in H; simpl in H; lia|lia].
  - unfold Qlt. cbn [Qnum Qden]. lia.
Qed.

Lemma f1_score_one_iff_counts (y_true y_pred : list bool) :
  MetricSweep.f1_score y_true y_pred == 1
  <-> (MetricSweep.count2 (fun y p => negb y && p)%bool y_true y_pred = 0
       /\ MetricSweep.count2 (fun y p => y && negb p)%bool y_true y_pred = 0
       /\ 1 <= MetricSweep.count2 (fun y p => y && p)%bool y_true y_pred)%nat.
Proof.
  unfold MetricSweep.f1_score. cbv zeta.
  match goal with |- context [Nat.eqb ?a 0] => destruct (Nat.eqb_spec a 0) as [E0|E0] end.
  - split; [intros H; unfold Qeq in H; simpl in H; lia|lia].
  - unfold Qeq. cbn [Qnum Qden]. rewrite Zpos_of_nat by lia. lia.
Qed.

Lemma counts_exact (y_true y_pred : list bool) :
  length y_true = length y_pred ->
  (MetricSweep.count2 (fun y p => negb y && p)%bool y_true y_pred = 0%nat
   /\ MetricSweep.count2 (fun y p => y && negb p)%bool y_true y_pred = 0%nat)
  <-> y_pred = y_true.
Proof.
  unfold MetricSweep.count2. revert y_pred.
  induction y_true as [|y ys IH]; intros [|p ps] Hlen; try discriminate Hlen.
  - simpl. tauto.
  - injection Hlen as Hlen. specialize (IH ps Hlen).
    destruct y, p; simpl; split.
    + intros H. f_equal. apply IH. exact H.
    + intros H. injection H as H. apply IH. exact H.
    + intros [_ H]. discriminate H.
    + intros H. discriminate H.
    + intros [H _]. discriminate H.
    + intros H. discriminate H.
    + intros H. f_equal. apply IH. exact H.
    + intros H. injection H as H. apply IH. exact H.
Qed.

Lemma tp_exact (y_true : list bool) :
  MetricSweep.count2 (fun y p => y && p)%bool y_true y_true
  = MetricSweep.positives y_true.
Proof.
  unfold MetricSweep.count2, MetricSweep.positives.
  induction y_true as [|y ys IH]; [reflexivity|].
  simpl. destruct y; simpl; rewrite IH; reflexivity.
Qed.

Lemma positives_pos (y_true : list bool) :
  (1 <= MetricSweep.positives y_true)%nat <-> forallb negb y_true = false.
Proof.
  unfold MetricSweep.positives.
  induction y_true as [|y ys IH]; simpl.
  - split; [lia|discriminate].
  - destruct y; simpl; [split; [reflexivity|lia]|exact IH].
Qed.

Lemma f1_score_one_iff (y_true y_pred : list bool) :
  length y_true = length y_pred ->
  (MetricSweep.f1_score y_true y_pred == 1
   <-> y_pred = y_true /\ forallb negb y_true = false).
Proof.
  intros Hlen. rewrite f1_score_one_iff_counts. split.
  - intros [Hfp [Hfn Htp]].
    assert (E : y_pred = y_true) by (apply counts_exact; [exact Hlen|split; assumption]).
    split; [exact E|]. apply positives_pos. rewrite <- tp_exact.
    rewrite E in Htp. exact Htp.
  - intros [E Hpos]. subst y_pred.
    destruct (proj2 (@counts_exact y_true y_true Hlen) eq_refl) as [Hfp Hfn].
    split; [exact Hfp|]. split; [exact Hfn|].
    rewrite tp_exact. apply positives_pos. exact Hpos.
Qed.

Lemma f1_at_inf (y_true : list bool) (y_score : list Q) :
  MetricSweep.f1_at y_true y_score MetricSweep.PInf == 0.
Proof.
  unfold MetricSweep.f1_at.
  assert (Htp : MetricSweep.count2 (fun y p => y && p)%bool y_true
                  (map (fun s => MetricSweep.ge_threshold s MetricSweep.PInf) y_score)
                = 0%nat).
  { unfold MetricSweep.count2. simpl MetricSweep.ge_threshold. revert y_score.
    induction y_true as [|y ys IH]; intros [|s ss]; try reflexivity.
    simpl. rewrite andb_false_r. apply IH. }
  destruct (Qlt_le_dec 0 (MetricSweep.f1_score y_true
              (map (fun s => MetricSweep.ge_threshold s MetricSweep.PInf) y_score)))
    as [H|H].
  - apply f1_score_pos_iff in H. lia.
  - apply Qle_antisym; [exact H|apply f1_score_bounds].
Qed.

Lemma count_ge_exists (pos : bool) (theta : Q) (l : list (Q * bool)) :
  (1 <= MetricSweep.count_ge pos theta l)%nat ->
  exists s, In (s, pos) l /\ theta <= s.
Proof.
  unfold MetricSweep.count_ge.
  induction l as [|[s b] l IH]; simpl; [lia|].
  destruct (Bool.eqb b pos && Qle_bool theta s)%bool eqn:E.
  - intros _. apply andb_prop in E. destruct E as [Eb Es].
    apply eqb_prop in Eb. apply Qle_bool_iff in Es.
    exists s. split; [left; rewrite Eb; reflexivity|exact Es].
  - intros H. destruct (IH H) as [s' [Hin Hle]]. exists s'. split; [now right|exact Hle].
Qed.

Lemma positive_sample (y_true : list bool) (y_score : list Q) :
  length y_true = length y_score -> forallb negb y_true = false ->
  exists s, In (s, true) (combine y_score y_true).
Proof.
  revert y_score. induction y_true as [|y ys IH]; intros [|s ss] Hlen Hpos;
    try discriminate Hlen; [discriminate Hpos|].
  injection Hlen as Hlen. simpl in Hpos. destruct y.
  - exists s. now left.
  - destruct (IH ss Hlen Hpos) as [s' Hs']. exists s'. now right.
Qed.

Lemma f1_at_positive_sample (y_true : list bool) (y_score : list Q) (s : Q) :
  In (s, true) (combine y_score y_true) ->
  0 < MetricSweep.f1_at y_true y_score (MetricSweep.Fin s).
Proof.
  intros Hs. unfold MetricSweep.f1_at. apply f1_score_pos_iff.
  rewrite count_tp.
  apply (@count_ge_in s (s, true) (combine y_score y_true) Hs). apply Qle_refl.
Qed.

(** The threshold the sweep returns, with what [np.argmax] guarantees. *)
Lemma sweep_maximum (y_true : list bool) (y_score : list Q) :
  length y_true = length y_score -> y_score <> [] ->
  exists t,
    MetricSweep.best_threshold y_true y_score = Ok t /\
    (t = MetricSweep.PInf \/
     exists q, t = MetricSweep.Fin q /\ In q y_score /\
               MetricSweep.f1_at y_true y_score MetricSweep.PInf
               < MetricSweep.f1_at y_true y_score t) /\
    (forall s, In s y_score ->
       MetricSweep.f1_at y_true y_score (MetricSweep.Fin s)
       <= MetricSweep.f1_at y_true y_score t).
Proof.
  intros Hlen Hne.
  destruct (roc_curve_spec y_true Hlen Hne) as [qs [Er [_ [Hin Hdom]]]].
  set (f := MetricSweep.f1_at y_true y_score).
  set (ts := map MetricSweep.Fin qs) in *.
  destruct (np_argmax_spec (f MetricSweep.PInf) (map f ts)) as [i [v [Ea [Hv [Hle Hlt]]]]].
  change (f MetricSweep.PInf :: map f ts) with (map f (MetricSweep.PInf :: ts)) in *.
  rewrite nth_error_map in Hv.
  destruct (nth_error (MetricSweep.PInf :: ts) i) as [t|] eqn:Et; [|discriminate Hv].
  simpl in Hv. injection Hv as <-.
  exists t. split; [|split].
  - unfold MetricSweep.best_threshold. rewrite Er, bind_ok.
    fold f. fold ts. rewrite Ea, bind_ok, Et. reflexivity.
  - destruct i as [|i'].
    + left. simpl in Et. injection Et as <-. reflexivity.
    + right. simpl in Et. apply nth_error_In in Et. subst ts.
      apply in_map_iff in Et. destruct Et as [q [<- Hq]].
      exists q. split; [reflexivity|]. split; [apply Hin; exact Hq|].
      apply (Hlt 0%nat); [lia|reflexivity].
  - intros s Hs. destruct (Hdom s Hs) as [q [Hq Hq']].
    eapply Qle_trans; [exact Hq'|]. apply Hle.
    apply (in_map f (MetricSweep.PInf :: ts) (MetricSweep.Fin q)).
    right. apply in_map. exact Hq.
Qed.

Lemma min_exists (l : list Q) :
  l <> [] -> exists m, In m l /\ forall x, In x l -> m <= x.
Proof.
  induction l as [|a l IH]; intros Hne; [contradiction|].
  destruct l as [|b l'].
  - exists a. split; [now left|]. intros x [<-|[]]. apply Qle_refl.
  - destruct IH as [m [Hm Hmin]]; [discriminate|].
    destruct (Qlt_le_dec a m) as [H|H].
    + exists a. split; [now left|]. intros x [<-|Hx]; [apply Qle_refl|].
      apply Qlt_le_weak. eapply Qlt_le_trans; [exact H|apply Hmin; exact Hx].
    + exists m. split; [now right|]. intros x [<-|Hx]; [exact H|apply Hmin; exact Hx].
Qed.

Lemma predictions_exact (theta : Q) (y_true : list bool) (y_score : list Q) :
  length y_true = length y_score ->
  (forall s b, In (s, b) (combine y_score y_true) -> Qle_bool theta s = b) ->
  map (fun s => MetricSweep.ge_threshold s (MetricSweep.Fin theta)) y_score = y_true.
Proof.
  revert y_score. induction y_true as [|y ys IH]; intros [|s ss] Hlen Hall;
    try discriminate Hlen; [reflexivity|].
  injection Hlen as Hlen. simpl. f_equal.
  - apply Hall. now left.
  - apply IH; [exact Hlen|]. intros s' b Hin. apply Hall. now right.
Qed.

End F1Facts.

(** X17: the F1 of a prediction lies between 0 and 1, and it is 1 exactly
    when the prediction equals the labels and some label is 1. *)
Theorem f1_score_is_one_iff_prediction_exact (y_true y_pred : list bool) :
  length y_true = length y_pred ->
  (0 <= MetricSweep.f1_score y_true y_pred <= 1)%Q /\
  ((MetricSweep.f1_score y_true y_pred == 1)%Q
   <-> y_pred = y_true /\ forallb negb y_true = false).
Proof.
  intros Hlen. split; [apply f1_score_bounds|apply f1_score_one_iff; exact Hlen].
Qed.

Lemma f1_score_is_one_iff_prediction_exact_witness :
  (0 <= MetricSweep.f1_score [true; false] [true; false] <= 1)%Q /\
  ((MetricSweep.f1_score [true; false] [true; false] == 1)%Q
   <-> [true; false] = [true; false] /\ forallb negb [true; false] = false).
Proof.
  apply (@f1_score_is_one_iff_prediction_exact [true; false] [true; false]).
  reflexivity.
Defined.

(** X18: the sweep returns +inf, the threshold under which no image is
    predicted BAD, exactly when no label is 1. *)
Theorem best_threshold_is_inf_iff_no_positive (y_true : list bool) (y_score : list Q) :
  length y_true = length y_score -> y_score <> [] ->
  (MetricSweep.best_threshold y_true y_score = Ok MetricSweep.PInf
   <-> forallb negb y_true = true).
Proof.
  intros Hlen Hne. split.
  - intros Et.
    destruct (forallb negb y_true) eqn:Hpos; [reflexivity|exfalso].
    destruct (positive_sample y_true y_score Hlen Hpos) as [s Hs].
    destruct (sweep_maximum y_true Hlen Hne) as [t [Et' [_ Hmax]]].
    rewrite Et in Et'. injection Et' as <-.
    assert (H1 := f1_at_positive_sample _ _ _ Hs).
    assert (H2 := Hmax s (in_combine_l _ _ _ _ Hs)).
    assert (H3 := f1_at_inf y_true y_score).
    rewrite H3 in H2. apply (Qlt_irrefl 0%Q). eapply Qlt_le_trans; [exact H1|exact H2].
  - intros Hall. apply best_threshold_no_positive; assumption.
Qed.

Lemma best_threshold_is_inf_iff_no_positive_witness :
  MetricSweep.best_threshold [false; true] [1; 2]%Q = Ok MetricSweep.PInf
  <-> forallb negb [false; true] = true.
Proof.
  apply (@best_threshold_is_inf_iff_no_positive [false; true] [1; 2]%Q).
  - reflexivity.
  - discriminate.
Defined.

(** X19: when some label is 1 the sweep returns an observed score, the F1
    at that threshold is positive, and at least one image labelled 1 has a
    score at or above it: some BAD image is predicted BAD. *)
Theorem best_threshold_detects_a_positive (y_true : list bool) (y_score : list Q) :
  length y_true = length y_score -> forallb negb y_true = false ->
  exists q s,
    MetricSweep.best_threshold y_true y_score = Ok (MetricSweep.Fin q) /\
    In q y_score /\
    (0 < MetricSweep.f1_at y_true y_score (MetricSweep.Fin q))%Q /\
    In (s, true) (combine y_score y_true) /\ (q <= s)%Q.
Proof.
  intros Hlen Hpos.
  destruct (positive_sample y_true y_score Hlen Hpos) as [s Hs].
  assert (Hne : y_score <> []).
  { intros E. rewrite E in Hs. destruct Hs. }
  destruct (sweep_maximum y_true Hlen Hne) as [t [Et [Hcase Hmax]]].
  assert (H1 := f1_at_positive_sample _ _ _ Hs).
  assert (H2 := Hmax s (in_combine_l _ _ _ _ Hs)).
  assert (H3 := f1_at_inf y_true y_score).
  destruct Hcase as [->|[q [-> [Hq _]]]].
  - exfalso. rewrite H3 in H2. apply (Qlt_irrefl 0%Q).
    eapply Qlt_le_trans; [exact H1|exact H2].
  - assert (Hf : (0 < MetricSweep.f1_at y_true y_score (MetricSweep.Fin q))%Q)
      by (eapply Qlt_le_trans; [exact H1|exact H2]).
    assert (Htp := Hf). unfold MetricSweep.f1_at in Htp.
    apply f1_score_pos_iff in Htp. rewrite count_tp in Htp.
    destruct (count_ge_exists _ _ _ Htp) as [s' [Hin Hle]].
    exists q, s'. split; [exact Et|]. split; [exact Hq|]. split; [exact Hf|].
    split; [exact Hin|exact Hle].
Qed.

Lemma best_threshold_detects_a_positive_witness :
  exists q s,
    MetricSweep.best_threshold [false; true] [1; 2]%Q = Ok (MetricSweep.Fin q) /\
    In q [1; 2]%Q /\
    (0 < MetricSweep.f1_at [false; true] [1; 2]%Q (MetricSweep.Fin q))%Q /\
    In (s, true) (combine [1; 2]%Q [false; true]) /\ (q <= s)%Q.
Proof.
  apply (@best_threshold_detects_a_positive [false; true] [1; 2]%Q).
  - reflexivity.
  - reflexivity.
Defined.

(** X20: when every image labelled 1 scores above every image labelled 0
    and some label is 1, the threshold of the sweep separates the two
    classes: the predictions score >= threshold are the labels and the F1
    is 1. *)
Theorem separable_scores_are_classified_exactly (y_true : list bool) (y_score : list Q) :
  length y_true = length y_score -> forallb negb y_true = false ->
  (forall s s', In (s, true) (combine y_score y_true) ->
                In (s', false) (combine y_score y_true) -> (s' < s)%Q) ->
  exists q,
    MetricSweep.best_threshold y_true y_score = Ok (MetricSweep.Fin q) /\
    map (fun s => MetricSweep.ge_threshold s (MetricSweep.Fin q)) y_score = y_true /\
    (MetricSweep.f1_at y_true y_score (MetricSweep.Fin q) == 1)%Q.
Proof.
  intros Hlen Hpos Hsep.
  destruct (positive_sample y_true y_score Hlen Hpos) as [s0 Hs0].
  assert (Hne : y_score <> []).
  { intros E. rewrite E in Hs0. destruct Hs0. }
  set (pos := map fst (filter (fun z => snd z) (combine y_score y_true))).
  assert (Hposin : forall s, In s pos <-> In (s, true) (combine y_score y_true)).
  { intros s. unfold pos. rewrite in_map_iff. split.
    - intros [[s' b] [E H]]. apply filter_In in H. destruct H as [H Hb].
      simpl in E, Hb. subst. exact H.
    - intros H. exists (s, true). split; [reflexivity|].
      apply filter_In. split; [exact H|reflexivity]. }
  destruct (@min_exists pos) as [m [Hm Hmin]].
  { intros E. assert (H : In s0 pos) by (apply Hposin; exact Hs0).
    rewrite E in H. destruct H. }
  apply Hposin in Hm.
  assert (Hexact : map (fun s => MetricSweep.ge_threshold s (MetricSweep.Fin m)) y_score
                   = y_true).
  { apply predictions_exact; [exact Hlen|].
    intros s b Hin. destruct b.
    - apply Qle_bool_iff. apply Hmin. apply Hposin. exact Hin.
    - destruct (Qle_bool m s) eqn:E; [|reflexivity].
      apply Qle_bool_iff in E. specialize (Hsep m s Hm Hin).
      exfalso. apply (Qlt_irrefl s). eapply Qlt_le_trans; [exact Hsep|exact E]. }
  assert (Hone : (MetricSweep.f1_at y_true y_score (MetricSweep.Fin m) == 1)%Q).
  { unfold MetricSweep.f1_at. rewrite Hexact.
    apply f1_score_one_iff; [reflexivity|]. split; [reflexivity|exact Hpos]. }
  destruct (sweep_maximum y_true Hlen Hne) as [t [Et [Hcase Hmax]]].
  assert (H2 := Hmax m (in_combine_l _ _ _ _ Hm)).
  rewrite Hone in H2.
  assert (H3 := f1_at_inf y_true y_score).
  destruct Hcase as [->|[q [-> _]]].
  - exfalso. rewrite H3 in H2. revert H2. unfold Qle. simpl. lia.
  - assert (Hq : (MetricSweep.f1_at y_true y_score (MetricSweep.Fin q) == 1)%Q).
    { apply Qle_antisym; [|exact H2]. unfold MetricSweep.f1_at. apply f1_score_bounds. }
    exists q. split; [exact Et|]. split; [|exact Hq].
    unfold MetricSweep.f1_at in Hq.
    apply f1_score_one_iff in Hq; [|rewrite length_map; exact Hlen].
    exact (proj1 Hq).
Qed.

Lemma separable_scores_are_classified_exactly_witness :
  exists q,
    MetricSweep.best_threshold [false; true; false] [1; 3; 2]%Q
    = Ok (MetricSweep.Fin q) /\
    map (fun s => MetricSweep.ge_threshold s (MetricSweep.Fin q)) [1; 3; 2]%Q
    = [false; true; false] /\
    (MetricSweep.f1_at [false; true; false] [1; 3; 2]%Q (MetricSweep.Fin q) == 1)%Q.
Proof.
  apply (@separable_scores_are_classified_exactly [false; true; false] [1; 3; 2]%Q).
  - reflexivity.
  - reflexivity.
  - intros s s' [H|[H|[H|[]]]] [H'|[H'|[H'|[]]]];
      try discriminate H; try discriminate H';
      injection H as <-; injection H' as <-; reflexivity.
Defined.
